(** * beads_viewer: insights aggregator and dependency-graph view

    A shallow embedding of

    - [pkg/analysis]: [getTopItems] and [GraphStats.GenerateInsights]
      (the ranked insight lists),
    - [pkg/ui/graph.go]: [GraphModel], [buildGraph] with its inner
      [computeLayer] closure, the navigation methods and [SelectedIssue];
      then [TotalCount], the scroll methods, the canvas with [drawEdge]
      and [drawEdges], and [View] up to the drawing of the nodes, and
    - [pkg/agents/blurb.go]: the functions that find, read, append,
      remove and update the agent instructions blurb,

    together with the properties of these functions.  What draws with
    the theme ([drawNode], [drawNodes], [render] and the rest of [View])
    is left out: the theme and its styles are not part of the sources at
    hand.

    Go values are modelled as follows: [int] is [Z] (the modelled code
    only counts and indexes, far inside the range of [int]); [float64] is the
    IEEE-754 datum [spec_float] of the Standard Library, compared with
    [SFeqb] / [SFltb] (so [NaN] is unordered and [+0 == -0]); [string]
    is [string], compared bytewise; [map[K]V] is [gmap K V]; a slice is
    a [list], and where the source distinguishes a nil slice from an
    empty one, a [slice].  The two services of the Go runtime whose
    result the language leaves open, the order in which [range] visits
    a map and the algorithm behind [sort.Slice], are the fields of the
    class [GoRuntime]; every function that uses them takes the runtime
    as an argument. *)

From Stdlib Require Import ZArith Floats.SpecFloat Strings.String Strings.Ascii.
From stdpp Require Import gmap strings list fin_maps sorting.

Local Open Scope Z_scope.

(** ** Go values *)

Module Go.

(** [float64]. *)
Abbreviation float64 := spec_float.

(** [a == b] on [float64]. *)
Definition f64_eq (a b : float64) : bool := SFeqb a b.

(** [a > b] on [float64]. *)
Definition f64_gt (a b : float64) : bool := SFltb b a.

Definition f64_is_nan (a : float64) : bool :=
  match a with S754_nan => true | _ => false end.

(** [a < b] on [string]: bytewise lexicographic. *)
Definition str_lt (a b : string) : bool := String.ltb a b.

(** A slice value: [nil], or a (possibly empty) backing sequence. *)
Inductive slice (A : Type) : Type :=
  | SliceNil
  | Slice (elems : list A).
Arguments SliceNil {A}.
Arguments Slice {A} elems.

Definition elems {A} (s : slice A) : list A :=
  match s with SliceNil => [] | Slice l => l end.

(** [len(s)]. *)
Definition len {A} (s : slice A) : Z := Z.of_nat (length (elems s)).

(** [append(s, x)]: never nil. *)
Definition append {A} (s : slice A) (x : A) : slice A := Slice (elems s ++ [x]).

Definition is_nil {A} (s : slice A) : bool :=
  match s with SliceNil => true | Slice _ => false end.

(** The requirement [sort.Slice] puts on its [less] function (package
    [sort], [Interface.Less]): a transitive ordering, whose
    incomparability is transitive too.  Only the elements of the slice
    being sorted matter. *)
Definition less_consistent {A} (less : A → A → bool) (l : list A) : Prop :=
  (∀ x, x ∈ l → less x x = false) ∧
  (∀ x y z, x ∈ l → y ∈ l → z ∈ l →
     less x y = true → less y z = true → less x z = true) ∧
  (∀ x y z, x ∈ l → y ∈ l → z ∈ l →
     less x y = false → less y z = false → less x z = false).

(** What [sort.Slice] establishes: no element is [less] than one that
    precedes it. *)
Definition slice_sorted {A} (less : A → A → bool) (l : list A) : Prop :=
  StronglySorted (λ a b, less b a = false) l.

(** The Go runtime.  [map_range t m] is the sequence of entries that the
    [t]-th [range] statement executed by the program yields for the map
    [m]: some enumeration of the entries, each once, in an order that may
    change from one statement to the next.  [sort_slice less l] is
    [sort.Slice]: a rearrangement of [l], in order whenever [less] is
    consistent on [l] (not necessarily stable). *)
Class GoRuntime := {
  map_range : ∀ {K} `{Countable K} {V}, nat → gmap K V → list (K * V);
  map_range_perm : ∀ K `{Countable K} V (t : nat) (m : gmap K V),
    map_range t m ≡ₚ map_to_list m;
  sort_slice : ∀ {A}, (A → A → bool) → list A → list A;
  sort_slice_perm : ∀ A (less : A → A → bool) (l : list A),
    sort_slice less l ≡ₚ l;
  sort_slice_sorted : ∀ A (less : A → A → bool) (l : list A),
    less_consistent less l → slice_sorted less (sort_slice less l)
}.

(** A reference runtime: maps are visited in the order of [map_to_list]
    and slices are sorted by insertion. *)
Fixpoint insert_by {A} (less : A → A → bool) (x : A) (l : list A) : list A :=
  match l with
  | [] => [x]
  | y :: l' => if less x y then x :: y :: l' else y :: insert_by less x l'
  end.

Fixpoint insertion_sort {A} (less : A → A → bool) (l : list A) : list A :=
  match l with
  | [] => []
  | x :: l' => insert_by less x (insertion_sort less l')
  end.

End Go.

(** ** pkg/analysis: the insights aggregator *)

Module Analysis.
Import Go.

(** [type InsightItem struct { ID string; Value float64 }] *)
Record InsightItem := { ID : string; Value : float64 }.

(** Modelled from the spec: the declaration of [GraphStats] is not part
    of the sources at hand.  Its accessors [PageRank()], [Betweenness()],
    [CriticalPathScore()], [Eigenvector()], [Hubs()], [Authorities()] and
    [Cycles()] return copies of the metric maps (identifier to number) and
    of the cycle list, and [Density] is a field; the record holds what
    these return. *)
Module GraphStats.
Record t := {
  PageRank : gmap string float64;
  Betweenness : gmap string float64;
  CriticalPathScore : gmap string float64;
  Eigenvector : gmap string float64;
  Hubs : gmap string float64;
  Authorities : gmap string float64;
  Cycles : slice (slice string);
  Density : float64
}.
End GraphStats.

(** [type Insights struct { ... }]; [Stats] points to the statistics the
    lists were drawn from. *)
Record Insights := {
  Bottlenecks : slice InsightItem;
  Keystones : slice InsightItem;
  Influencers : slice InsightItem;
  Hubs : slice InsightItem;
  Authorities : slice InsightItem;
  Orphans : slice string;
  Cycles : slice (slice string);
  ClusterDensity : float64;
  Stats : GraphStats.t
}.

(** The local [type kv struct { Key string; Value float64 }] of
    [getTopItems]. *)
Module kv.
Record t := { Key : string; Value : float64 }.
End kv.

(** The [less] closure handed to [sort.Slice], on the elements at the two
    indices. *)
Definition kv_less (a b : kv.t) : bool :=
  if f64_eq (kv.Value a) (kv.Value b)
  then str_lt (kv.Key a) (kv.Key b)
  else f64_gt (kv.Value a) (kv.Value b).

(** [sort.Slice(ss, less)] on a slice value. *)
Definition sort_Slice `{GoRuntime} {A} (less : A → A → bool) (s : slice A) : slice A :=
  match s with
  | SliceNil => SliceNil
  | Slice l => Slice (sort_slice less l)
  end.

(** [for i := 0; i < len(ss) && i < limit; i++ { result = append(result, ...) }],
    with [ss] the part of the slice from index [i] on. *)
Fixpoint collect (ss : list kv.t) (i limit : Z) (result : slice InsightItem)
  : slice InsightItem :=
  match ss with
  | [] => result
  | e :: rest =>
      if i <? limit
      then collect rest (i + 1) limit
             (append result {| ID := kv.Key e; Value := kv.Value e |})
      else result
  end.

(** [func getTopItems(m map[string]float64, limit int) []InsightItem];
    [t] numbers the [range] statement it executes. *)
Definition getTopItems `{GoRuntime} (t : nat) (m : gmap string float64) (limit : Z)
  : slice InsightItem :=
  let ss := fold_left (λ ss '(k, v), append ss {| kv.Key := k; kv.Value := v |})
                      (map_range t m) SliceNil in
  let ss := sort_Slice kv_less ss in
  collect (elems ss) 0 limit (Slice []).

(** [func (s *GraphStats) GenerateInsights(limit int) Insights] *)
Definition GenerateInsights `{GoRuntime} (t : nat) (s : GraphStats.t) (limit : Z)
  : Insights :=
  let pageRank := GraphStats.PageRank s in
  let betweenness := GraphStats.Betweenness s in
  let criticalPath := GraphStats.CriticalPathScore s in
  let eigenvector := GraphStats.Eigenvector s in
  let hubs := GraphStats.Hubs s in
  let authorities := GraphStats.Authorities s in
  let cycles := GraphStats.Cycles s in
  let limit := if limit <=? 0 then Z.of_nat (size pageRank) else limit in
  {| Bottlenecks := getTopItems t betweenness limit;
     Keystones := getTopItems (t + 1) criticalPath limit;
     Influencers := getTopItems (t + 2) eigenvector limit;
     Hubs := getTopItems (t + 3) hubs limit;
     Authorities := getTopItems (t + 4) authorities limit;
     Orphans := SliceNil;
     Cycles := cycles;
     ClusterDensity := GraphStats.Density s;
     Stats := s |}.

End Analysis.

(** ** pkg/model: work items *)

Module Model.

(** Modelled from the spec: package [model] is not part of the sources at
    hand.  A dependency carries the identifier it depends on and a kind
    tag, a string; the structural kinds are "blocks" and "parent-child".
    An issue carries an identifier, a title, a status, a type and its
    dependencies. *)
Record Dependency := { DependsOnID : string; Type_ : string }.

Record Issue := {
  ID : string;
  Title : string;
  Status : string;
  IssueType : string;
  Dependencies : list Dependency
}.

Definition DepBlocks : string := "blocks".
Definition DepParentChild : string := "parent-child".

End Model.

(** ** pkg/ui/graph.go: the dependency graph view *)

Module UI.
Import Go.

(** [type graphNode struct]: a node of the layout. *)
Module graphNode.
Record t := {
  id : string;
  title : string;
  x : Z;
  y : Z;
  width : Z;
  height : Z;
  layer : Z;
  status : string;
  itype : string
}.
End graphNode.

(** [type graphEdge struct]: an edge between two node indices. *)
Module graphEdge.
Record t := { from : Z; to : Z; depType : string }.
End graphEdge.

(** [type GraphModel struct].  [issueMap] holds, for each identifier, the
    issue its pointer refers to; the theme and the canvas, which only
    rendering uses, are left out. *)
Module GraphModel.
Record t := {
  issues : list Model.Issue;
  issueMap : gmap string Model.Issue;
  insights : option Analysis.Insights;
  selectedNode : Z;
  scrollX : Z;
  scrollY : Z;
  width : Z;
  height : Z;
  nodes : list graphNode.t;
  edges : list graphEdge.t;
  layers : list (list Z)
}.
End GraphModel.

(** [l[i]] for an [int] index: [None] is the run-time panic. *)
Definition index {A} (l : list A) (i : Z) : option A :=
  if i <? 0 then None else l !! Z.to_nat i.

(** [dep.Type == model.DepBlocks || dep.Type == model.DepParentChild] *)
Definition structural (dep : Model.Dependency) : bool :=
  bool_decide (Model.Type_ dep = Model.DepBlocks)
  || bool_decide (Model.Type_ dep = Model.DepParentChild).

(** The first loop of [buildGraph], over [g.issues]: the adjacency list
    [dependsOn] (A depends on B) and the identifier set [allIDs]. *)
Definition add_dependencies (id : string) (deps : list Model.Dependency)
    (dependsOn : gmap string (list string)) : gmap string (list string) :=
  fold_left (λ dependsOn dep,
    if structural dep
    then <[id := (dependsOn !!! id) ++ [Model.DependsOnID dep]]> dependsOn
    else dependsOn) deps dependsOn.

Definition build_adjacency (issues : list Model.Issue)
  : gmap string (list string) * gmap string bool :=
  fold_left (λ '(dependsOn, allIDs) issue,
    (add_dependencies (Model.ID issue) (Model.Dependencies issue) dependsOn,
     <[Model.ID issue := true]> allIDs)) issues (∅, ∅).

(** The state [computeLayer] works on: the captured [layers] map and the
    [visited] map it is handed, which all recursive calls share. *)
Record LayerState := {
  layers : gmap string Z;
  visited : gset string
}.

(** [for _, parent := range dependsOn[id] { if _, exists := g.issueMap[parent];
    exists { pl := computeLayer(parent, visited); if pl > maxParent
    { maxParent = pl } } }] *)
Fixpoint over_parents (computeLayer : string → LayerState → option (Z * LayerState))
    (issueMap : gmap string Model.Issue) (parents : list string)
    (maxParent : Z) (st : LayerState) : option (Z * LayerState) :=
  match parents with
  | [] => Some (maxParent, st)
  | parent :: rest =>
      match issueMap !! parent with
      | Some _ =>
          match computeLayer parent st with
          | None => None
          | Some (pl, st) =>
              over_parents computeLayer issueMap rest
                (if maxParent <? pl then pl else maxParent) st
          end
      | None => over_parents computeLayer issueMap rest maxParent st
      end
  end.

(** The closure [computeLayer].  [fuel] bounds the depth of the recursion;
    [None] stands for a call that does not return. *)
Fixpoint computeLayer (dependsOn : gmap string (list string))
    (issueMap : gmap string Model.Issue) (fuel : nat)
    (id : string) (st : LayerState) : option (Z * LayerState) :=
  match fuel with
  | O => None
  | S fuel =>
      match layers st !! id with
      | Some layer => Some (layer, st)
      | None =>
          if decide (id ∈ visited st) then Some (0, st) (* Cycle detected *)
          else
            let st := {| layers := layers st; visited := {[id]} ∪ visited st |} in
            match over_parents (computeLayer dependsOn issueMap fuel) issueMap
                    (dependsOn !!! id) (-1) st with
            | None => None
            | Some (maxParent, st) =>
                let layer := maxParent + 1 in
                Some (layer, {| layers := <[id := layer]> (layers st);
                                visited := visited st |})
            end
      end
  end.

(** The recursion depth granted to each top-level call: more than the
    number of identifiers that can be marked visited. *)
Definition depth_bound (issueMap : gmap string Model.Issue) : nat :=
  S (S (size issueMap)).
Arguments depth_bound : simpl never.

(** [for id := range allIDs { computeLayer(id, make(map[string]bool)) }],
    over the identifiers in the order [range] yields them. *)
Fixpoint compute_layers (dependsOn : gmap string (list string))
    (issueMap : gmap string Model.Issue) (ids : list string)
    (layers : gmap string Z) : option (gmap string Z) :=
  match ids with
  | [] => Some layers
  | id :: rest =>
      match computeLayer dependsOn issueMap (depth_bound issueMap) id
              {| layers := layers; visited := ∅ |} with
      | None => None
      | Some (_, st) => compute_layers dependsOn issueMap rest (UI.layers st)
      end
  end.

(** [for id, layer := range layers { layerGroups[layer] = append(...);
    if layer > maxLayer { maxLayer = layer } }] *)
Definition group_by_layer (entries : list (string * Z))
  : gmap Z (list string) * Z :=
  fold_left (λ '(layerGroups, maxLayer) '(id, layer),
    (<[layer := (layerGroups !!! layer) ++ [id]]> layerGroups,
     if maxLayer <? layer then layer else maxLayer)) entries (∅, 0).

Definition nodeWidth : Z := 20.
Definition nodeHeight : Z := 4.
Definition horizontalGap : Z := 4.
Definition verticalGap : Z := 2.

(** What the placement loops of [buildGraph] build up. *)
Record Placement := {
  p_nodes : list graphNode.t;
  p_layers : list (list Z);
  p_index : gmap string Z
}.

Definition with_graph (g : GraphModel.t) (nodes : list graphNode.t)
    (edges : list graphEdge.t) (layers : list (list Z)) (selectedNode : Z)
  : GraphModel.t :=
  {| GraphModel.issues := GraphModel.issues g;
     GraphModel.issueMap := GraphModel.issueMap g;
     GraphModel.insights := GraphModel.insights g;
     GraphModel.selectedNode := selectedNode;
     GraphModel.scrollX := GraphModel.scrollX g;
     GraphModel.scrollY := GraphModel.scrollY g;
     GraphModel.width := GraphModel.width g;
     GraphModel.height := GraphModel.height g;
     GraphModel.nodes := nodes;
     GraphModel.edges := edges;
     GraphModel.layers := layers |}.

Section WithEnvironment.
Context `{GoRuntime}.

(** [truncateRunesHelper] is defined in another file of package [ui]; it
    only shapes the title shown in a node. *)
Variable truncateRunesHelper : string → Z → string → string.

(** [sort.Strings(x)] *)
Definition sort_Strings (x : list string) : list string := sort_slice str_lt x.

(** The body of [for i, id := range ids] in layer [layer]. *)
Definition place_node (issueMap : gmap string Model.Issue) (layer : Z)
    (p : Placement) (i : nat) (id : string) : Placement :=
  match issueMap !! id with
  | None => p
  | Some issue =>
      let x := Z.of_nat i * (nodeWidth + horizontalGap) in
      let y := layer * (nodeHeight + verticalGap) in
      let title := truncateRunesHelper (Model.Title issue) (nodeWidth - 4) "…" in
      let node := {| graphNode.id := id; graphNode.title := title;
                     graphNode.x := x; graphNode.y := y;
                     graphNode.width := nodeWidth; graphNode.height := nodeHeight;
                     graphNode.layer := layer;
                     graphNode.status := Model.Status issue;
                     graphNode.itype := Model.IssueType issue |} in
      let nodeIdx := Z.of_nat (length (p_nodes p)) in
      {| p_nodes := p_nodes p ++ [node];
         p_layers := alter (λ row, <[i := nodeIdx]> row) (Z.to_nat layer) (p_layers p);
         p_index := <[id := nodeIdx]> (p_index p) |}
  end.

Fixpoint place_ids (issueMap : gmap string Model.Issue) (layer : Z)
    (ids : list string) (i : nat) (p : Placement) : Placement :=
  match ids with
  | [] => p
  | id :: rest => place_ids issueMap layer rest (S i) (place_node issueMap layer p i id)
  end.

(** The body of [for layer := 0; layer <= maxLayer; layer++]. *)
Definition place_layer (issueMap : gmap string Model.Issue)
    (layerGroups : gmap Z (list string)) (p : Placement) (layer : Z) : Placement :=
  let ids := layerGroups !!! layer in
  let p := {| p_nodes := p_nodes p;
              p_layers := <[Z.to_nat layer := replicate (length ids) 0]> (p_layers p);
              p_index := p_index p |} in
  place_ids issueMap layer ids 0%nat p.

(** The edge loop: [for _, issue := range g.issues { ... }]. *)
Definition edges_of_issue (nodeIndexMap : gmap string Z) (issue : Model.Issue)
    (edges : list graphEdge.t) : list graphEdge.t :=
  match nodeIndexMap !! Model.ID issue with
  | None => edges
  | Some dependentIdx =>
      fold_left (λ edges dep,
        if negb (structural dep) then edges
        else match nodeIndexMap !! Model.DependsOnID dep with
             | None => edges
             | Some dependencyIdx =>
                 edges ++ [{| graphEdge.from := dependencyIdx;
                              graphEdge.to := dependentIdx;
                              graphEdge.depType := Model.Type_ dep |}]
             end) (Model.Dependencies issue) edges
  end.

Definition build_edges (nodeIndexMap : gmap string Z) (issues : list Model.Issue)
  : list graphEdge.t :=
  fold_left (λ edges issue, edges_of_issue nodeIndexMap issue edges) issues [].

(** The first half of [buildGraph]: the adjacency list, then the [layers]
    map filled by calling [computeLayer] on every identifier of [allIDs],
    in the order [range] yields them.  [None]: a call did not return. *)
Definition layer_map (t : nat) (g : GraphModel.t) : option (gmap string Z) :=
  let '(dependsOn, allIDs) := build_adjacency (GraphModel.issues g) in
  compute_layers dependsOn (GraphModel.issueMap g) (fst <$> map_range t allIDs) ∅.

(** The placement loops of [buildGraph]: nodes grouped by layer, sorted
    within each layer and laid out on the grid.  Each group is sorted on
    its own, so the order in which [range layerGroups] visits the groups
    plays no part. *)
Definition place_all (t : nat) (issueMap : gmap string Model.Issue)
    (layers : gmap string Z) : Placement :=
  let '(layerGroups, maxLayer) := group_by_layer (map_range t layers) in
  let layerGroups := sort_Strings <$> layerGroups in
  fold_left (place_layer issueMap layerGroups)
    (seqZ 0 (maxLayer + 1))
    {| p_nodes := []; p_layers := replicate (Z.to_nat (maxLayer + 1)) [];
       p_index := ∅ |}.

(** [func (g *GraphModel) buildGraph()]; [t] numbers its first [range]
    over a map.  [None]: a [computeLayer] call did not return. *)
Definition buildGraph (t : nat) (g : GraphModel.t) : option GraphModel.t :=
  if bool_decide (length (GraphModel.issues g) = 0%nat)
  then Some (with_graph g [] [] [] (GraphModel.selectedNode g))
  else
    match layer_map t g with
    | None => None
    | Some layers =>
        let p := place_all (t + 1) (GraphModel.issueMap g) layers in
        let edges := build_edges (p_index p) (GraphModel.issues g) in
        let selectedNode :=
          if Z.of_nat (length (p_nodes p)) <=? GraphModel.selectedNode g
          then 0 else GraphModel.selectedNode g in
        Some (with_graph g (p_nodes p) edges (p_layers p) selectedNode)
    end.

(** [issueMap[issues[i].ID] = &issues[i]] for every [i]. *)
Definition index_issues (issues : list Model.Issue) : gmap string Model.Issue :=
  fold_left (λ issueMap issue, <[Model.ID issue := issue]> issueMap) issues ∅.

(** The value [g] that [NewGraphModel] fills in before it calls
    [g.buildGraph()]: every other field is zero. *)
Definition initial_model (issues : list Model.Issue)
    (insights : option Analysis.Insights) : GraphModel.t :=
  {| GraphModel.issues := issues;
     GraphModel.issueMap := index_issues issues;
     GraphModel.insights := insights;
     GraphModel.selectedNode := 0;
     GraphModel.scrollX := 0; GraphModel.scrollY := 0;
     GraphModel.width := 0; GraphModel.height := 0;
     GraphModel.nodes := []; GraphModel.edges := []; GraphModel.layers := [] |}.

(** [func NewGraphModel(issues, insights, theme) GraphModel] *)
Definition NewGraphModel (t : nat) (issues : list Model.Issue)
    (insights : option Analysis.Insights) : option GraphModel.t :=
  buildGraph t (initial_model issues insights).

(** [func (g *GraphModel) SetIssues(issues, insights)] *)
Definition SetIssues (t : nat) (g : GraphModel.t) (issues : list Model.Issue)
    (insights : option Analysis.Insights) : option GraphModel.t :=
  buildGraph t
    {| GraphModel.issues := issues;
       GraphModel.issueMap := index_issues issues;
       GraphModel.insights := insights;
       GraphModel.selectedNode := GraphModel.selectedNode g;
       GraphModel.scrollX := GraphModel.scrollX g;
       GraphModel.scrollY := GraphModel.scrollY g;
       GraphModel.width := GraphModel.width g;
       GraphModel.height := GraphModel.height g;
       GraphModel.nodes := GraphModel.nodes g;
       GraphModel.edges := GraphModel.edges g;
       GraphModel.layers := GraphModel.layers g |}.

End WithEnvironment.

(** [for i := start - 1; i >= 0; i-- { if g.nodes[i].layer == l { return i } }]:
    the greatest index below [start] whose node lies in layer [l]. *)
Fixpoint scan_down (nodes : list graphNode.t) (l : Z) (start : nat) : option Z :=
  match start with
  | O => None
  | S i =>
      match nodes !! i with
      | Some node =>
          if bool_decide (graphNode.layer node = l) then Some (Z.of_nat i)
          else scan_down nodes l i
      | None => None
      end
  end.

(** [for i := start; i < len(g.nodes); i++ { if g.nodes[i].layer == l { return i } }],
    with [rest] the nodes from index [start] on. *)
Fixpoint scan_up (rest : list graphNode.t) (l : Z) (start : nat) : option Z :=
  match rest with
  | [] => None
  | node :: rest =>
      if bool_decide (graphNode.layer node = l) then Some (Z.of_nat start)
      else scan_up rest l (S start)
  end.

Definition select (g : GraphModel.t) (i : Z) : GraphModel.t :=
  with_graph g (GraphModel.nodes g) (GraphModel.edges g) (GraphModel.layers g) i.

(** [func (g *GraphModel) MoveUp()]; [None] is the panic of an index out
    of range. *)
Definition MoveUp (g : GraphModel.t) : option GraphModel.t :=
  if bool_decide (length (GraphModel.nodes g) = 0%nat) then Some g
  else
    match index (GraphModel.nodes g) (GraphModel.selectedNode g) with
    | None => None
    | Some current =>
        let currentLayer := graphNode.layer current in
        match scan_down (GraphModel.nodes g) currentLayer
                (Z.to_nat (GraphModel.selectedNode g)) with
        | Some i => Some (select g i)
        | None =>
            if 0 <? currentLayer
            then match scan_down (GraphModel.nodes g) (currentLayer - 1)
                         (length (GraphModel.nodes g)) with
                 | Some i => Some (select g i)
                 | None => Some g
                 end
            else Some g
        end
    end.

(** [func (g *GraphModel) MoveDown()] *)
Definition MoveDown (g : GraphModel.t) : option GraphModel.t :=
  if bool_decide (length (GraphModel.nodes g) = 0%nat) then Some g
  else
    match index (GraphModel.nodes g) (GraphModel.selectedNode g) with
    | None => None
    | Some current =>
        let currentLayer := graphNode.layer current in
        let next := S (Z.to_nat (GraphModel.selectedNode g)) in
        match scan_up (drop next (GraphModel.nodes g)) currentLayer next with
        | Some i => Some (select g i)
        | None =>
            match scan_up (GraphModel.nodes g) (currentLayer + 1) 0%nat with
            | Some i => Some (select g i)
            | None => Some g
            end
        end
    end.

(** [func (g *GraphModel) MoveLeft()] *)
Definition MoveLeft (g : GraphModel.t) : GraphModel.t :=
  if 0 <? GraphModel.selectedNode g
  then select g (GraphModel.selectedNode g - 1)
  else g.

(** [func (g *GraphModel) MoveRight()] *)
Definition MoveRight (g : GraphModel.t) : GraphModel.t :=
  if GraphModel.selectedNode g <? Z.of_nat (length (GraphModel.nodes g)) - 1
  then select g (GraphModel.selectedNode g + 1)
  else g.

(** [func (g *GraphModel) SelectedIssue() *model.Issue]: the outer [None]
    is the panic of an index out of range, the inner one is [nil]. *)
Definition SelectedIssue (g : GraphModel.t) : option (option Model.Issue) :=
  if bool_decide (length (GraphModel.nodes g) = 0%nat)
     || (Z.of_nat (length (GraphModel.nodes g)) <=? GraphModel.selectedNode g)
  then Some None
  else
    match index (GraphModel.nodes g) (GraphModel.selectedNode g) with
    | None => None
    | Some node => Some (GraphModel.issueMap g !! graphNode.id node)
    end.

End UI.

(** ** pkg/ui/graph.go: counting, scrolling and the canvas *)

Module Screen.
Import Go UI.

(** [func (g *GraphModel) TotalCount() int] *)
Definition TotalCount (g : GraphModel.t) : Z :=
  Z.of_nat (length (GraphModel.nodes g)).

(** *** Scrolling

    The scroll offsets move by ten with every key press and nothing in
    these methods bounds them, so their arithmetic is that of Go's 64-bit
    [int]: sums and differences wrap around. *)

Definition int_wrap (z : Z) : Z := (z + 2 ^ 63) `mod` 2 ^ 64 - 2 ^ 63.

Definition scrolled (g : GraphModel.t) (scrollX scrollY : Z) : GraphModel.t :=
  {| GraphModel.issues := GraphModel.issues g;
     GraphModel.issueMap := GraphModel.issueMap g;
     GraphModel.insights := GraphModel.insights g;
     GraphModel.selectedNode := GraphModel.selectedNode g;
     GraphModel.scrollX := scrollX;
     GraphModel.scrollY := scrollY;
     GraphModel.width := GraphModel.width g;
     GraphModel.height := GraphModel.height g;
     GraphModel.nodes := GraphModel.nodes g;
     GraphModel.edges := GraphModel.edges g;
     GraphModel.layers := GraphModel.layers g |}.

(** [func (g *GraphModel) PageUp()] *)
Definition PageUp (g : GraphModel.t) : GraphModel.t :=
  let scrollY := int_wrap (GraphModel.scrollY g - 10) in
  scrolled g (GraphModel.scrollX g) (if scrollY <? 0 then 0 else scrollY).

(** [func (g *GraphModel) PageDown()] *)
Definition PageDown (g : GraphModel.t) : GraphModel.t :=
  scrolled g (GraphModel.scrollX g) (int_wrap (GraphModel.scrollY g + 10)).

(** [func (g *GraphModel) ScrollLeft()] *)
Definition ScrollLeft (g : GraphModel.t) : GraphModel.t :=
  let scrollX := int_wrap (GraphModel.scrollX g - 10) in
  scrolled g (if scrollX <? 0 then 0 else scrollX) (GraphModel.scrollY g).

(** [func (g *GraphModel) ScrollRight()] *)
Definition ScrollRight (g : GraphModel.t) : GraphModel.t :=
  scrolled g (int_wrap (GraphModel.scrollX g + 10)) (GraphModel.scrollY g).


(** *** The canvas

    A [rune] is its code point.  [lipgloss.Style] comes from a library;
    the canvas only stores styles, so their type is left open, with
    [noStyle] for the zero value [lipgloss.Style{}].  Positions on the
    canvas are [Z], as the positions of the nodes are.

    The runes are named after their Unicode names.  In the sources at
    hand the last byte of the corner that [drawEdge] sets at [(x2, midY)]
    when [x1 < x2] is lost; it is taken to be [down_and_left], the
    counterpart of the corner set at [(x1, midY)]. *)

Abbreviation rune := Z (only parsing).

Definition space : rune := 32.
Definition horizontal : rune := 9472.       (* U+2500 *)
Definition vertical : rune := 9474.         (* U+2502 *)
Definition arrow_down : rune := 9660.       (* U+25BC *)

(** [type canvas struct]: a 2D character buffer for drawing. *)
Module canvas.
Record t {Style : Type} := {
  cells : list (list Z);
  colors : list (list Style);
  width : Z;
  height : Z
}.
Arguments t : clear implicits.
End canvas.


Section Canvas.
Context {Style : Type}.
Variable noStyle : Style.


(** [x >= 0 && x < c.width && y >= 0 && y < c.height] *)
Definition inside (c : canvas.t Style) (x y : Z) : bool :=
  (0 <=? x) && (x <? canvas.width c) && (0 <=? y) && (y <? canvas.height c).

(** [func (c *canvas) set(x, y int, r rune, style lipgloss.Style)];
    [None] is the panic of an index out of range. *)
Definition set (c : canvas.t Style) (x y : Z) (r : rune) (style : Style)
  : option (canvas.t Style) :=
  if inside c x y then
    row ← canvas.cells c !! Z.to_nat y;
    _ ← row !! Z.to_nat x;
    styles ← canvas.colors c !! Z.to_nat y;
    _ ← styles !! Z.to_nat x;
    Some {| canvas.cells :=
              <[Z.to_nat y := <[Z.to_nat x := r]> row]> (canvas.cells c);
            canvas.colors :=
              <[Z.to_nat y := <[Z.to_nat x := style]> styles]> (canvas.colors c);
            canvas.width := canvas.width c;
            canvas.height := canvas.height c |}
  else Some c.

(** [func (c *canvas) get(x, y int) rune] *)
Definition get (c : canvas.t Style) (x y : Z) : option rune :=
  if inside c x y then
    row ← canvas.cells c !! Z.to_nat y;
    row !! Z.to_nat x
  else Some space.

(** [func (c *canvas) drawString(x, y int, s string, style lipgloss.Style)],
    on the runes [[]rune(s)], from the [i]-th on. *)
Fixpoint drawString_from (c : canvas.t Style) (x y i : Z) (s : list rune)
    (style : Style) : option (canvas.t Style) :=
  match s with
  | [] => Some c
  | r :: s => c ← set c (x + i) y r style; drawString_from c x y (i + 1) s style
  end.

Definition drawString (c : canvas.t Style) (x y : Z) (s : list rune) (style : Style)
  : option (canvas.t Style) :=
  drawString_from c x y 0 s style.





End Canvas.

End Screen.

(** ** pkg/agents/blurb.go: the agent instructions blurb *)

Module Agents.

(** A Go string is the sequence of its bytes; the functions of this
    package cut the content at byte offsets. *)
Definition bytes (s : string) : list ascii := list_ascii_of_string s.

(** [len(s)] *)
Definition len (s : list ascii) : Z := Z.of_nat (length s).

Definition LF : ascii := "010"%char.
Definition CR : ascii := "013"%char.
Definition quote : list ascii := [ascii_of_nat 34].

(** [s[i]] for an [int] index; [None] is the run-time panic. *)
Definition byte_at (s : list ascii) (i : Z) : option ascii :=
  if i <? 0 then None else s !! Z.to_nat i.

(** [s[:j]] and [s[i:]]; [None] is the panic of a bound out of range. *)
Definition slice_to (s : list ascii) (j : Z) : option (list ascii) :=
  if (0 <=? j) && (j <=? len s) then Some (take (Z.to_nat j) s) else None.

Definition slice_from (s : list ascii) (i : Z) : option (list ascii) :=
  if (0 <=? i) && (i <=? len s) then Some (drop (Z.to_nat i) s) else None.

(** *** Package [strings] of the Go library *)

(** [strings.HasPrefix(s, prefix)] *)
Fixpoint HasPrefix (s prefix : list ascii) : bool :=
  match prefix, s with
  | [], _ => true
  | _ :: _, [] => false
  | p :: prefix, c :: s => Ascii.eqb c p && HasPrefix s prefix
  end.

(** [strings.HasSuffix(s, suffix)]:
    [len(s) >= len(suffix) && s[len(s)-len(suffix):] == suffix]. *)
Definition HasSuffix (s suffix : list ascii) : bool :=
  (len suffix <=? len s)
  && bool_decide (drop (length s - length suffix) s = suffix).

(** [strings.Index(s, substr)]: the index of the first instance of
    [substr] in [s], or [-1] if there is none.  [i] is the index of the
    first byte of [s] in the whole string. *)
Fixpoint index_from (s substr : list ascii) (i : Z) : Z :=
  if HasPrefix s substr then i
  else match s with
       | [] => -1
       | _ :: s => index_from s substr (i + 1)
       end.

Definition Index (s substr : list ascii) : Z := index_from s substr 0.

(** [strings.Contains(s, substr)]: [Index(s, substr) >= 0]. *)
Definition Contains (s substr : list ascii) : bool := 0 <=? Index s substr.

(** *** The constants *)

Definition BlurbVersion : Z := 2.

Definition BlurbStartMarker : list ascii := bytes "<!-- bv-agent-instructions-v2 -->".

Definition BlurbEndMarker : list ascii := bytes "<!-- end-bv-agent-instructions -->".

Definition AgentBlurb : list ascii :=
  bytes "<!-- bv-agent-instructions-v2 -->

---

## Beads Workflow Integration

This project uses [beads_rust](https://github.com/Dicklesworthstone/beads_rust) (`br`) for issue tracking and [beads_viewer](https://github.com/Dicklesworthstone/beads_viewer) (`bv`) for graph-aware triage. Issues are stored in `.beads/` and tracked in git.

### Using bv as an AI sidecar

bv is a graph-aware triage engine for Beads projects (.beads/beads.jsonl). Instead of parsing JSONL or hallucinating graph traversal, use robot flags for deterministic, dependency-aware outputs with precomputed metrics (PageRank, betweenness, critical path, cycles, HITS, eigenvector, k-core).

**Scope boundary:** bv handles *what to work on* (triage, priority, planning). `br` handles creating, modifying, and closing beads.

**CRITICAL: Use ONLY --robot-* flags. Bare bv launches an interactive TUI that blocks your session.**

#### The Workflow: Start With Triage

**`bv --robot-triage` is your single entry point.** It returns everything you need in one call:
- `quick_ref`: at-a-glance counts + top 3 picks
- `recommendations`: ranked actionable items with scores, reasons, unblock info
- `quick_wins`: low-effort high-impact items
- `blockers_to_clear`: items that unblock the most downstream work
- `project_health`: status/type/priority distributions, graph metrics
- `commands`: copy-paste shell commands for next steps

```bash
bv --robot-triage        # THE MEGA-COMMAND: start here
bv --robot-next          # Minimal: just the single top pick + claim command

# Token-optimized output (TOON) for lower LLM context usage:
bv --robot-triage --format toon
```

#### Other bv Commands

| Command | Returns |
|---------|---------|
| `--robot-plan` | Parallel execution tracks with unblocks lists |
| `--robot-priority` | Priority misalignment detection with confidence |
| `--robot-insights` | Full metrics: PageRank, betweenness, HITS, eigenvector, critical path, cycles, k-core |
| `--robot-alerts` | Stale issues, blocking cascades, priority mismatches |
| `--robot-suggest` | Hygiene: duplicates, missing deps, label suggestions, cycle breaks |
| `--robot-diff --diff-since <ref>` | Changes since ref: new/closed/modified issues |
| `--robot-graph [--graph-format=json\|dot\|mermaid]` | Dependency graph export |

#### Scoping & Filtering

```bash
bv --robot-plan --label backend              # Scope to label's subgraph
bv --robot-insights --as-of HEAD~30          # Historical point-in-time
bv --recipe actionable --robot-plan          # Pre-filter: ready to work (no blockers)
bv --recipe high-impact --robot-triage       # Pre-filter: top PageRank scores
```

### br Commands for Issue Management

```bash
br ready              # Show issues ready to work (no blockers)
br list --status=open # All open issues
br show <id>          # Full issue details with dependencies
br create --title=" ++ quote
  ++ bytes "..." ++ quote
  ++ bytes " --type=task --priority=2
br update <id> --status=in_progress
br close <id> --reason=" ++ quote
  ++ bytes "Completed" ++ quote
  ++ bytes "
br close <id1> <id2>  # Close multiple issues at once
br sync --flush-only  # Export DB to JSONL
```

### Workflow Pattern

1. **Triage**: Run `bv --robot-triage` to find the highest-impact actionable work
2. **Claim**: Use `br update <id> --status=in_progress`
3. **Work**: Implement the task
4. **Complete**: Use `br close <id>`
5. **Sync**: Always run `br sync --flush-only` at session end

### Key Concepts

- **Dependencies**: Issues can block other issues. `br ready` shows only unblocked work.
- **Priority**: P0=critical, P1=high, P2=medium, P3=low, P4=backlog (use numbers 0-4, not words)
- **Types**: task, bug, feature, epic, chore, docs, question
- **Blocking**: `br dep add <issue> <depends-on>` to add dependencies

### Session Protocol

```bash
git status              # Check what changed
git add <files>         # Stage code changes
br sync --flush-only    # Export beads changes to JSONL
git commit -m " ++ quote
  ++ bytes "..." ++ quote
  ++ bytes "     # Commit everything
git push                # Push to remote
```

<!-- end-bv-agent-instructions -->".

Definition LegacyBlurbPatterns : list (list ascii) :=
  [bytes "### Using bv as an AI sidecar";
   bytes "--robot-insights";
   bytes "--robot-plan";
   bytes "bv already computes the hard parts"].

(** *** The regular expressions

    Package [regexp] of the Go library finds the leftmost match and,
    among the matches that start there, the one a backtracking search
    finds first: a repetition takes as much as it can and gives back
    only what the rest of the pattern needs.  Each of the four patterns
    is a sequence of literals and of repetitions of one byte class, so
    its match at a given place is found by taking the longest run of
    each class. *)

(** The length of the longest run of bytes of the class [p] that [s]
    starts with. *)
Fixpoint run (p : ascii → bool) (s : list ascii) : nat :=
  match s with
  | c :: s => if p c then S (run p s) else O
  | [] => O
  end.

(** The class [\d]. *)
Definition is_digit (c : ascii) : bool :=
  (48 <=? nat_of_ascii c)%nat && (nat_of_ascii c <=? 57)%nat.

(** The class [\s]: tab, line feed, form feed, carriage return, space. *)
Definition is_space (c : ascii) : bool :=
  existsb (Nat.eqb (nat_of_ascii c)) [9; 10; 12; 13; 32]%nat.

Definition is_LF (c : ascii) : bool := Ascii.eqb c LF.

(** The leftmost place of [s] where [here] finds a match; [i] is the
    index of the first byte of [s] in the whole string. *)
Fixpoint leftmost {A} (here : list ascii → option A) (s : list ascii) (i : Z)
  : option (Z * A) :=
  match here s with
  | Some r => Some (i, r)
  | None => match s with
            | [] => None
            | _ :: s => leftmost here s (i + 1)
            end
  end.

(** The same for a pattern that starts with [(?m)^]: only the beginning
    of the string and the places after a line feed count;
    [line_start] tells whether [s] starts at one. *)
Fixpoint leftmost_line {A} (here : list ascii → option A) (s : list ascii)
    (line_start : bool) (i : Z) : option (Z * A) :=
  match (if line_start then here s else None) with
  | Some r => Some (i, r)
  | None => match s with
            | [] => None
            | c :: s => leftmost_line here s (is_LF c) (i + 1)
            end
  end.

(** [blurbVersionRegex], [<!-- bv-agent-instructions-v(\d+) -->], at the
    start of [s]: the digits of the group. *)
Definition version_here (s : list ascii) : option (list ascii) :=
  let opening := bytes "<!-- bv-agent-instructions-v" in
  if HasPrefix s opening then
    let rest := drop (length opening) s in
    let digits := take (run is_digit rest) rest in
    if (1 <=? length digits)%nat
       && HasPrefix (drop (length digits) rest) (bytes " -->")
    then Some digits else None
  else None.

(** [#{n,m}] at the start of [s] and then [rest] on what follows, the
    greater count of [#] tried first. *)
Definition hashes_then {A} (counts : list nat) (rest : list ascii → option A)
    (s : list ascii) : option A :=
  fold_right (λ k found,
    match (if HasPrefix s (replicate k "#"%char) then rest (drop k s) else None) with
    | Some r => Some r
    | None => found
    end) None counts.

(** [legacyBlurbStartPattern], [(?m)^#{2,3}\s*Using bv as an AI sidecar],
    at a line start: whether it matches (only the start of its match is
    used). *)
Definition legacy_start_here (s : list ascii) : option unit :=
  hashes_then [3; 2]%nat (λ s,
    if HasPrefix (drop (run is_space s) s) (bytes "Using bv as an AI sidecar")
    then Some tt else None) s.

(** [legacyBlurbEndPattern],
    [(?m)bv already computes the hard parts[^\n]*(?:\n*```)?\n*], at the
    start of [s]: the length of the match.  The rest of the line, then
    the code fence if only line feeds stand before it, then the line
    feeds that follow. *)
Definition legacy_end_here (s : list ascii) : option nat :=
  let phrase := bytes "bv already computes the hard parts" in
  if HasPrefix s phrase then
    let e := length phrase in
    let e := (e + run (λ c, negb (is_LF c)) (drop e s))%nat in
    let feeds := run is_LF (drop e s) in
    let e := if HasPrefix (drop (e + feeds) s) (bytes "```")
             then (e + feeds + 3)%nat else e in
    Some (e + run is_LF (drop e s))%nat
  else None.

(** [legacyBlurbNextSectionPattern], [(?m)^#{1,2}\s+[^#]], at a line
    start: whether it matches (only the start of its match is used).
    After the white space comes a character that is not [#]; where none
    follows, the last byte of the white space takes its place. *)
Definition next_section_here (s : list ascii) : option unit :=
  hashes_then [2; 1]%nat (λ s,
    let spaces := run is_space s in
    match s !! spaces with
    | Some c =>
        if (1 <=? spaces)%nat && negb (Ascii.eqb c "#"%char) then Some tt
        else if (2 <=? spaces)%nat then Some tt else None
    | None => if (2 <=? spaces)%nat then Some tt else None
    end) s.

(** [strconv.Atoi] on a string of digits: the number, or an error when
    it does not fit an [int]. *)
Definition Atoi (digits : list ascii) : option Z :=
  let n := fold_left (λ n c, 10 * n + (Z.of_nat (nat_of_ascii c) - 48)) digits 0 in
  if n <=? 2 ^ 63 - 1 then Some n else None.

(** *** The functions *)

(** [func ContainsBlurb(content string) bool] *)
Definition ContainsBlurb (content : list ascii) : bool :=
  Contains content (bytes "<!-- bv-agent-instructions-v").

(** [func ContainsLegacyBlurb(content string) bool] *)
Definition ContainsLegacyBlurb (content : list ascii) : bool :=
  match leftmost_line legacy_start_here content true 0 with
  | None => false
  | Some _ =>
      let matchCount :=
        fold_left (λ matchCount pattern,
          if Contains content pattern then matchCount + 1 else matchCount)
          LegacyBlurbPatterns 0 in
      matchCount =? Z.of_nat (length LegacyBlurbPatterns)
  end.

(** [func ContainsAnyBlurb(content string) bool] *)
Definition ContainsAnyBlurb (content : list ascii) : bool :=
  ContainsBlurb content || ContainsLegacyBlurb content.

(** [func GetBlurbVersion(content string) int] *)
Definition GetBlurbVersion (content : list ascii) : Z :=
  match leftmost version_here content 0 with
  | None => 0
  | Some (_, digits) =>
      match Atoi digits with
      | None => 0
      | Some version => version
      end
  end.

(** [func NeedsUpdate(content string) bool] *)
Definition NeedsUpdate (content : list ascii) : bool :=
  if ContainsLegacyBlurb content then true
  else if negb (ContainsBlurb content) then false
  else GetBlurbVersion content <? BlurbVersion.

(** [func AppendBlurb(content string) string] *)
Definition AppendBlurb (content : list ascii) : list ascii :=
  let content := if negb (HasSuffix content [LF]) then content ++ [LF] else content in
  let content := content ++ [LF] in
  let content := content ++ AgentBlurb in
  content ++ [LF].

Definition is_line_break (c : ascii) : bool := Ascii.eqb c LF || Ascii.eqb c CR.

(** [for endIdx < len(content) && (content[endIdx] == '\n' ||
    content[endIdx] == '\r') { endIdx++ }], with [rest] the bytes of
    [content] from [endIdx] on. *)
Fixpoint skip_line_breaks (rest : list ascii) (endIdx : Z) : Z :=
  match rest with
  | c :: rest => if is_line_break c then skip_line_breaks rest (endIdx + 1) else endIdx
  | [] => endIdx
  end.

(** The loop from a given [endIdx]: a negative one is below [len(content)]
    and no index of [content]. *)
Definition forward_over_line_breaks (content : list ascii) (endIdx : Z) : option Z :=
  if endIdx <? 0 then None
  else Some (skip_line_breaks (drop (Z.to_nat endIdx) content) endIdx).

(** [for startIdx > 0 && (content[startIdx-1] == '\n' ||
    content[startIdx-1] == '\r') { startIdx-- }] *)
Fixpoint step_back (content : list ascii) (startIdx : nat) : option Z :=
  match startIdx with
  | O => Some 0
  | S i =>
      match content !! i with
      | None => None
      | Some c =>
          if is_line_break c then step_back content i else Some (Z.of_nat (S i))
      end
  end.

Definition back_over_line_breaks (content : list ascii) (startIdx : Z) : option Z :=
  if startIdx <? 0 then Some startIdx else step_back content (Z.to_nat startIdx).

(** [func RemoveBlurb(content string) string]; [None] is a panic. *)
Definition RemoveBlurb (content : list ascii) : option (list ascii) :=
  let startIdx := Index content (bytes "<!-- bv-agent-instructions-v") in
  if startIdx =? -1 then Some content
  else
    let endIdx := Index content BlurbEndMarker in
    if endIdx =? -1 then Some content
    else
      let endIdx := endIdx + len BlurbEndMarker in
      endIdx ← forward_over_line_breaks content endIdx;
      startIdx ← back_over_line_breaks content startIdx;
      head ← slice_to content startIdx;
      tail ← slice_from content endIdx;
      Some (head ++ tail).

(** [func RemoveLegacyBlurb(content string) string]; [None] is a panic. *)
Definition RemoveLegacyBlurb (content : list ascii) : option (list ascii) :=
  if negb (ContainsLegacyBlurb content) then Some content
  else
    match leftmost_line legacy_start_here content true 0 with
    | None => Some content
    | Some (startIdx, _) =>
        rest ← slice_from content startIdx;
        endIdx ← match leftmost legacy_end_here rest 0 with
                 | Some (i, n) => Some (startIdx + (i + Z.of_nat n))
                 | None =>
                     rest ← slice_from content (startIdx + 10);
                     match leftmost_line next_section_here rest true 0 with
                     | Some (i, _) => Some (startIdx + 10 + i)
                     | None => Some (len content)
                     end
                 end;
        endIdx ← forward_over_line_breaks content endIdx;
        startIdx ← back_over_line_breaks content startIdx;
        let startIdx := if 0 <? startIdx then startIdx + 1 else startIdx in
        head ← slice_to content startIdx;
        tail ← slice_from content endIdx;
        Some (head ++ tail)
    end.

(** [func UpdateBlurb(content string) string] *)
Definition UpdateBlurb (content : list ascii) : option (list ascii) :=
  content ← RemoveLegacyBlurb content;
  content ← RemoveBlurb content;
  Some (AppendBlurb content).

End Agents.

(** ** Facts about the Go values *)

Module GoFacts.
Import Go.

(** *** Strings *)

Lemma ascii_compare_refl (c : ascii) : Ascii.compare c c = Eq.
Proof. unfold Ascii.compare. apply N.compare_refl. Qed.

Lemma ascii_compare_lt_trans (a b c : ascii) :
  Ascii.compare a b = Lt → Ascii.compare b c = Lt → Ascii.compare a c = Lt.
Proof.
  unfold Ascii.compare. rewrite !N.compare_lt_iff. apply N.lt_trans.
Qed.

Lemma str_compare_refl (s : string) : String.compare s s = Eq.
Proof.
  induction s as [|c s IH]; simpl; [done|]. by rewrite ascii_compare_refl.
Qed.

Lemma str_compare_lt_trans (a b c : string) :
  String.compare a b = Lt → String.compare b c = Lt → String.compare a c = Lt.
Proof.
  revert b c. induction a as [|x a IH]; intros [|y b] [|z c]; simpl; try done.
  destruct (Ascii.compare x y) eqn:Hxy; try done.
  - apply Ascii.compare_eq_iff in Hxy as ->.
    destruct (Ascii.compare y z); try done. apply IH.
  - intros _. destruct (Ascii.compare y z) eqn:Hyz; try done.
    + apply Ascii.compare_eq_iff in Hyz as <-. by rewrite Hxy.
    + by rewrite (ascii_compare_lt_trans _ _ _ Hxy Hyz).
Qed.

Lemma str_compare_gt_lt (a b : string) :
  String.compare a b = Gt ↔ String.compare b a = Lt.
Proof.
  rewrite (String.compare_antisym b a). destruct (String.compare a b); simpl; split; done.
Qed.

Lemma str_lt_spec (a b : string) : str_lt a b = true ↔ String.compare a b = Lt.
Proof. unfold str_lt, String.ltb. destruct (String.compare a b); split; done. Qed.

Lemma str_trichotomy (a b : string) :
  String.compare a b = Lt ∨ a = b ∨ String.compare b a = Lt.
Proof.
  destruct (String.compare a b) eqn:E; [|by left|].
  - right; left. by apply String.compare_eq_iff.
  - right; right. by apply str_compare_gt_lt.
Qed.

Lemma str_compare_lt_irrefl (a : string) : String.compare a a ≠ Lt.
Proof. by rewrite str_compare_refl. Qed.

Lemma str_compare_lt_asym (a b : string) :
  String.compare a b = Lt → String.compare b a ≠ Lt.
Proof.
  intros H1 H2. eapply str_compare_lt_irrefl, str_compare_lt_trans; eauto.
Qed.

(** *** Floating-point comparison *)

(** A rank whose lexicographic order is the order of the numbers that are
    not [NaN]: the sign class first, then exponent and mantissa. *)
Definition f64_rank (f : float64) : Z * Z * Z :=
  match f with
  | S754_zero _ => (0, 0, 0)
  | S754_infinity s => (if s then -2 else 2, 0, 0)
  | S754_nan => (0, 0, 0)
  | S754_finite s m e => if s then (-1, - e, Z.neg m) else (1, e, Z.pos m)
  end.

Definition lt3 (p q : Z * Z * Z) : Prop :=
  p.1.1 < q.1.1 ∨ (p.1.1 = q.1.1 ∧ (p.1.2 < q.1.2 ∨ (p.1.2 = q.1.2 ∧ p.2 < q.2))).

Definition compare3 (p q : Z * Z * Z) : comparison :=
  match p.1.1 ?= q.1.1 with
  | Eq => match p.1.2 ?= q.1.2 with
          | Eq => p.2 ?= q.2
          | c => c
          end
  | c => c
  end.

Lemma compare3_Lt p q : compare3 p q = Lt ↔ lt3 p q.
Proof.
  unfold compare3, lt3. destruct p as [[p1 p2] p3], q as [[q1 q2] q3]; simpl.
  destruct (Z.compare_spec p1 q1), (Z.compare_spec p2 q2), (Z.compare_spec p3 q3);
    split; (done || lia).
Qed.

Lemma compare3_Gt p q : compare3 p q = Gt ↔ lt3 q p.
Proof.
  unfold compare3, lt3. destruct p as [[p1 p2] p3], q as [[q1 q2] q3]; simpl.
  destruct (Z.compare_spec p1 q1), (Z.compare_spec p2 q2), (Z.compare_spec p3 q3);
    split; (done || lia).
Qed.

Lemma compare3_Eq p q : compare3 p q = Eq ↔ p = q.
Proof.
  unfold compare3. destruct p as [[p1 p2] p3], q as [[q1 q2] q3]; simpl.
  destruct (Z.compare_spec p1 q1), (Z.compare_spec p2 q2), (Z.compare_spec p3 q3);
    split; try done; intros; simplify_eq; first [done | lia].
Qed.

Lemma SFcompare_rank (a b : float64) :
  f64_is_nan a = false → f64_is_nan b = false →
  SFcompare a b = Some (compare3 (f64_rank a) (f64_rank b)).
Proof.
  destruct a as [[]|[]| |[] m1 e1], b as [[]|[]| |[] m2 e2]; try done;
    intros _ _; unfold compare3; simpl; f_equal.
  rewrite Z.compare_opp, (Z.compare_antisym e1 e2).
  by destruct (e1 ?= e2).
Qed.

Lemma f64_eq_rank (a b : float64) :
  f64_is_nan a = false → f64_is_nan b = false →
  f64_eq a b = true ↔ f64_rank a = f64_rank b.
Proof.
  intros Ha Hb. unfold f64_eq, SFeqb. rewrite SFcompare_rank by done.
  rewrite <-compare3_Eq. destruct (compare3 _ _); split; done.
Qed.

Lemma f64_gt_rank (a b : float64) :
  f64_is_nan a = false → f64_is_nan b = false →
  f64_gt a b = true ↔ lt3 (f64_rank b) (f64_rank a).
Proof.
  intros Ha Hb. unfold f64_gt, SFltb. rewrite SFcompare_rank by done.
  rewrite <-compare3_Lt. destruct (compare3 _ _); split; done.
Qed.

(** *** Sorting by insertion, and the reference runtime *)

Local Ltac in_list := rewrite ?elem_of_cons; auto.

Lemma insert_by_perm {A} (less : A → A → bool) (x : A) (l : list A) :
  insert_by less x l ≡ₚ x :: l.
Proof.
  induction l as [|y l IH]; simpl; [done|].
  destruct (less x y); [done|]. rewrite IH. apply Permutation_swap.
Qed.

Lemma insertion_sort_perm {A} (less : A → A → bool) (l : list A) :
  insertion_sort less l ≡ₚ l.
Proof.
  induction l as [|x l IH]; simpl; [done|]. by rewrite insert_by_perm, IH.
Qed.

Lemma less_consistent_asym {A} (less : A → A → bool) (l : list A) (x y : A) :
  less_consistent less l → x ∈ l → y ∈ l → less x y = true → less y x = false.
Proof.
  intros (Hirr & Htr & _) Hx Hy Hxy.
  destruct (less y x) eqn:Hyx; [|done].
  rewrite <-(Hirr x Hx). symmetry. by apply (Htr x y x).
Qed.

Lemma less_consistent_weaken {A} (less : A → A → bool) (l k : list A) :
  k ⊆ l → less_consistent less l → less_consistent less k.
Proof.
  intros Hkl (Hirr & Htr & Hntr). split_and!.
  - intros x ?. apply Hirr; auto.
  - intros x y z ???. apply Htr; auto.
  - intros x y z ???. apply Hntr; auto.
Qed.

Lemma insert_by_sorted {A} (less : A → A → bool) (x : A) (l : list A) :
  less_consistent less (x :: l) →
  slice_sorted less l → slice_sorted less (insert_by less x l).
Proof.
  unfold slice_sorted. intros Hc Hs.
  induction Hs as [|y l Hs IH Hy]; simpl.
  { repeat constructor. }
  destruct (less x y) eqn:Hxy.
  - constructor; [by constructor|]. constructor.
    + apply (less_consistent_asym less (x :: y :: l)); [done|in_list..|done].
    + rewrite Forall_forall in Hy |- *. intros z Hz.
      destruct (less z x) eqn:Hzx; [|done].
      rewrite <-(Hy z Hz). symmetry.
      destruct Hc as (_ & Htr & _). apply (Htr z x y); [in_list..|done|done].
  - constructor.
    + apply IH. eapply less_consistent_weaken; [|done].
      intros z. rewrite !elem_of_cons. tauto.
    + rewrite Forall_forall in Hy |- *. intros z Hz.
      rewrite insert_by_perm in Hz. apply elem_of_cons in Hz as [->|Hz]; auto.
Qed.

Lemma insertion_sort_sorted {A} (less : A → A → bool) (l : list A) :
  less_consistent less l → slice_sorted less (insertion_sort less l).
Proof.
  induction l as [|x l IH]; intros Hc; simpl.
  { constructor. }
  apply insert_by_sorted.
  - eapply less_consistent_weaken; [|done].
    intros z. rewrite !elem_of_cons, insertion_sort_perm. tauto.
  - apply IH. eapply less_consistent_weaken; [|done].
    intros z. rewrite elem_of_cons. tauto.
Qed.

(** The reference runtime. *)
Definition reference_runtime : GoRuntime :=
  {| map_range := λ K _ _ V _ m, map_to_list m;
     map_range_perm := λ K _ _ V _ m, reflexivity (map_to_list m);
     sort_slice := @insertion_sort;
     sort_slice_perm := @insertion_sort_perm;
     sort_slice_sorted := @insertion_sort_sorted |}.

(** A runtime that visits maps in the opposite order. *)
Definition reversed_runtime : GoRuntime :=
  {| map_range := λ K _ _ V _ m, reverse (map_to_list m);
     map_range_perm := λ K _ _ V _ m, reverse_Permutation (map_to_list m);
     sort_slice := @insertion_sort;
     sort_slice_perm := @insertion_sort_perm;
     sort_slice_sorted := @insertion_sort_sorted |}.

End GoFacts.

(** ** Properties of the insights aggregator *)

Module AnalysisFacts.
Import Go GoFacts Analysis.

(** The order of the ranked lists: value descending, equal values by
    identifier ascending. *)
Definition ranks_before (a b : InsightItem) : Prop :=
  f64_gt (Value a) (Value b) = true
  ∨ (f64_eq (Value a) (Value b) = true ∧ str_lt (ID a) (ID b) = true).

(** Every value of the metric map is a number. *)
Definition no_NaN (m : gmap string float64) : Prop :=
  map_Forall (λ _ v, f64_is_nan v = false) m.

(** The six metric maps have one entry per node: they share their keys. *)
Definition same_keys (s : GraphStats.t) : Prop :=
  dom (GraphStats.Betweenness s) = dom (GraphStats.PageRank s)
  ∧ dom (GraphStats.CriticalPathScore s) = dom (GraphStats.PageRank s)
  ∧ dom (GraphStats.Eigenvector s) = dom (GraphStats.PageRank s)
  ∧ dom (GraphStats.Hubs s) = dom (GraphStats.PageRank s)
  ∧ dom (GraphStats.Authorities s) = dom (GraphStats.PageRank s).

Definition to_kv (e : string * float64) : kv.t :=
  {| kv.Key := e.1; kv.Value := e.2 |}.

Definition to_item (e : kv.t) : InsightItem :=
  {| ID := kv.Key e; Value := kv.Value e |}.

Definition kv_ok (e : kv.t) : Prop := f64_is_nan (kv.Value e) = false.

(** *** The comparison closure is a strict total order on entries with
    numeric values and distinct keys *)

Definition kv_before (a b : kv.t) : Prop :=
  lt3 (f64_rank (kv.Value b)) (f64_rank (kv.Value a))
  ∨ (f64_rank (kv.Value a) = f64_rank (kv.Value b)
     ∧ String.compare (kv.Key a) (kv.Key b) = Lt).

Lemma kv_less_spec (a b : kv.t) :
  kv_ok a → kv_ok b → kv_less a b = true ↔ kv_before a b.
Proof.
  intros Ha Hb. unfold kv_less, kv_before.
  pose proof (f64_eq_rank _ _ Ha Hb) as Heq.
  pose proof (f64_gt_rank _ _ Ha Hb) as Hgt.
  destruct (f64_eq (kv.Value a) (kv.Value b)).
  - rewrite str_lt_spec. assert (f64_rank (kv.Value a) = f64_rank (kv.Value b)) as E
      by by apply Heq.
    split; [auto|]. intros [Hlt|[_ ?]]; [|done].
    rewrite E in Hlt. unfold lt3 in Hlt. lia.
  - rewrite Hgt. split; [auto|]. intros [?|[E _]]; [done|].
    apply Heq in E. done.
Qed.

Lemma kv_before_irrefl (a : kv.t) : ¬ kv_before a a.
Proof.
  unfold kv_before, lt3. intros [?|[_ ?]]; [lia|].
  by eapply str_compare_lt_irrefl.
Qed.

Lemma kv_before_trans (a b c : kv.t) :
  kv_before a b → kv_before b c → kv_before a c.
Proof.
  unfold kv_before, lt3.
  intros [H1|[E1 H1]] [H2|[E2 H2]].
  - left. lia.
  - left. rewrite <-E2. lia.
  - left. rewrite E1. lia.
  - right. split; [congruence|]. by eapply str_compare_lt_trans.
Qed.

Lemma kv_trichotomy (a b : kv.t) :
  kv_before a b
  ∨ (f64_rank (kv.Value a) = f64_rank (kv.Value b) ∧ kv.Key a = kv.Key b)
  ∨ kv_before b a.
Proof.
  unfold kv_before, lt3.
  destruct (f64_rank (kv.Value a)) as [[a1 a2] a3],
           (f64_rank (kv.Value b)) as [[b1 b2] b3]; simpl.
  destruct (decide (a1 = b1 ∧ a2 = b2 ∧ a3 = b3)) as [(-> & -> & ->)|Hn].
  - destruct (str_trichotomy (kv.Key a) (kv.Key b)) as [?|[?|?]]; auto.
  - assert (a1 < b1 ∨ a1 = b1 ∧ (a2 < b2 ∨ a2 = b2 ∧ a3 < b3)
            ∨ b1 < a1 ∨ b1 = a1 ∧ (b2 < a2 ∨ b2 = a2 ∧ b3 < a3)) by lia.
    tauto.
Qed.

Lemma kv_before_total (a b : kv.t) :
  kv.Key a ≠ kv.Key b → kv_before a b ∨ kv_before b a.
Proof. intros Hne. destruct (kv_trichotomy a b) as [?|[[_ ?]|?]]; auto. done. Qed.

Lemma kv_before_negtrans (a b c : kv.t) :
  ¬ kv_before a b → ¬ kv_before b c → ¬ kv_before a c.
Proof.
  intros Hab Hbc Hac.
  destruct (kv_trichotomy a b) as [?|[[Er Ek]|Hba]]; [done| |].
  - apply Hbc. unfold kv_before in *. by rewrite <-Er, <-Ek.
  - apply Hbc. by eapply kv_before_trans.
Qed.

Lemma kv_less_consistent (l : list kv.t) :
  Forall kv_ok l → less_consistent kv_less l.
Proof.
  rewrite Forall_forall. intros Hok. split_and!.
  - intros x Hx. apply not_true_is_false. rewrite kv_less_spec by auto.
    apply kv_before_irrefl.
  - intros x y z Hx Hy Hz. rewrite !kv_less_spec by auto. apply kv_before_trans.
  - intros x y z Hx Hy Hz. rewrite <-!not_true_iff_false, !kv_less_spec by auto.
    apply kv_before_negtrans.
Qed.

(** *** The shape of the result *)

Lemma range_elems (l : list (string * float64)) (s : slice kv.t) :
  elems (fold_left (λ ss '(k, v), append ss {| kv.Key := k; kv.Value := v |}) l s)
  = elems s ++ (to_kv <$> l).
Proof.
  revert s. induction l as [|[k v] l IH]; intros s; simpl.
  - by rewrite app_nil_r.
  - rewrite IH. simpl. by rewrite <-app_assoc.
Qed.

Lemma sort_Slice_elems `{GoRuntime} {A} (less : A → A → bool) (s : slice A) :
  elems (sort_Slice less s) = sort_slice less (elems s).
Proof.
  destruct s as [|l]; simpl; [|done].
  symmetry. apply Permutation_nil_r, sort_slice_perm.
Qed.

Lemma collect_elems (ss : list kv.t) (i limit : Z) (res : slice InsightItem) :
  elems (collect ss i limit res)
  = elems res ++ (to_item <$> take (Z.to_nat (limit - i)) ss).
Proof.
  revert i res. induction ss as [|e ss IH]; intros i res; simpl.
  - by rewrite take_nil, app_nil_r.
  - destruct (Z.ltb_spec i limit).
    + rewrite IH. simpl. rewrite <-app_assoc. simpl.
      replace (Z.to_nat (limit - i)) with (S (Z.to_nat (limit - (i + 1)))) by lia.
      done.
    + replace (Z.to_nat (limit - i)) with 0%nat by lia. by rewrite app_nil_r.
Qed.

Lemma collect_not_nil (ss : list kv.t) (i limit : Z) (res : slice InsightItem) :
  is_nil res = false → is_nil (collect ss i limit res) = false.
Proof.
  revert i res. induction ss as [|e ss IH]; intros i res Hres; simpl; [done|].
  destruct (i <? limit); [|done]. by apply IH.
Qed.

(** The sorted slice [ss] of [getTopItems]. *)
Definition sorted_entries `{GoRuntime} (t : nat) (m : gmap string float64) : list kv.t :=
  sort_slice kv_less (to_kv <$> map_range t m).

Lemma getTopItems_elems `{GoRuntime} (t : nat) (m : gmap string float64) (limit : Z) :
  elems (getTopItems t m limit)
  = to_item <$> take (Z.to_nat limit) (sorted_entries t m).
Proof.
  unfold getTopItems, sorted_entries.
  rewrite collect_elems, sort_Slice_elems, range_elems. simpl.
  by rewrite Z.sub_0_r.
Qed.

Lemma collect_Slice (ss : list kv.t) (i limit : Z) (res : slice InsightItem) :
  is_nil res = false →
  collect ss i limit res = Slice (elems (collect ss i limit res)).
Proof.
  intros Hres. pose proof (collect_not_nil ss i limit res Hres) as Hn.
  by destruct (collect ss i limit res).
Qed.

Lemma getTopItems_Slice `{GoRuntime} (t : nat) (m : gmap string float64) (limit : Z) :
  getTopItems t m limit
  = Slice (to_item <$> take (Z.to_nat limit) (sorted_entries t m)).
Proof.
  rewrite <-getTopItems_elems. unfold getTopItems. by apply collect_Slice.
Qed.

Lemma sorted_entries_perm `{GoRuntime} (t : nat) (m : gmap string float64) :
  sorted_entries t m ≡ₚ to_kv <$> map_to_list m.
Proof.
  unfold sorted_entries. by rewrite sort_slice_perm, map_range_perm.
Qed.

Lemma sorted_entries_length `{GoRuntime} (t : nat) (m : gmap string float64) :
  length (sorted_entries t m) = size m.
Proof.
  by rewrite sorted_entries_perm, length_fmap, length_map_to_list.
Qed.

Lemma elem_of_sorted_entries `{GoRuntime} (t : nat) (m : gmap string float64) (e : kv.t) :
  e ∈ sorted_entries t m ↔ m !! kv.Key e = Some (kv.Value e).
Proof.
  rewrite sorted_entries_perm, list_elem_of_fmap. split.
  - intros ([k v] & -> & Hin). by apply elem_of_map_to_list in Hin.
  - intros Hm. exists (kv.Key e, kv.Value e). split; [by destruct e|].
    by apply elem_of_map_to_list.
Qed.

Lemma sorted_entries_ok `{GoRuntime} (t : nat) (m : gmap string float64) :
  no_NaN m → Forall kv_ok (sorted_entries t m).
Proof.
  intros Hm. apply Forall_forall. intros e He.
  apply elem_of_sorted_entries in He. by apply Hm in He.
Qed.

Lemma sorted_entries_keys `{GoRuntime} (t : nat) (m : gmap string float64) :
  NoDup (kv.Key <$> sorted_entries t m).
Proof.
  rewrite sorted_entries_perm, <-list_fmap_compose.
  apply (NoDup_fst_map_to_list m).
Qed.

Lemma strictly_sorted (l : list kv.t) :
  Forall kv_ok l → NoDup (kv.Key <$> l) →
  slice_sorted kv_less l → StronglySorted kv_before l.
Proof.
  unfold slice_sorted. intros Hok Hnd Hs.
  induction Hs as [|a l Hs IH Ha]; [constructor|].
  apply Forall_cons in Hok as [Hoka Hok].
  rewrite fmap_cons in Hnd. apply NoDup_cons in Hnd as [Hnin Hnd].
  constructor; [by apply IH|].
  apply Forall_forall. intros b Hb.
  rewrite Forall_forall in Ha, Hok.
  destruct (kv_before_total a b) as [?|Hba]; [|done|].
  - intros E. apply Hnin. rewrite E. apply list_elem_of_fmap. eauto.
  - apply kv_less_spec in Hba; auto. rewrite Ha in Hba; done.
Qed.

Lemma sorted_entries_sorted `{GoRuntime} (t : nat) (m : gmap string float64) :
  no_NaN m → StronglySorted kv_before (sorted_entries t m).
Proof.
  intros Hm. apply strictly_sorted.
  - by apply sorted_entries_ok.
  - apply sorted_entries_keys.
  - apply sort_slice_sorted, kv_less_consistent.
    apply Forall_forall. intros e He.
    assert (e ∈ sorted_entries t m) as He'
      by (unfold sorted_entries; by rewrite sort_slice_perm).
    apply elem_of_sorted_entries in He'. by apply Hm in He'.
Qed.

(** The sorted slice does not depend on the runtime: neither on the order
    in which the map was visited nor on the sorting algorithm. *)
Lemma sorted_entries_unique (R1 R2 : GoRuntime) (t1 t2 : nat)
    (m : gmap string float64) :
  no_NaN m →
  @sorted_entries R1 t1 m = @sorted_entries R2 t2 m.
Proof.
  intros Hm. apply (StronglySorted_unique_strong kv_before).
  - intros a b _ _ Hab Hba. destruct (kv_before_irrefl a).
    by eapply kv_before_trans.
  - by apply sorted_entries_sorted.
  - by apply sorted_entries_sorted.
  - by rewrite !sorted_entries_perm.
Qed.

Lemma kv_before_ranks (a b : kv.t) :
  kv_ok a → kv_ok b → kv_before a b → ranks_before (to_item a) (to_item b).
Proof.
  intros Ha Hb Hab. apply kv_less_spec in Hab; [|done..].
  unfold kv_less in Hab. unfold ranks_before; simpl.
  destruct (f64_eq (kv.Value a) (kv.Value b)); auto.
Qed.

Lemma StronglySorted_lookup_lt {A} (R : relation A) (l : list A) (i j : nat) (x y : A) :
  StronglySorted R l → l !! i = Some x → l !! j = Some y → (i < j)%nat → R x y.
Proof.
  intros Hs Hi Hj Hij. rewrite <-(take_drop_middle l j y Hj) in Hs.
  eapply StronglySorted_app_1_elem_of; [done| |by left].
  apply elem_of_take. eauto.
Qed.

(** The first [n] entries of the sorted slice, as insight items. *)
Section Ranked.
Context `{GoRuntime} (t : nat) (m : gmap string float64) (n : nat).
Hypothesis Hm : no_NaN m.

Let out := to_item <$> take n (sorted_entries t m).

Lemma ranked_length : length out = (n `min` size m)%nat.
Proof. unfold out. by rewrite length_fmap, length_take, sorted_entries_length. Qed.

Lemma ranked_sorted : StronglySorted ranks_before out.
Proof.
  unfold out.
  pose proof (sorted_entries_sorted t m Hm) as Hs.
  pose proof (sorted_entries_ok t m Hm) as Hok.
  rewrite <-(take_drop n (sorted_entries t m)) in Hs, Hok.
  apply StronglySorted_app_1_l in Hs. apply Forall_app in Hok as [Hok _].
  induction Hs as [|a l Hs IH Ha]; [constructor|].
  apply Forall_cons in Hok as [Hoka Hok]. rewrite fmap_cons.
  constructor; [by apply IH|].
  rewrite Forall_forall in Ha, Hok. apply Forall_forall. intros b Hb.
  apply list_elem_of_fmap in Hb as (e & -> & He).
  apply kv_before_ranks; auto.
Qed.

Lemma ranked_elem_of (it : InsightItem) : it ∈ out → m !! ID it = Some (Value it).
Proof.
  unfold out. intros Hin. apply list_elem_of_fmap in Hin as (e & -> & He).
  apply elem_of_take in He as (i & He & _).
  apply (elem_of_sorted_entries t m). by eapply list_elem_of_lookup_2.
Qed.

Lemma ranked_top (k : string) (v : float64) (it : InsightItem) :
  m !! k = Some v → {| ID := k; Value := v |} ∉ out → it ∈ out →
  ranks_before it {| ID := k; Value := v |}.
Proof.
  unfold out. intros Hk Hnot Hin.
  set (e := {| kv.Key := k; kv.Value := v |}).
  assert (e ∈ sorted_entries t m) as He by by apply elem_of_sorted_entries.
  pose proof (sorted_entries_sorted t m Hm) as Hs.
  pose proof (sorted_entries_ok t m Hm) as Hok. rewrite Forall_forall in Hok.
  rewrite <-(take_drop n (sorted_entries t m)) in Hs, He.
  apply elem_of_app in He as [He|He].
  { destruct Hnot. apply list_elem_of_fmap. by exists e. }
  apply list_elem_of_fmap in Hin as (a & -> & Ha).
  change {| ID := k; Value := v |} with (to_item e).
  apply kv_before_ranks.
  - apply Hok. apply elem_of_take in Ha as (i & Ha & _).
    by eapply list_elem_of_lookup_2.
  - by apply Hm in Hk.
  - by eapply StronglySorted_app_1_elem_of.
Qed.

Lemma ranked_tie (a b : string) (va vb : float64) (j : nat) :
  m !! a = Some va → m !! b = Some vb →
  f64_eq va vb = true → str_lt a b = true →
  out !! j = Some {| ID := b; Value := vb |} →
  ∃ i, (i < j)%nat ∧ out !! i = Some {| ID := a; Value := va |}.
Proof.
  unfold out. intros Ha Hb Heq Hlt Hj.
  set (ea := {| kv.Key := a; kv.Value := va |}).
  set (eb := {| kv.Key := b; kv.Value := vb |}).
  assert (kv_before ea eb) as Hab.
  { right. simpl. split; [|by apply str_lt_spec].
    apply f64_eq_rank; [by apply Hm in Ha|by apply Hm in Hb|done]. }
  rewrite list_lookup_fmap in Hj.
  destruct (take n (sorted_entries t m) !! j) as [e|] eqn:Hj'; [|done].
  assert (e = eb) as -> by (destruct e; unfold to_item in Hj; simpl in Hj; by simplify_eq).
  apply lookup_take_Some in Hj' as [Hj' Hjn].
  assert (ea ∈ sorted_entries t m) as Hea by by apply elem_of_sorted_entries.
  apply list_elem_of_lookup in Hea as [i Hi].
  pose proof (sorted_entries_sorted t m Hm) as Hs.
  destruct (lt_eq_lt_dec i j) as [[Hij| ->]|Hij].
  - exists i. split; [done|].
    rewrite list_lookup_fmap, lookup_take_lt by lia. by rewrite Hi.
  - assert (ea = eb) as E by congruence. rewrite E in Hab.
    by destruct (kv_before_irrefl eb).
  - destruct (kv_before_irrefl ea). eapply kv_before_trans; [done|].
    by eapply (StronglySorted_lookup_lt kv_before).
Qed.

End Ranked.

(** *** C1 *)

(** C1.  For a metric map of numbers and a positive limit [N],
    [getTopItems] returns [min N (size of the map)] entries of the map, in
    order of value descending and, for equal values, of identifier
    ascending; every entry left out ranks after every entry returned.  Two
    identifiers with equal values come out in ascending order: when the
    larger one is at position [j], the smaller one is at a position before
    [j] (for "bv-1" and "bv-2": "bv-1" first). *)
Theorem getTopItems_ranked `{GoRuntime} (t : nat) (m : gmap string float64)
    (limit : Z) :
  0 < limit → no_NaN m →
  let out := elems (getTopItems t m limit) in
  length out = (Z.to_nat limit `min` size m)%nat
  ∧ StronglySorted ranks_before out
  ∧ (∀ it, it ∈ out → m !! ID it = Some (Value it))
  ∧ (∀ k v it, m !! k = Some v → {| ID := k; Value := v |} ∉ out → it ∈ out →
       ranks_before it {| ID := k; Value := v |})
  ∧ (∀ a b va vb j, m !! a = Some va → m !! b = Some vb →
       f64_eq va vb = true → str_lt a b = true →
       out !! j = Some {| ID := b; Value := vb |} →
       ∃ i, (i < j)%nat ∧ out !! i = Some {| ID := a; Value := va |})
  ∧ (∀ v1 v2 j, m !! "bv-1" = Some v1 → m !! "bv-2" = Some v2 →
       f64_eq v1 v2 = true →
       out !! j = Some {| ID := "bv-2"; Value := v2 |} →
       ∃ i, (i < j)%nat ∧ out !! i = Some {| ID := "bv-1"; Value := v1 |}).
Proof.
  intros Hlimit Hm out. unfold out. rewrite getTopItems_elems. split_and!.
  - by apply ranked_length.
  - by apply ranked_sorted.
  - by apply ranked_elem_of.
  - intros k v it. by apply ranked_top.
  - intros a b va vb j. by apply ranked_tie.
  - intros v1 v2 j H1 H2 Heq. by apply ranked_tie.
Qed.

Definition f64_one : float64 := S754_finite false 4503599627370496 (-52).
Definition f64_two : float64 := S754_finite false 4503599627370496 (-51).

Definition tie_map : gmap string float64 :=
  <["bv-2" := f64_one]> (<["bv-1" := f64_one]> (<["bv-3" := f64_two]> ∅)).

Lemma tie_map_no_NaN : no_NaN tie_map.
Proof.
  unfold no_NaN, tie_map.
  repeat (apply map_Forall_insert_2; [done|]). apply map_Forall_empty.
Defined.

Lemma getTopItems_ranked_witness :
  0 < 3 ∧ no_NaN tie_map
  ∧ ID <$> elems (@getTopItems reference_runtime 0 tie_map 3) = ["bv-3"; "bv-1"; "bv-2"]
  ∧ ID <$> elems (@getTopItems reversed_runtime 0 tie_map 2) = ["bv-3"; "bv-1"]
  ∧ StronglySorted ranks_before (elems (@getTopItems reference_runtime 0 tie_map 3)).
Proof.
  split; [lia|]. split; [exact tie_map_no_NaN|].
  split; [vm_compute; reflexivity|]. split; [vm_compute; reflexivity|].
  apply (@getTopItems_ranked reference_runtime 0%nat tie_map 3);
    [lia|exact tie_map_no_NaN].
Defined.

(** *** C2 *)

(** The maps behind the five ranked lists, and the lists, in the order of
    the fields of [Insights]. *)
Definition ranked_metrics (s : GraphStats.t) : list (gmap string float64) :=
  [GraphStats.Betweenness s; GraphStats.CriticalPathScore s;
   GraphStats.Eigenvector s; GraphStats.Hubs s; GraphStats.Authorities s].

Definition ranked_lists (ins : Insights) : list (slice InsightItem) :=
  [Bottlenecks ins; Keystones ins; Influencers ins; Hubs ins; Authorities ins].

Definition numeric (s : GraphStats.t) : Prop := Forall no_NaN (ranked_metrics s).

(** A list that ranks every entry of a map. *)
Definition full_ranking (m : gmap string float64) (l : slice InsightItem) : Prop :=
  length (elems l) = size m
  ∧ (∀ k v, m !! k = Some v ↔ {| ID := k; Value := v |} ∈ elems l)
  ∧ StronglySorted ranks_before (elems l).

Lemma getTopItems_full `{GoRuntime} (t : nat) (m : gmap string float64) (limit : Z) :
  no_NaN m → Z.of_nat (size m) ≤ limit → full_ranking m (getTopItems t m limit).
Proof.
  intros Hm Hlimit. unfold full_ranking. rewrite getTopItems_elems. split_and!.
  - rewrite ranked_length. lia.
  - intros k v. rewrite take_ge by (rewrite sorted_entries_length; lia).
    rewrite list_elem_of_fmap. split.
    + intros Hk. exists {| kv.Key := k; kv.Value := v |}. split; [done|].
      by apply elem_of_sorted_entries.
    + intros (e & He & Hin). apply elem_of_sorted_entries in Hin.
      destruct e. unfold to_item in He. simpl in *. by simplify_eq.
  - by apply ranked_sorted.
Qed.

Lemma same_keys_size (s : GraphStats.t) (m : gmap string float64) :
  same_keys s → m ∈ ranked_metrics s → size m = size (GraphStats.PageRank s).
Proof.
  intros (H1 & H2 & H3 & H4 & H5) Hin. rewrite <-!size_dom.
  unfold ranked_metrics in Hin. rewrite !elem_of_cons in Hin.
  destruct Hin as [->|[->|[->|[->|[->|Hin]]]]]; try congruence.
  by apply elem_of_nil in Hin.
Qed.

(** C2.  On metric maps of numbers with one entry per node: for a limit
    [N ≤ 0] each of the five ranked lists of [GenerateInsights] has one
    entry for every entry of its metric map, as many as there are nodes,
    ordered by value descending and identifier ascending; for [N > 0]
    each list has [min N (number of nodes)] entries. *)
Theorem GenerateInsights_limit `{GoRuntime} (t : nat) (s : GraphStats.t) (limit : Z) :
  same_keys s → numeric s →
  let ins := GenerateInsights t s limit in
  let nodes := size (GraphStats.PageRank s) in
  (limit ≤ 0 →
     Forall2 full_ranking (ranked_metrics s) (ranked_lists ins)
     ∧ Forall (λ l, length (elems l) = nodes) (ranked_lists ins))
  ∧ (0 < limit →
     Forall (λ l, length (elems l) = (Z.to_nat limit `min` nodes)%nat) (ranked_lists ins)).
Proof.
  intros Hkeys Hnum ins nodes.
  assert (∀ m, m ∈ ranked_metrics s → size m = nodes) as Hsize
    by (intros m; by apply same_keys_size).
  unfold numeric in Hnum. rewrite Forall_forall in Hnum.
  unfold ranked_metrics in Hsize, Hnum.
  unfold ins, ranked_lists, ranked_metrics, GenerateInsights. simpl. split.
  - intros Hle. rewrite (proj2 (Z.leb_le _ _) Hle). fold nodes. split.
    + repeat (apply Forall2_cons; split;
        [apply getTopItems_full;
           [apply Hnum; rewrite !elem_of_cons; tauto
           |rewrite Hsize; [lia|rewrite !elem_of_cons; tauto]]|]).
      constructor.
    + repeat (apply Forall_cons; split;
        [rewrite getTopItems_elems, ranked_length, Hsize;
           [lia|rewrite !elem_of_cons; tauto]|]).
      constructor.
  - intros Hlt. rewrite (proj2 (Z.leb_gt _ _) Hlt).
    repeat (apply Forall_cons; split;
      [rewrite getTopItems_elems, ranked_length, Hsize;
         [done|rewrite !elem_of_cons; tauto]|]).
    constructor.
Qed.

Definition tie_stats : GraphStats.t :=
  {| GraphStats.PageRank := tie_map;
     GraphStats.Betweenness := tie_map;
     GraphStats.CriticalPathScore := tie_map;
     GraphStats.Eigenvector := tie_map;
     GraphStats.Hubs := tie_map;
     GraphStats.Authorities := tie_map;
     GraphStats.Cycles := Slice [Slice ["bv-1"; "bv-2"]];
     GraphStats.Density := f64_one |}.

Lemma tie_stats_same_keys : same_keys tie_stats.
Proof. by repeat split. Defined.

Lemma tie_stats_numeric : numeric tie_stats.
Proof. repeat constructor; exact tie_map_no_NaN. Defined.

Lemma GenerateInsights_limit_witness :
  same_keys tie_stats ∧ numeric tie_stats
  ∧ (ID <$> elems (Keystones (@GenerateInsights reference_runtime 0 tie_stats 0))
     = ["bv-3"; "bv-1"; "bv-2"])
  ∧ Forall (λ l, length (elems l) = 3%nat)
      (ranked_lists (@GenerateInsights reference_runtime 0 tie_stats (-1)))
  ∧ Forall (λ l, length (elems l) = 2%nat)
      (ranked_lists (@GenerateInsights reference_runtime 0 tie_stats 2)).
Proof.
  split; [exact tie_stats_same_keys|]. split; [exact tie_stats_numeric|].
  split; [vm_compute; reflexivity|].
  pose proof (@GenerateInsights_limit reference_runtime 0%nat tie_stats (-1)
                tie_stats_same_keys tie_stats_numeric) as [Hall _].
  pose proof (@GenerateInsights_limit reference_runtime 0%nat tie_stats 2
                tie_stats_same_keys tie_stats_numeric) as [_ Htop].
  split; [apply Hall; lia|apply Htop; lia].
Defined.

(** *** C3 *)

Lemma getTopItems_deterministic (R1 R2 : GoRuntime) (t1 t2 : nat)
    (m : gmap string float64) (limit : Z) :
  no_NaN m → @getTopItems R1 t1 m limit = @getTopItems R2 t2 m limit.
Proof.
  intros Hm. rewrite !getTopItems_Slice.
  by rewrite (sorted_entries_unique R1 R2 t1 t2 m Hm).
Qed.

(** C3.  On metric maps of numbers the result of [GenerateInsights] is the
    same under any two runtimes, that is, whatever the order in which the
    maps are visited and whatever the sorting algorithm: the five ranked
    lists, the cycle list, the density and the statistics are identical. *)
Theorem GenerateInsights_deterministic (R1 R2 : GoRuntime) (t1 t2 : nat)
    (s : GraphStats.t) (limit : Z) :
  numeric s →
  @GenerateInsights R1 t1 s limit = @GenerateInsights R2 t2 s limit.
Proof.
  intros Hnum. unfold numeric, ranked_metrics in Hnum.
  rewrite !Forall_cons in Hnum. destruct Hnum as (Hb & Hc & He & Hh & Ha & _).
  unfold GenerateInsights. simpl.
  f_equal; by apply getTopItems_deterministic.
Qed.

Lemma GenerateInsights_deterministic_witness :
  numeric tie_stats
  ∧ @GenerateInsights reference_runtime 0 tie_stats 2
    = @GenerateInsights reversed_runtime 7 tie_stats 2.
Proof.
  split; [exact tie_stats_numeric|].
  exact (GenerateInsights_deterministic reference_runtime reversed_runtime
           0 7 tie_stats 2 tie_stats_numeric).
Defined.

(** *** C9 *)

Lemma getTopItems_empty `{GoRuntime} (t : nat) (limit : Z) :
  getTopItems t ∅ limit = Slice [].
Proof.
  rewrite getTopItems_Slice.
  assert (sorted_entries t ∅ = []) as ->; [|by rewrite take_nil].
  apply Permutation_nil_r. by rewrite sorted_entries_perm, map_to_list_empty.
Qed.

(** The statistics of the empty graph: every metric map is empty. *)
Definition empty_stats (cycles : slice (slice string)) (density : float64)
  : GraphStats.t :=
  {| GraphStats.PageRank := ∅;
     GraphStats.Betweenness := ∅;
     GraphStats.CriticalPathScore := ∅;
     GraphStats.Eigenvector := ∅;
     GraphStats.Hubs := ∅;
     GraphStats.Authorities := ∅;
     GraphStats.Cycles := cycles;
     GraphStats.Density := density |}.

(** C9.  On the empty graph nothing fails: for every limit, [getTopItems]
    of the empty metric map is the empty slice, of length zero and not
    nil, and every ranked list of [GenerateInsights] on empty metric maps
    is that empty slice. *)
Theorem insights_of_empty_graph `{GoRuntime} (t : nat) (limit : Z)
    (cycles : slice (slice string)) (density : float64) :
  getTopItems t ∅ limit = Slice []
  ∧ len (getTopItems t ∅ limit) = 0
  ∧ is_nil (getTopItems t ∅ limit) = false
  ∧ Forall (λ l, l = Slice [])
      (ranked_lists (GenerateInsights t (empty_stats cycles density) limit))
  ∧ Cycles (GenerateInsights t (empty_stats cycles density) limit) = cycles
  ∧ ClusterDensity (GenerateInsights t (empty_stats cycles density) limit) = density.
Proof.
  rewrite getTopItems_empty. split_and!; try done.
  unfold ranked_lists, GenerateInsights. simpl.
  repeat (apply Forall_cons; split; [apply getTopItems_empty|]). constructor.
Qed.

End AnalysisFacts.

(** ** Properties of the dependency graph view *)

Module UIFacts.
Import Go GoFacts UI.

#[local] Set Warnings "-clear-no-such-hyp".

(** *** [computeLayer] returns *)

Section ComputeLayer.
Variable dependsOn : gmap string (list string).
Variable issueMap : gmap string Model.Issue.

(** The identifiers of the node set not yet marked visited. *)
Definition unvisited (st : LayerState) : nat :=
  size (dom issueMap ∖ visited st).

Lemma unvisited_mono (st st' : LayerState) :
  visited st ⊆ visited st' → (unvisited st' ≤ unvisited st)%nat.
Proof. intros Hsub. unfold unvisited. apply subseteq_size. set_solver. Qed.

Lemma unvisited_mark (id : string) (st : LayerState) :
  is_Some (issueMap !! id) → id ∉ visited st →
  (unvisited {| layers := layers st; visited := {[id]} ∪ visited st |}
   < unvisited st)%nat.
Proof.
  intros Hid Hnv. unfold unvisited. apply subset_size. simpl.
  apply elem_of_dom in Hid. set_solver.
Qed.

Lemma computeLayer_S (fuel : nat) (id : string) (st : LayerState) :
  computeLayer dependsOn issueMap (S fuel) id st
  = match layers st !! id with
    | Some layer => Some (layer, st)
    | None =>
        if decide (id ∈ visited st) then Some (0, st)
        else
          match over_parents (computeLayer dependsOn issueMap fuel) issueMap
                  (dependsOn !!! id) (-1)
                  {| layers := layers st; visited := {[id]} ∪ visited st |} with
          | None => None
          | Some (maxParent, st) =>
              Some (maxParent + 1,
                    {| layers := <[id := maxParent + 1]> (layers st);
                       visited := visited st |})
          end
    end.
Proof. done. Qed.

Lemma over_parents_total
    (call : string → LayerState → option (Z * LayerState)) (n : nat) :
  (∀ p st, is_Some (issueMap !! p) → (unvisited st < n)%nat →
     ∃ r st', call p st = Some (r, st') ∧ visited st ⊆ visited st') →
  ∀ parents mp st, (unvisited st < n)%nat →
    ∃ mp' st', over_parents call issueMap parents mp st = Some (mp', st')
               ∧ visited st ⊆ visited st'.
Proof.
  intros Hcall parents. induction parents as [|p parents IH]; intros mp st Hn; simpl.
  { by exists mp, st. }
  destruct (issueMap !! p) as [issue|] eqn:Hp; [|by apply IH].
  destruct (Hcall p st) as (r & st1 & -> & Hsub); [by rewrite Hp|done|].
  destruct (IH (if mp <? r then r else mp) st1) as (mp' & st2 & -> & Hsub').
  { pose proof (unvisited_mono _ _ Hsub). lia. }
  exists mp', st2. split; [done|]. set_solver.
Qed.

Lemma computeLayer_total (fuel : nat) (id : string) (st : LayerState) :
  is_Some (issueMap !! id) → (unvisited st < fuel)%nat →
  ∃ r st', computeLayer dependsOn issueMap fuel id st = Some (r, st')
           ∧ visited st ⊆ visited st'.
Proof.
  revert id st. induction fuel as [|fuel IH]; intros id st Hid Hfuel; [lia|].
  rewrite computeLayer_S. destruct (layers st !! id) as [l|]; [by exists l, st|].
  destruct (decide (id ∈ visited st)) as [|Hnv]; [by exists 0, st|].
  pose proof (unvisited_mark id st Hid Hnv) as Hlt.
  destruct (over_parents_total (computeLayer dependsOn issueMap fuel) fuel IH
              (dependsOn !!! id) (-1)
              {| layers := layers st; visited := {[id]} ∪ visited st |})
    as (mp & st' & -> & Hsub); [lia|].
  eexists _, _. split; [done|]. simpl in *. set_solver.
Qed.

(** A top-level call, with a fresh [visited] map, returns for any
    identifier. *)
Lemma computeLayer_total_top (id : string) (layers0 : gmap string Z) :
  ∃ r st', computeLayer dependsOn issueMap (depth_bound issueMap) id
             {| layers := layers0; visited := ∅ |} = Some (r, st').
Proof.
  unfold depth_bound. rewrite computeLayer_S. simpl layers. simpl visited.
  destruct (layers0 !! id) as [l|]; [by eexists _, _|].
  destruct (decide (id ∈ (∅ : gset string))) as [Hin|_]; [set_solver|].
  destruct (over_parents_total
              (computeLayer dependsOn issueMap (S (size issueMap)))
              (S (size issueMap))
              (λ p st, computeLayer_total (S (size issueMap)) p st)
              (dependsOn !!! id) (-1)
              {| layers := layers0; visited := {[id]} ∪ ∅ |})
    as (mp & st' & -> & _); [|by eexists _, _].
  unfold unvisited. rewrite <-(size_dom issueMap).
  apply Nat.lt_succ_r, subseteq_size. set_solver.
Qed.

Lemma compute_layers_total (ids : list string) (layers0 : gmap string Z) :
  is_Some (compute_layers dependsOn issueMap ids layers0).
Proof.
  revert layers0. induction ids as [|id ids IH]; intros layers0;
    cbn [compute_layers]; [done|].
  destruct (computeLayer_total_top id layers0) as (r & st' & ->). apply IH.
Qed.

(** *** What [computeLayer] computes *)

(** The prerequisites of [id] that count: its structural dependencies
    present in the node set, as often as they are listed. *)
Definition prerequisites (id : string) : list string :=
  filter (λ p, is_Some (issueMap !! p)) (dependsOn !!! id).

Definition depends (n p : string) : Prop := p ∈ prerequisites n.

(** [n] lies on a dependency cycle. *)
Definition on_cycle (n : string) : Prop := tc depends n n.

(** [maxParent] after the values [cs] have been compared with it. *)
Definition max_from (mp : Z) (cs : list Z) : Z := fold_left Z.max cs mp.

(** What a prerequisite [p] of [n] hands to the maximum: its own layer,
    or [0] when the traversal found it still in progress, which happens
    on a cycle through [n] only. *)
Definition contributes (L : gmap string Z) (n p : string) (c : Z) : Prop :=
  L !! p = Some c ∨ (c = 0 ∧ on_cycle n).

(** Every recorded layer is one more than the maximum of what the
    prerequisites contribute ([-1] when there are none). *)
Definition memo_ok (L : gmap string Z) : Prop :=
  ∀ n l, L !! n = Some l →
    ∃ cs, Forall2 (contributes L n) (prerequisites n) cs ∧ l = max_from (-1) cs + 1.

(** An identifier marked visited has its layer recorded or is still in
    progress, that is, on the call stack. *)
Definition stack_ok (st : LayerState) (stack : list string) : Prop :=
  ∀ v, v ∈ visited st → is_Some (layers st !! v) ∨ v ∈ stack.

Definition call_spec (call : string → LayerState → option (Z * LayerState)) : Prop :=
  ∀ id st stack r st',
    memo_ok (layers st) → stack_ok st stack →
    (∀ x, x ∈ stack → tc depends x id) →
    call id st = Some (r, st') →
    memo_ok (layers st') ∧ stack_ok st' stack
    ∧ layers st ⊆ layers st' ∧ visited st ⊆ visited st'
    ∧ (∀ v, v ∈ visited st → layers st' !! v = layers st !! v)
    ∧ dom (layers st') ⊆ dom (layers st) ∪ {[id]} ∪ dom issueMap
    ∧ (layers st' !! id = Some r ∨ (r = 0 ∧ id ∈ stack)).

Lemma contributes_weaken (L L' : gmap string Z) (n p : string) (c : Z) :
  L ⊆ L' → contributes L n p c → contributes L' n p c.
Proof.
  intros Hsub [Hp|?]; [left|by right]. by eapply lookup_weaken.
Qed.

Lemma memo_ok_insert (L : gmap string Z) (n : string) (cs : list Z) :
  memo_ok L → L !! n = None →
  Forall2 (contributes L n) (prerequisites n) cs →
  memo_ok (<[n := max_from (-1) cs + 1]> L).
Proof.
  intros HL Hn Hcs n' l'. pose proof (insert_subseteq L n (max_from (-1) cs + 1) Hn).
  rewrite lookup_insert. case_decide as Hnn.
  - intros [= <-]. subst n'. exists cs. split; [|done].
    eapply Forall2_impl; [done|]. intros p c. by apply contributes_weaken.
  - intros Hl'. destruct (HL n' l' Hl') as (cs' & Hcs' & ->).
    exists cs'. split; [|done].
    eapply Forall2_impl; [done|]. intros p c. by apply contributes_weaken.
Qed.

Lemma over_parents_spec
    (call : string → LayerState → option (Z * LayerState))
    (n : string) (stack : list string) :
  call_spec call → (∀ x, x ∈ stack → tc depends x n) →
  ∀ parents mp st mp' st',
    (∀ p, p ∈ parents → is_Some (issueMap !! p) → depends n p) →
    memo_ok (layers st) → stack_ok st (n :: stack) →
    over_parents call issueMap parents mp st = Some (mp', st') →
    memo_ok (layers st') ∧ stack_ok st' (n :: stack)
    ∧ layers st ⊆ layers st' ∧ visited st ⊆ visited st'
    ∧ (∀ v, v ∈ visited st → layers st' !! v = layers st !! v)
    ∧ dom (layers st') ⊆ dom (layers st) ∪ dom issueMap
    ∧ ∃ cs, Forall2 (contributes (layers st') n)
              (filter (λ p, is_Some (issueMap !! p)) parents) cs
            ∧ mp' = max_from mp cs.
Proof.
  intros Hcall Hchain parents.
  induction parents as [|p parents IH]; intros mp st mp' st' Hdep Hmemo Hstack Hrun;
    simpl in Hrun.
  { simplify_eq. split_and!; try done; [apply union_subseteq_l|]. exists []. by split. }
  assert (∀ q, q ∈ parents → is_Some (issueMap !! q) → depends n q) as Hdep'
    by (intros q Hq; apply Hdep; by right).
  destruct (issueMap !! p) as [issue|] eqn:Hp; cycle 1.
  { rewrite filter_cons_False by (rewrite Hp; by intros [? ?]). by eapply IH. }
  rewrite filter_cons_True by (by rewrite Hp).
  assert (depends n p) as Hnp by (apply Hdep; [by left|by rewrite Hp]).
  destruct (call p st) as [[r st1]|] eqn:Hcallp; [|done].
  destruct (Hcall p st (n :: stack) r st1) as (Hm1 & Hs1 & Hl1 & Hv1 & Hf1 & Hd1 & Hr1);
    [done|done| |done|].
  { intros x [->|Hx]%elem_of_cons; [by apply tc_once|].
    eapply tc_r; [by apply Hchain|done]. }
  destruct (IH _ _ _ _ Hdep' Hm1 Hs1 Hrun) as (Hm2 & Hs2 & Hl2 & Hv2 & Hf2 & Hd2 & cs & Hcs & ->).
  split_and!; try done.
  - by etrans.
  - by etrans.
  - intros v Hv. rewrite Hf2 by (by apply Hv1). by apply Hf1.
  - apply elem_of_dom_2 in Hp. clear -Hd1 Hd2 Hp. set_solver.
  - exists (r :: cs). split.
    + constructor; [|done]. destruct Hr1 as [Hr1|[-> Hin]].
      * left. by eapply lookup_weaken.
      * right. split; [done|]. apply elem_of_cons in Hin as [->|Hin]; [by apply tc_once|].
        eapply tc_l; [done|]. by apply Hchain.
    + unfold max_from. simpl. f_equal. destruct (Z.ltb_spec mp r); lia.
Qed.

Lemma computeLayer_spec (fuel : nat) :
  call_spec (computeLayer dependsOn issueMap fuel).
Proof.
  induction fuel as [|fuel IH]; intros id st stack r st' Hmemo Hstack Hchain Hrun;
    [done|].
  rewrite computeLayer_S in Hrun.
  destruct (layers st !! id) as [l|] eqn:Hl.
  { simplify_eq. split_and!; try done; [clear; set_solver|by left]. }
  destruct (decide (id ∈ visited st)) as [Hv|Hnv].
  { simplify_eq. split_and!; try done; [clear; set_solver|].
    right. split; [done|]. destruct (Hstack id Hv) as [[? ?]|?]; [congruence|done]. }
  destruct (over_parents _ _ _ _ _) as [[mp st1]|] eqn:Hloop; [|done].
  simplify_eq.
  apply (over_parents_spec _ id stack IH Hchain) in Hloop
    as (Hm1 & Hs1 & Hl1 & Hv1 & Hf1 & Hd1 & cs & Hcs & ->); simpl in *.
  - assert (layers st1 !! id = None) as Hnone
      by (rewrite Hf1; [done|apply elem_of_union_l; by apply elem_of_singleton]).
    pose proof (insert_subseteq (layers st1) id (max_from (-1) cs + 1) Hnone) as Hins.
    split_and!.
    + by apply memo_ok_insert.
    + intros v Hv. simpl in *. destruct (Hs1 v Hv) as [[c Hc]|[->|?]%elem_of_cons].
      * left. exists c. by eapply lookup_weaken.
      * left. rewrite lookup_insert_eq. by eexists.
      * by right.
    + by etrans.
    + clear -Hv1. set_solver.
    + intros v Hv. rewrite lookup_insert_ne by (intros E; apply Hnv; by rewrite E).
      apply Hf1. by apply elem_of_union_r.
    + rewrite dom_insert. clear -Hd1. set_solver.
    + left. apply lookup_insert_eq.
  - intros p Hin Hp. unfold depends, prerequisites. by apply list_elem_of_filter.
  - done.
  - intros v [->%elem_of_singleton|Hv]%elem_of_union; [right; by left|].
    destruct (Hstack v Hv) as [?|?]; [by left|right; by right].
Qed.

Lemma memo_ok_empty : memo_ok ∅.
Proof. intros n l Hl. by rewrite lookup_empty in Hl. Qed.

Lemma compute_layers_spec (ids : list string) (layers0 L : gmap string Z) :
  memo_ok layers0 →
  compute_layers dependsOn issueMap ids layers0 = Some L →
  memo_ok L ∧ layers0 ⊆ L
  ∧ (∀ id, id ∈ ids → is_Some (L !! id))
  ∧ dom L ⊆ dom layers0 ∪ list_to_set ids ∪ dom issueMap.
Proof.
  revert layers0. induction ids as [|id ids IH]; intros layers0 Hmemo Hrun;
    cbn [compute_layers] in Hrun.
  { simplify_eq. split_and!; try done; [by intros ? ?%elem_of_nil|clear; set_solver]. }
  destruct (computeLayer _ _ _ _ _) as [[r st]|] eqn:Hcall; [|done].
  apply (computeLayer_spec _ _ _ []) in Hcall
    as (Hm1 & _ & Hl1 & _ & _ & Hd1 & Hr1); simpl in *;
    [|done|by intros ? ?%elem_of_empty|by intros ? ?%elem_of_nil].
  destruct (IH _ Hm1 Hrun) as (Hm2 & Hl2 & Hids & Hd2).
  split_and!; [done|by etrans| |clear -Hd1 Hd2; set_solver].
  intros x [->|Hx]%elem_of_cons; [|by apply Hids].
  destruct Hr1 as [Hr1|[_ []%elem_of_nil]]. exists r. by eapply lookup_weaken.
Qed.

End ComputeLayer.

(** *** The layers of a graph *)

Lemma Forall2_elem_l {A B} (P : A → B → Prop) (l : list A) (k : list B) (x : A) :
  Forall2 P l k → x ∈ l → ∃ y, y ∈ k ∧ P x y.
Proof.
  induction 1 as [|a b l k Hab _ IH]; intros Hx; [by apply elem_of_nil in Hx|].
  apply elem_of_cons in Hx as [->|Hx].
  - exists b. split; [by left|done].
  - destruct (IH Hx) as (y & ? & ?). exists y. split; [by right|done].
Qed.

Lemma Forall2_elem_r {A B} (P : A → B → Prop) (l : list A) (k : list B) (y : B) :
  Forall2 P l k → y ∈ k → ∃ x, x ∈ l ∧ P x y.
Proof.
  induction 1 as [|a b l k Hab _ IH]; intros Hy; [by apply elem_of_nil in Hy|].
  apply elem_of_cons in Hy as [->|Hy].
  - exists a. split; [by left|done].
  - destruct (IH Hy) as (x & ? & ?). exists x. split; [by right|done].
Qed.

Lemma max_from_ge_base (mp : Z) (cs : list Z) : mp ≤ max_from mp cs.
Proof.
  revert mp. induction cs as [|c cs IH]; intros mp; simpl; [done|].
  etrans; [|apply IH]. lia.
Qed.

Lemma max_from_ge (mp : Z) (cs : list Z) (c : Z) : c ∈ cs → c ≤ max_from mp cs.
Proof.
  revert mp. induction cs as [|c' cs IH]; intros mp Hc; [by apply elem_of_nil in Hc|].
  simpl. apply elem_of_cons in Hc as [->|Hc]; [|by apply IH].
  etrans; [|apply max_from_ge_base]. lia.
Qed.

Lemma max_from_in (mp : Z) (cs : list Z) :
  max_from mp cs = mp ∨ max_from mp cs ∈ cs.
Proof.
  revert mp. induction cs as [|c cs IH]; intros mp; simpl; [by left|].
  destruct (IH (Z.max mp c)) as [E|Hin].
  - unfold max_from in *. rewrite E. destruct (Z.max_spec mp c) as [[_ ->]|[_ ->]].
    + right. by left.
    + by left.
  - right. by right.
Qed.

(** The adjacency list and the identifier set built from the issues of
    the model. *)
Definition adjacency (g : GraphModel.t) : gmap string (list string) :=
  (build_adjacency (GraphModel.issues g)).1.

Definition prerequisites_in (g : GraphModel.t) (n : string) : list string :=
  prerequisites (adjacency g) (GraphModel.issueMap g) n.

Definition cyclic (g : GraphModel.t) (n : string) : Prop :=
  on_cycle (adjacency g) (GraphModel.issueMap g) n.

Lemma build_adjacency_ids (issues : list Model.Issue) :
  dom (build_adjacency issues).2 = list_to_set (Model.ID <$> issues).
Proof.
  unfold build_adjacency.
  assert (∀ acc : gmap string (list string) * gmap string bool,
    dom (fold_left (λ '(dependsOn, allIDs) issue,
       (add_dependencies (Model.ID issue) (Model.Dependencies issue) dependsOn,
        <[Model.ID issue := true]> allIDs)) issues acc).2
    = dom acc.2 ∪ list_to_set (Model.ID <$> issues)) as Hgen.
  { induction issues as [|i issues IH]; intros [d a]; simpl.
    - set_solver.
    - rewrite IH. simpl. rewrite dom_insert_L. set_solver. }
  rewrite Hgen. simpl. rewrite dom_empty_L. set_solver.
Qed.

Lemma range_keys `{GoRuntime} {V} (t : nat) (m : gmap string V) (k : string) :
  k ∈ (map_range t m).*1 ↔ k ∈ dom m.
Proof.
  rewrite map_range_perm, elem_of_dom. split.
  - intros ([k' v] & -> & Hin)%list_elem_of_fmap. apply elem_of_map_to_list in Hin.
    by exists v.
  - intros [v Hv]. apply list_elem_of_fmap. exists (k, v). split; [done|].
    by apply elem_of_map_to_list.
Qed.

Lemma layer_map_spec `{GoRuntime} (t : nat) (g : GraphModel.t) :
  ∃ L, layer_map t g = Some L
       ∧ memo_ok (adjacency g) (GraphModel.issueMap g) L
       ∧ (∀ issue, issue ∈ GraphModel.issues g → is_Some (L !! Model.ID issue))
       ∧ dom L ⊆ list_to_set (Model.ID <$> GraphModel.issues g)
                 ∪ dom (GraphModel.issueMap g).
Proof.
  unfold layer_map, adjacency.
  pose proof (build_adjacency_ids (GraphModel.issues g)) as Hids.
  destruct (build_adjacency (GraphModel.issues g)) as [dependsOn allIDs]; simpl in *.
  destruct (compute_layers_total dependsOn (GraphModel.issueMap g)
              (map_range t allIDs).*1 ∅) as [L HL].
  exists L. split; [done|].
  destruct (compute_layers_spec _ _ _ _ _ (memo_ok_empty _ _) HL)
    as (Hmemo & _ & Hall & Hdom).
  split_and!; [done| |].
  - intros issue Hin. apply Hall, range_keys. rewrite Hids.
    apply elem_of_list_to_set, list_elem_of_fmap. eauto.
  - intros k Hk. apply Hdom in Hk. rewrite dom_empty_L in Hk.
    apply elem_of_union in Hk as [Hk|Hk]; [|by apply elem_of_union_r].
    apply elem_of_union in Hk as [Hk|Hk]; [by apply elem_of_empty in Hk|].
    apply elem_of_union_l. rewrite <-Hids. apply elem_of_list_to_set in Hk.
    by apply range_keys in Hk.
Qed.

(** A recorded layer is never negative. *)
Lemma memo_ok_nonneg dependsOn issueMap (L : gmap string Z) (n : string) (l : Z) :
  memo_ok dependsOn issueMap L → L !! n = Some l → 0 ≤ l.
Proof.
  intros HL Hn. destruct (HL n l Hn) as (cs & _ & ->).
  pose proof (max_from_ge_base (-1) cs). lia.
Qed.

(** The recurrence at a node that is on no cycle. *)
Lemma memo_ok_recurrence dependsOn issueMap (L : gmap string Z) (n : string) (l : Z) :
  memo_ok dependsOn issueMap L → L !! n = Some l →
  (prerequisites dependsOn issueMap n = [] → l = 0)
  ∧ (¬ on_cycle dependsOn issueMap n →
       (∀ p, p ∈ prerequisites dependsOn issueMap n →
          ∃ c, L !! p = Some c ∧ c + 1 ≤ l)
       ∧ (prerequisites dependsOn issueMap n ≠ [] →
          ∃ p, p ∈ prerequisites dependsOn issueMap n ∧ L !! p = Some (l - 1))).
Proof.
  intros HL Hn. destruct (HL n l Hn) as (cs & Hcs & ->). split.
  { intros E. rewrite E in Hcs. by apply Forall2_nil_inv_l in Hcs as ->. }
  intros Hnc.
  assert (Forall2 (λ p c, L !! p = Some c) (prerequisites dependsOn issueMap n) cs) as Hcs'.
  { eapply Forall2_impl; [done|]. by intros p c [?|[_ ?]]. }
  split.
  - intros p Hp. destruct (Forall2_elem_l _ _ _ _ Hcs' Hp) as (c & Hc & Hpc).
    exists c. split; [done|]. pose proof (max_from_ge (-1) cs c Hc). lia.
  - intros Hne. destruct (max_from_in (-1) cs) as [E|Hin].
    + destruct cs as [|c cs]; [by apply Forall2_nil_inv_r in Hcs'|].
      destruct (Forall2_elem_r _ _ _ c Hcs') as (p & _ & Hp); [by left|].
      pose proof (memo_ok_nonneg _ _ _ _ _ HL Hp) as Hc0.
      pose proof (max_from_ge (-1) (c :: cs) c) as Hmax. rewrite E in Hmax.
      assert (c ≤ -1) by (apply Hmax; by left). lia.
    + destruct (Forall2_elem_r _ _ _ _ Hcs' Hin) as (p & Hp & Hpc).
      exists p. split; [done|]. rewrite Hpc. f_equal. lia.
Qed.

(** The general form, cycles included: a prerequisite contributes its own
    layer or, on a cycle, [0]. *)
Lemma memo_ok_bounds dependsOn issueMap (L : gmap string Z) (n : string) (l : Z) :
  memo_ok dependsOn issueMap L → L !! n = Some l →
  0 ≤ l
  ∧ (prerequisites dependsOn issueMap n ≠ [] → 1 ≤ l)
  ∧ (∀ p, p ∈ prerequisites dependsOn issueMap n →
       on_cycle dependsOn issueMap n ∨ ∃ c, L !! p = Some c ∧ c + 1 ≤ l).
Proof.
  intros HL Hn. split; [by eapply memo_ok_nonneg|].
  destruct (HL n l Hn) as (cs & Hcs & ->). split.
  - intros Hne. destruct cs as [|c cs]; [by apply Forall2_nil_inv_r in Hcs|].
    pose proof (max_from_ge (-1) (c :: cs) c) as Hmax.
    assert (0 ≤ c); [|assert (c ≤ max_from (-1) (c :: cs)) by (apply Hmax; by left); lia].
    destruct (Forall2_elem_r _ _ _ c Hcs) as (p & _ & [Hp|[-> _]]); [by left| |done].
    by eapply memo_ok_nonneg.
  - intros p Hp. destruct (Forall2_elem_l _ _ _ _ Hcs Hp) as (c & Hc & [Hpc|[_ ?]]);
      [right|by left].
    exists c. split; [done|]. pose proof (max_from_ge (-1) cs c Hc). lia.
Qed.

(** *** Example graphs *)

Definition blocks (id : string) : Model.Dependency :=
  {| Model.DependsOnID := id; Model.Type_ := Model.DepBlocks |}.

Definition dependency (kind id : string) : Model.Dependency :=
  {| Model.DependsOnID := id; Model.Type_ := kind |}.

Definition task (id : string) (deps : list Model.Dependency) : Model.Issue :=
  {| Model.ID := id; Model.Title := id; Model.Status := "open";
     Model.IssueType := "task"; Model.Dependencies := deps |}.

(** The chain A→B→C→D: D depends on C, C on B, B on A. *)
Definition chain : GraphModel.t :=
  initial_model
    [task "A" []; task "B" [blocks "A"]; task "C" [blocks "B"]; task "D" [blocks "C"]]
    None.

(** An issue that lists the same structural dependency twice. *)
Definition duplicated : list Model.Issue :=
  [task "A" [blocks "B"; blocks "B"]; task "B" []].

(** A stand-in for [truncateRunesHelper] that leaves titles as they are. *)
Definition identity_title (s : string) (_ : Z) (_ : string) : string := s.

(** Two issues that depend on each other. *)
Definition two_cycle : GraphModel.t :=
  initial_model [task "A" [blocks "B"]; task "B" [blocks "A"]] None.

Lemma tc_first {A} (R : relation A) (x z : A) :
  tc R x z → ∃ y, R x y ∧ (y = z ∨ tc R y z).
Proof. destruct 1; eauto. Qed.

Lemma chain_reach_A (z : string) :
  ¬ tc (depends (adjacency chain) (GraphModel.issueMap chain)) "A" z.
Proof. intros (y & Hy & _)%tc_first. vm_compute in Hy. by apply elem_of_nil in Hy. Qed.

Lemma chain_reach_B (z : string) :
  tc (depends (adjacency chain) (GraphModel.issueMap chain)) "B" z → z = "A".
Proof.
  intros (y & Hy & Hz)%tc_first.
  assert (y ∈ ["A"]) as ->%list_elem_of_singleton by exact Hy.
  destruct Hz as [<-|Hz]; [done|]. by apply chain_reach_A in Hz.
Qed.

Lemma chain_reach_C (z : string) :
  tc (depends (adjacency chain) (GraphModel.issueMap chain)) "C" z →
  z = "A" ∨ z = "B".
Proof.
  intros (y & Hy & Hz)%tc_first.
  assert (y ∈ ["B"]) as ->%list_elem_of_singleton by exact Hy.
  destruct Hz as [<-|Hz]; [by right|]. left. by apply chain_reach_B.
Qed.

Lemma chain_reach_D (z : string) :
  tc (depends (adjacency chain) (GraphModel.issueMap chain)) "D" z →
  z = "A" ∨ z = "B" ∨ z = "C".
Proof.
  intros (y & Hy & Hz)%tc_first.
  assert (y ∈ ["C"]) as ->%list_elem_of_singleton by exact Hy.
  destruct Hz as [<-|Hz]; [by right; right|].
  apply chain_reach_C in Hz. tauto.
Qed.

Lemma chain_layers `{GoRuntime} (t : nat) :
  ∃ L, layer_map t chain = Some L
       ∧ L !! "A" = Some 0 ∧ L !! "B" = Some 1
       ∧ L !! "C" = Some 2 ∧ L !! "D" = Some 3.
Proof.
  destruct (layer_map_spec t chain) as (L & HL & Hmemo & Hall & _).
  exists L. split; [done|].
  assert (∀ n deps, task n deps ∈ GraphModel.issues chain → ∃ l, L !! n = Some l) as Hl
    by (intros n deps Hin; apply (Hall _ Hin)).
  destruct (Hl "A" []) as [a Ha]; [repeat constructor|].
  destruct (Hl "B" [blocks "A"]) as [b Hb]; [repeat constructor|].
  destruct (Hl "C" [blocks "B"]) as [c Hc]; [repeat constructor|].
  destruct (Hl "D" [blocks "C"]) as [d Hd]; [repeat constructor|].
  destruct (memo_ok_recurrence _ _ _ _ _ Hmemo Ha) as [HA _].
  destruct (memo_ok_recurrence _ _ _ _ _ Hmemo Hb) as [_ HB].
  destruct (memo_ok_recurrence _ _ _ _ _ Hmemo Hc) as [_ HC].
  destruct (memo_ok_recurrence _ _ _ _ _ Hmemo Hd) as [_ HD].
  assert (a = 0) as -> by by apply HA.
  destruct HB as [_ (p & Hp & Hpl)]; [by intros ?%chain_reach_B|done|].
  assert (p ∈ ["A"]) as ->%list_elem_of_singleton by exact Hp.
  assert (b = 1) as -> by (rewrite Ha in Hpl; simplify_eq; lia).
  destruct HC as [_ (p & Hp' & Hpl')]; [by intros [?|?]%chain_reach_C|done|].
  assert (p ∈ ["B"]) as ->%list_elem_of_singleton by exact Hp'.
  assert (c = 2) as -> by (rewrite Hb in Hpl'; simplify_eq; lia).
  destruct HD as [_ (p & Hp'' & Hpl'')]; [by intros [?|[?|?]]%chain_reach_D|done|].
  assert (p ∈ ["C"]) as ->%list_elem_of_singleton by exact Hp''.
  assert (d = 3) as -> by (rewrite Hc in Hpl''; simplify_eq; lia).
  done.
Qed.

(** *** What the graph depends on *)

(** Two node sets that show the same: the same identifiers, with the same
    title, status and type. *)
Definition same_view (M M' : gmap string Model.Issue) : Prop :=
  ∀ id, option_Forall2 (λ a b, Model.Title a = Model.Title b
                               ∧ Model.Status a = Model.Status b
                               ∧ Model.IssueType a = Model.IssueType b)
          (M !! id) (M' !! id).

Lemma same_view_refl (M : gmap string Model.Issue) : same_view M M.
Proof. intros id. destruct (M !! id); by constructor. Qed.

Lemma same_view_is_Some (M M' : gmap string Model.Issue) (id : string) :
  same_view M M' → is_Some (M !! id) ↔ is_Some (M' !! id).
Proof.
  intros Hv. specialize (Hv id).
  destruct Hv; split; intros [? ?]; by eauto.
Qed.

Lemma same_view_dom (M M' : gmap string Model.Issue) :
  same_view M M' → dom M = dom M'.
Proof.
  intros Hv. apply set_eq. intros id. rewrite !elem_of_dom.
  by apply same_view_is_Some.
Qed.

Lemma same_view_depth (M M' : gmap string Model.Issue) :
  same_view M M' → depth_bound M = depth_bound M'.
Proof.
  intros Hv. unfold depth_bound. by rewrite <-!size_dom, (same_view_dom M M').
Qed.

Definition present (M : gmap string Model.Issue) (p : string) : Prop :=
  is_Some (M !! p).

Lemma over_parents_filter
    (call : string → LayerState → option (Z * LayerState))
    (M : gmap string Model.Issue) (parents : list string) (mp : Z) (st : LayerState) :
  over_parents call M parents mp st
  = over_parents call M (filter (present M) parents) mp st.
Proof.
  revert mp st. induction parents as [|p parents IH]; intros mp st; [done|].
  unfold present in *. destruct (M !! p) as [issue|] eqn:Hp.
  - rewrite filter_cons_True by (by rewrite Hp). simpl. rewrite Hp.
    destruct (call p st) as [[pl st1]|]; [apply IH|done].
  - rewrite filter_cons_False by (rewrite Hp; by intros [? ?]). simpl.
    rewrite Hp. apply IH.
Qed.

Lemma over_parents_ext
    (call call' : string → LayerState → option (Z * LayerState))
    (M M' : gmap string Model.Issue) (parents : list string) (mp : Z) (st : LayerState) :
  (∀ p st, call p st = call' p st) → same_view M M' →
  over_parents call M parents mp st = over_parents call' M' parents mp st.
Proof.
  intros Hcall Hv. revert mp st.
  induction parents as [|p parents IH]; intros mp st; simpl; [done|].
  pose proof (Hv p) as Hp. destruct Hp as [a b _|].
  - rewrite Hcall. destruct (call' p st) as [[pl st1]|]; [apply IH|done].
  - apply IH.
Qed.

(** [computeLayer] sees of the adjacency list only the prerequisites
    present in the node set, and of the node set only the identifiers. *)
Lemma computeLayer_congr (d d' : gmap string (list string))
    (M M' : gmap string Model.Issue) (fuel : nat) (id : string) (st : LayerState) :
  same_view M M' →
  (∀ n, filter (present M) (d !!! n) = filter (present M) (d' !!! n)) →
  computeLayer d M fuel id st = computeLayer d' M' fuel id st.
Proof.
  intros Hv Hd. revert id st. induction fuel as [|fuel IH]; intros id st; [done|].
  rewrite !computeLayer_S. destruct (layers st !! id); [done|].
  destruct (decide (id ∈ visited st)); [done|].
  rewrite (over_parents_filter _ M), Hd, <-(over_parents_filter _ M).
  by rewrite (over_parents_ext _ (computeLayer d' M' fuel) M M').
Qed.

Lemma compute_layers_congr (d d' : gmap string (list string))
    (M M' : gmap string Model.Issue) (ids : list string) (L : gmap string Z) :
  same_view M M' →
  (∀ n, filter (present M) (d !!! n) = filter (present M) (d' !!! n)) →
  compute_layers d M ids L = compute_layers d' M' ids L.
Proof.
  intros Hv Hd. revert L. induction ids as [|id ids IH]; intros L;
    cbn [compute_layers]; [done|].
  rewrite <-(same_view_depth M M' Hv), (computeLayer_congr d d' M M') by done.
  destruct (computeLayer d' M' _ _ _) as [[r st]|]; [apply IH|done].
Qed.

(** The targets of the structural dependencies of one issue. *)
Definition structural_targets (deps : list Model.Dependency) : list string :=
  Model.DependsOnID <$> filter (λ dep, structural dep = true) deps.

(** The structural dependencies listed for [n], over all issues with that
    identifier, in order. *)
Definition listed_for (n : string) (issues : list Model.Issue) : list string :=
  flat_map (λ issue, if decide (Model.ID issue = n)
                     then structural_targets (Model.Dependencies issue) else [])
    issues.

Lemma add_dependencies_lookup (id : string) (deps : list Model.Dependency)
    (d : gmap string (list string)) (n : string) :
  add_dependencies id deps d !!! n
  = d !!! n ++ (if decide (id = n) then structural_targets deps else []).
Proof.
  unfold add_dependencies, structural_targets. revert d.
  induction deps as [|dep deps IH]; intros d; simpl.
  { destruct (decide (id = n)); by rewrite app_nil_r. }
  rewrite IH. destruct (structural dep) eqn:Hs.
  - rewrite filter_cons_True by done. destruct (decide (id = n)) as [->|Hne].
    + rewrite lookup_total_insert_eq, <-app_assoc. done.
    + by rewrite lookup_total_insert_ne.
  - rewrite filter_cons_False by (by rewrite Hs). done.
Qed.

Lemma build_adjacency_lookup (issues : list Model.Issue) (n : string) :
  (build_adjacency issues).1 !!! n = listed_for n issues.
Proof.
  unfold build_adjacency, listed_for.
  assert (∀ acc : gmap string (list string) * gmap string bool,
    (fold_left (λ '(dependsOn, allIDs) issue,
       (add_dependencies (Model.ID issue) (Model.Dependencies issue) dependsOn,
        <[Model.ID issue := true]> allIDs)) issues acc).1 !!! n
    = acc.1 !!! n
      ++ flat_map (λ issue, if decide (Model.ID issue = n)
                            then structural_targets (Model.Dependencies issue)
                            else []) issues) as Hgen.
  { induction issues as [|i issues IH]; intros [d a]; simpl.
    - by rewrite app_nil_r.
    - rewrite IH. simpl. by rewrite add_dependencies_lookup, <-app_assoc. }
  rewrite Hgen. simpl. by rewrite lookup_total_empty.
Qed.

Lemma adjacency_lookup (g : GraphModel.t) (n : string) :
  adjacency g !!! n = listed_for n (GraphModel.issues g).
Proof. apply build_adjacency_lookup. Qed.

(** An issue with some of its dependencies removed. *)
Definition erase (keep : Model.Dependency → bool) (issue : Model.Issue) : Model.Issue :=
  {| Model.ID := Model.ID issue;
     Model.Title := Model.Title issue;
     Model.Status := Model.Status issue;
     Model.IssueType := Model.IssueType issue;
     Model.Dependencies := filter (λ dep, keep dep = true) (Model.Dependencies issue) |}.

(** The dependencies that may go without a trace: those that are not
    structural, and those whose target is not in the node set. *)
Definition removable (M : gmap string Model.Issue) (keep : Model.Dependency → bool) : Prop :=
  ∀ dep, keep dep = false →
    structural dep = false ∨ M !! Model.DependsOnID dep = None.

Lemma structural_targets_erase (M : gmap string Model.Issue)
    (keep : Model.Dependency → bool) (deps : list Model.Dependency) :
  removable M keep →
  filter (present M) (structural_targets (filter (λ dep, keep dep = true) deps))
  = filter (present M) (structural_targets deps).
Proof.
  intros Hkeep. unfold structural_targets.
  induction deps as [|dep deps IH]; [done|].
  destruct (keep dep) eqn:Hk.
  - rewrite (filter_cons_True (λ dep, keep dep = true)) by done.
    destruct (structural dep) eqn:Hs.
    + rewrite !(filter_cons_True (λ dep, structural dep = true)) by done.
      rewrite !fmap_cons. unfold present in *.
      destruct (M !! Model.DependsOnID dep) eqn:Hp.
      * rewrite !(filter_cons_True (λ p, is_Some (M !! p))) by (by rewrite Hp).
        by rewrite IH.
      * rewrite !(filter_cons_False (λ p, is_Some (M !! p)))
          by (rewrite Hp; by intros [? ?]). done.
    + rewrite !(filter_cons_False (λ dep, structural dep = true)) by (by rewrite Hs).
      done.
  - rewrite (filter_cons_False (λ dep, keep dep = true)) by (by rewrite Hk).
    rewrite IH. destruct (Hkeep dep Hk) as [Hs|Hp].
    + by rewrite (filter_cons_False (λ dep, structural dep = true)) by (by rewrite Hs).
    + destruct (structural dep) eqn:Hs.
      * rewrite (filter_cons_True (λ dep, structural dep = true)) by done.
        rewrite fmap_cons. unfold present.
        by rewrite (filter_cons_False (λ p, is_Some (M !! p)))
          by (rewrite Hp; by intros [? ?]).
      * by rewrite (filter_cons_False (λ dep, structural dep = true)) by (by rewrite Hs).
Qed.

Lemma listed_for_erase (M : gmap string Model.Issue)
    (keep : Model.Dependency → bool) (issues : list Model.Issue) (n : string) :
  removable M keep →
  filter (present M) (listed_for n (erase keep <$> issues))
  = filter (present M) (listed_for n issues).
Proof.
  intros Hkeep. unfold listed_for.
  induction issues as [|i issues IH]; [done|].
  rewrite fmap_cons. simpl. rewrite !filter_app, IH. f_equal.
  destruct (decide (Model.ID i = n)); [|done].
  by apply structural_targets_erase.
Qed.

Lemma build_adjacency_erase_ids (keep : Model.Dependency → bool)
    (issues : list Model.Issue) :
  (build_adjacency (erase keep <$> issues)).2 = (build_adjacency issues).2.
Proof.
  unfold build_adjacency.
  assert (∀ acc acc' : gmap string (list string) * gmap string bool,
    acc.2 = acc'.2 →
    (fold_left (λ '(dependsOn, allIDs) issue,
       (add_dependencies (Model.ID issue) (Model.Dependencies issue) dependsOn,
        <[Model.ID issue := true]> allIDs)) (erase keep <$> issues) acc).2
    = (fold_left (λ '(dependsOn, allIDs) issue,
       (add_dependencies (Model.ID issue) (Model.Dependencies issue) dependsOn,
        <[Model.ID issue := true]> allIDs)) issues acc').2) as Hgen.
  { induction issues as [|i issues IH]; intros [d a] [d' a'] E; simpl in *; [done|].
    apply IH. simpl. by rewrite E. }
  by apply Hgen.
Qed.

(** What [buildGraph] produces. *)
Definition graph_of (g : GraphModel.t)
  : list graphNode.t * list graphEdge.t * list (list Z) * Z :=
  (GraphModel.nodes g, GraphModel.edges g, GraphModel.layers g,
   GraphModel.selectedNode g).

(** The placement refers to the node set only: every identifier with an
    index, and every node, is in the node set, and every index is the
    position of a node. *)
Definition placed_ok (M : gmap string Model.Issue) (p : Placement) : Prop :=
  (∀ id i, p_index p !! id = Some i →
     is_Some (M !! id) ∧ 0 ≤ i < Z.of_nat (length (p_nodes p))
     ∧ ∃ node, p_nodes p !! Z.to_nat i = Some node ∧ graphNode.id node = id)
  ∧ (∀ node, node ∈ p_nodes p → is_Some (M !! graphNode.id node)).

Section Placement.
Context `{GoRuntime}.
Variable truncateRunesHelper : string → Z → string → string.

Lemma place_node_congr (M M' : gmap string Model.Issue) (layer : Z)
    (p : Placement) (i : nat) (id : string) :
  same_view M M' →
  place_node truncateRunesHelper M layer p i id
  = place_node truncateRunesHelper M' layer p i id.
Proof.
  intros Hv. unfold place_node. destruct (Hv id) as [a b (-> & -> & ->)|]; done.
Qed.

Lemma place_ids_congr (M M' : gmap string Model.Issue) (layer : Z)
    (ids : list string) (i : nat) (p : Placement) :
  same_view M M' →
  place_ids truncateRunesHelper M layer ids i p
  = place_ids truncateRunesHelper M' layer ids i p.
Proof.
  intros Hv. revert i p. induction ids as [|id ids IH]; intros i p; simpl; [done|].
  by rewrite IH, (place_node_congr M M').
Qed.

Lemma place_all_congr (M M' : gmap string Model.Issue) (t : nat) (L : gmap string Z) :
  same_view M M' →
  place_all truncateRunesHelper t M L = place_all truncateRunesHelper t M' L.
Proof.
  intros Hv. unfold place_all.
  destruct (group_by_layer (map_range t L)) as [layerGroups maxLayer].
  generalize (seqZ 0 (maxLayer + 1)).
  generalize {| p_nodes := []; p_layers := replicate (Z.to_nat (maxLayer + 1)) [];
                p_index := ∅ |}.
  intros p ls. revert p. induction ls as [|l ls IH]; intros p; simpl; [done|].
  rewrite IH. f_equal. unfold place_layer. by apply place_ids_congr.
Qed.

Lemma place_node_ok (M : gmap string Model.Issue) (layer : Z)
    (p : Placement) (i : nat) (id : string) :
  placed_ok M p → placed_ok M (place_node truncateRunesHelper M layer p i id).
Proof.
  intros [Hidx Hnodes]. unfold place_node.
  destruct (M !! id) as [issue|] eqn:Hid; [|done]. split; simpl.
  - intros id' j. rewrite lookup_insert, length_app. simpl. case_decide as E.
    + intros [= <-]. subst id'. split; [by rewrite Hid|]. split; [lia|].
      rewrite Nat2Z.id, lookup_app_r, Nat.sub_diag by done. by eexists.
    + intros Hj. destruct (Hidx id' j Hj) as (? & ? & node & Hnode & ?).
      split; [done|]. split; [lia|]. exists node. split; [|done].
      by apply lookup_app_l_Some.
  - intros node [Hin|Hin]%elem_of_app; [by apply Hnodes|].
    apply list_elem_of_singleton in Hin as ->. simpl. by rewrite Hid.
Qed.

Lemma place_ids_ok (M : gmap string Model.Issue) (layer : Z)
    (ids : list string) (i : nat) (p : Placement) :
  placed_ok M p → placed_ok M (place_ids truncateRunesHelper M layer ids i p).
Proof.
  revert i p. induction ids as [|id ids IH]; intros i p Hp; simpl; [done|].
  by apply IH, place_node_ok.
Qed.

Lemma place_all_ok (M : gmap string Model.Issue) (t : nat) (L : gmap string Z) :
  placed_ok M (place_all truncateRunesHelper t M L).
Proof.
  unfold place_all.
  destruct (group_by_layer (map_range t L)) as [layerGroups maxLayer].
  generalize (seqZ 0 (maxLayer + 1)).
  assert (placed_ok M {| p_nodes := [];
                         p_layers := replicate (Z.to_nat (maxLayer + 1)) [];
                         p_index := ∅ |}) as Hp.
  { split; simpl; [intros ??; by rewrite lookup_empty|by intros ? ?%elem_of_nil]. }
  revert Hp.
  generalize {| p_nodes := []; p_layers := replicate (Z.to_nat (maxLayer + 1)) [];
                p_index := ∅ |}.
  intros p Hp ls. revert p Hp. induction ls as [|l ls IH]; intros p Hp; simpl; [done|].
  apply IH. unfold place_layer. apply place_ids_ok.
  destruct Hp as [Hidx Hnodes]. by split.
Qed.

End Placement.

Lemma edges_of_issue_erase (M : gmap string Model.Issue)
    (keep : Model.Dependency → bool) (idx : gmap string Z)
    (issue : Model.Issue) (edges : list graphEdge.t) :
  removable M keep → (∀ id, is_Some (idx !! id) → is_Some (M !! id)) →
  edges_of_issue idx (erase keep issue) edges = edges_of_issue idx issue edges.
Proof.
  intros Hkeep Hidx. unfold edges_of_issue. simpl.
  destruct (idx !! Model.ID issue) as [dependentIdx|]; [|done].
  revert edges. induction (Model.Dependencies issue) as [|dep deps IH]; intros edges;
    [done|].
  destruct (keep dep) eqn:Hk.
  - rewrite filter_cons_True by done. simpl. apply IH.
  - rewrite filter_cons_False by (by rewrite Hk). simpl. rewrite IH.
    destruct (Hkeep dep Hk) as [->|Hp]; [done|].
    destruct (negb (structural dep)); [done|].
    destruct (idx !! Model.DependsOnID dep) as [j|] eqn:Hj; [|done].
    destruct (Hidx (Model.DependsOnID dep)) as [? ?]; [by rewrite Hj|congruence].
Qed.

Lemma build_edges_erase (M : gmap string Model.Issue)
    (keep : Model.Dependency → bool) (idx : gmap string Z)
    (issues : list Model.Issue) :
  removable M keep → (∀ id, is_Some (idx !! id) → is_Some (M !! id)) →
  build_edges idx (erase keep <$> issues) = build_edges idx issues.
Proof.
  intros Hkeep Hidx. unfold build_edges. generalize (@nil graphEdge.t).
  induction issues as [|i issues IH]; intros edges; simpl; [done|].
  by rewrite IH, (edges_of_issue_erase M).
Qed.

(** The same model with other issues and another node set. *)
Definition with_issues (g : GraphModel.t) (issues : list Model.Issue)
    (issueMap : gmap string Model.Issue) : GraphModel.t :=
  {| GraphModel.issues := issues;
     GraphModel.issueMap := issueMap;
     GraphModel.insights := GraphModel.insights g;
     GraphModel.selectedNode := GraphModel.selectedNode g;
     GraphModel.scrollX := GraphModel.scrollX g;
     GraphModel.scrollY := GraphModel.scrollY g;
     GraphModel.width := GraphModel.width g;
     GraphModel.height := GraphModel.height g;
     GraphModel.nodes := GraphModel.nodes g;
     GraphModel.edges := GraphModel.edges g;
     GraphModel.layers := GraphModel.layers g |}.

Lemma layer_map_erase `{GoRuntime} (t : nat) (g : GraphModel.t)
    (keep : Model.Dependency → bool) (M' : gmap string Model.Issue) :
  removable (GraphModel.issueMap g) keep → same_view (GraphModel.issueMap g) M' →
  layer_map t (with_issues g (erase keep <$> GraphModel.issues g) M') = layer_map t g.
Proof.
  intros Hkeep Hv. unfold layer_map. simpl.
  pose proof (build_adjacency_erase_ids keep (GraphModel.issues g)) as Hids.
  pose proof (λ n, build_adjacency_lookup (erase keep <$> GraphModel.issues g) n) as Hd'.
  pose proof (λ n, build_adjacency_lookup (GraphModel.issues g) n) as Hd.
  destruct (build_adjacency (erase keep <$> GraphModel.issues g)) as [d' a'].
  destruct (build_adjacency (GraphModel.issues g)) as [d a]. simpl in *. subst a'.
  symmetry. apply compute_layers_congr; [done|].
  intros n. rewrite Hd, Hd'. symmetry. by apply listed_for_erase.
Qed.

(** [buildGraph] produces the same graph when removable dependencies are
    dropped from the issues, whether or not the node set holds the issues
    with or without them. *)
Lemma buildGraph_erase `{GoRuntime}
    (truncateRunesHelper : string → Z → string → string) (t : nat)
    (g : GraphModel.t) (keep : Model.Dependency → bool)
    (M' : gmap string Model.Issue) :
  removable (GraphModel.issueMap g) keep → same_view (GraphModel.issueMap g) M' →
  graph_of <$> buildGraph truncateRunesHelper t
                 (with_issues g (erase keep <$> GraphModel.issues g) M')
  = graph_of <$> buildGraph truncateRunesHelper t g.
Proof.
  intros Hkeep Hv. unfold buildGraph. simpl. rewrite length_fmap.
  case_bool_decide; [done|].
  rewrite (layer_map_erase t g keep M') by done.
  destruct (layer_map t g) as [L|]; [|done]. simpl.
  rewrite <-(place_all_congr truncateRunesHelper (GraphModel.issueMap g) M') by done.
  rewrite (build_edges_erase (GraphModel.issueMap g)); [done|done|].
  intros id [i Hi].
  by eapply (proj1 (place_all_ok truncateRunesHelper (GraphModel.issueMap g) (t + 1) L)).
Qed.

(** *** The node set of a new model *)

Lemma index_issues_fold (issues : list Model.Issue) (M : gmap string Model.Issue) :
  dom (fold_left (λ issueMap issue, <[Model.ID issue := issue]> issueMap) issues M)
  = dom M ∪ list_to_set (Model.ID <$> issues).
Proof.
  revert M. induction issues as [|i issues IH]; intros M; simpl.
  - set_solver.
  - rewrite IH, dom_insert_L. set_solver.
Qed.

Lemma index_issues_dom (issues : list Model.Issue) :
  dom (index_issues issues) = list_to_set (Model.ID <$> issues).
Proof. unfold index_issues. rewrite index_issues_fold, dom_empty_L. set_solver. Qed.

Lemma index_issues_present (issues : list Model.Issue) (id : string) :
  is_Some (index_issues issues !! id) ↔ id ∈ Model.ID <$> issues.
Proof. by rewrite <-elem_of_dom, index_issues_dom, elem_of_list_to_set. Qed.

Lemma index_issues_erase (keep : Model.Dependency → bool) (issues : list Model.Issue) :
  index_issues (erase keep <$> issues) = erase keep <$> index_issues issues.
Proof.
  unfold index_issues.
  assert (∀ M : gmap string Model.Issue,
    fold_left (λ issueMap issue, <[Model.ID issue := issue]> issueMap)
      (erase keep <$> issues) (erase keep <$> M)
    = erase keep <$> fold_left (λ issueMap issue, <[Model.ID issue := issue]> issueMap)
                       issues M) as Hgen.
  { induction issues as [|i issues IH]; intros M; simpl; [done|].
    by rewrite <-IH, fmap_insert. }
  by rewrite <-Hgen, fmap_empty.
Qed.

Lemma same_view_erase (keep : Model.Dependency → bool) (M : gmap string Model.Issue) :
  same_view M (erase keep <$> M).
Proof.
  intros id. rewrite lookup_fmap. destruct (M !! id); by constructor.
Qed.

(** Erasing removable dependencies from the issues handed to
    [NewGraphModel] or [SetIssues] leaves the graph as it is. *)
Lemma NewGraphModel_erase `{GoRuntime}
    (truncateRunesHelper : string → Z → string → string) (t : nat)
    (issues : list Model.Issue) (insights : option Analysis.Insights)
    (keep : Model.Dependency → bool) :
  removable (index_issues issues) keep →
  graph_of <$> NewGraphModel truncateRunesHelper t (erase keep <$> issues) insights
  = graph_of <$> NewGraphModel truncateRunesHelper t issues insights.
Proof.
  intros Hkeep. unfold NewGraphModel.
  rewrite <-(buildGraph_erase truncateRunesHelper t (initial_model issues insights)
               keep (index_issues (erase keep <$> issues))); [done|done|].
  rewrite index_issues_erase. apply same_view_erase.
Qed.

Lemma SetIssues_erase `{GoRuntime}
    (truncateRunesHelper : string → Z → string → string) (t : nat)
    (g : GraphModel.t) (issues : list Model.Issue)
    (insights : option Analysis.Insights) (keep : Model.Dependency → bool) :
  removable (index_issues issues) keep →
  graph_of <$> SetIssues truncateRunesHelper t g (erase keep <$> issues) insights
  = graph_of <$> SetIssues truncateRunesHelper t g issues insights.
Proof.
  intros Hkeep. unfold SetIssues.
  set (g0 := {| GraphModel.issues := issues;
                GraphModel.issueMap := index_issues issues;
                GraphModel.insights := insights;
                GraphModel.selectedNode := GraphModel.selectedNode g;
                GraphModel.scrollX := GraphModel.scrollX g;
                GraphModel.scrollY := GraphModel.scrollY g;
                GraphModel.width := GraphModel.width g;
                GraphModel.height := GraphModel.height g;
                GraphModel.nodes := GraphModel.nodes g;
                GraphModel.edges := GraphModel.edges g;
                GraphModel.layers := GraphModel.layers g |}).
  rewrite <-(buildGraph_erase truncateRunesHelper t g0
               keep (index_issues (erase keep <$> issues))); [done|done|].
  rewrite index_issues_erase. apply same_view_erase.
Qed.

(** The adjacency list itself, for non-structural dependencies. *)
Lemma add_dependencies_structural (id : string) (deps : list Model.Dependency)
    (d : gmap string (list string)) :
  add_dependencies id (filter (λ dep, structural dep = true) deps) d
  = add_dependencies id deps d.
Proof.
  unfold add_dependencies. revert d. induction deps as [|dep deps IH]; intros d; [done|].
  destruct (structural dep) eqn:Hs.
  - rewrite filter_cons_True by done. simpl. rewrite Hs. apply IH.
  - rewrite filter_cons_False by (by rewrite Hs). simpl. rewrite Hs. apply IH.
Qed.

Lemma build_adjacency_structural (issues : list Model.Issue) :
  build_adjacency (erase structural <$> issues) = build_adjacency issues.
Proof.
  unfold build_adjacency. generalize (∅ : gmap string (list string), ∅ : gmap string bool).
  induction issues as [|i issues IH]; intros [d a]; simpl; [done|].
  by rewrite IH, add_dependencies_structural.
Qed.

Lemma removable_structural (M : gmap string Model.Issue) : removable M structural.
Proof. intros dep Hdep. by left. Qed.

(** Every edge comes from a structural dependency between two indexed
    identifiers. *)
Lemma elem_of_edges_of_issue (idx : gmap string Z) (issue : Model.Issue)
    (edges : list graphEdge.t) (e : graphEdge.t) :
  e ∈ edges_of_issue idx issue edges →
  e ∈ edges
  ∨ ∃ dep, dep ∈ Model.Dependencies issue ∧ structural dep = true
           ∧ idx !! Model.ID issue = Some (graphEdge.to e)
           ∧ idx !! Model.DependsOnID dep = Some (graphEdge.from e)
           ∧ graphEdge.depType e = Model.Type_ dep.
Proof.
  unfold edges_of_issue. destruct (idx !! Model.ID issue) as [dependentIdx|]; [|by left].
  revert edges. induction (Model.Dependencies issue) as [|dep deps IH]; intros edges;
    simpl; [by left|].
  intros He. apply IH in He as [He|(dep' & ? & ?)]; cycle 1.
  { right. exists dep'. split; [by right|done]. }
  destruct (structural dep) eqn:Hs; simpl in He; [|by left].
  destruct (idx !! Model.DependsOnID dep) as [dependencyIdx|] eqn:Hdep; [|by left].
  apply elem_of_app in He as [He|He]; [by left|].
  apply list_elem_of_singleton in He as ->. right. exists dep.
  split; [by left|]. by simpl.
Qed.

Lemma elem_of_build_edges (idx : gmap string Z) (issues : list Model.Issue)
    (e : graphEdge.t) :
  e ∈ build_edges idx issues →
  ∃ issue dep, issue ∈ issues ∧ dep ∈ Model.Dependencies issue
    ∧ structural dep = true
    ∧ idx !! Model.ID issue = Some (graphEdge.to e)
    ∧ idx !! Model.DependsOnID dep = Some (graphEdge.from e)
    ∧ graphEdge.depType e = Model.Type_ dep.
Proof.
  unfold build_edges.
  assert (∀ edges, e ∈ fold_left (λ edges issue, edges_of_issue idx issue edges)
                         issues edges →
    e ∈ edges ∨ ∃ issue dep, issue ∈ issues ∧ dep ∈ Model.Dependencies issue
      ∧ structural dep = true
      ∧ idx !! Model.ID issue = Some (graphEdge.to e)
      ∧ idx !! Model.DependsOnID dep = Some (graphEdge.from e)
      ∧ graphEdge.depType e = Model.Type_ dep) as Hgen.
  { induction issues as [|i issues IH]; intros edges; simpl; [by left|].
    intros He. apply IH in He as [He|(issue & dep & ? & ?)].
    - apply elem_of_edges_of_issue in He as [He|(dep & ?)]; [by left|].
      right. exists i, dep. split; [by left|done].
    - right. exists issue, dep. split; [by right|done]. }
  intros He. apply Hgen in He as [He|He]; [by apply elem_of_nil in He|done].
Qed.

Lemma structural_kind (dep : Model.Dependency) :
  structural dep = true →
  Model.Type_ dep = "blocks" ∨ Model.Type_ dep = "parent-child".
Proof.
  unfold structural. intros [H1|H1]%orb_true_iff; apply bool_decide_eq_true in H1; auto.
Qed.

Lemma initial_layer_map_erase `{GoRuntime} (t : nat) (issues : list Model.Issue)
    (insights : option Analysis.Insights) (keep : Model.Dependency → bool) :
  removable (index_issues issues) keep →
  layer_map t (initial_model (erase keep <$> issues) insights)
  = layer_map t (initial_model issues insights).
Proof.
  intros Hkeep.
  rewrite <-(layer_map_erase t (initial_model issues insights) keep
               (index_issues (erase keep <$> issues))); [done|done|].
  rewrite index_issues_erase. apply same_view_erase.
Qed.

Lemma buildGraph_total `{GoRuntime}
    (truncateRunesHelper : string → Z → string → string)
    (t : nat) (g : GraphModel.t) :
  is_Some (buildGraph truncateRunesHelper t g).
Proof.
  destruct (layer_map_spec t g) as (L & HL & _).
  unfold buildGraph. case_bool_decide; [done|]. by rewrite HL.
Qed.

(** Where the edges of a built graph come from and where they lead. *)
Lemma buildGraph_edges `{GoRuntime}
    (truncateRunesHelper : string → Z → string → string)
    (t : nat) (g g' : GraphModel.t) (e : graphEdge.t) :
  buildGraph truncateRunesHelper t g = Some g' → e ∈ GraphModel.edges g' →
  (∃ issue dep, issue ∈ GraphModel.issues g ∧ dep ∈ Model.Dependencies issue
     ∧ structural dep = true ∧ graphEdge.depType e = Model.Type_ dep
     ∧ is_Some (GraphModel.issueMap g !! Model.ID issue)
     ∧ is_Some (GraphModel.issueMap g !! Model.DependsOnID dep))
  ∧ 0 ≤ graphEdge.from e < Z.of_nat (length (GraphModel.nodes g'))
  ∧ 0 ≤ graphEdge.to e < Z.of_nat (length (GraphModel.nodes g')).
Proof.
  unfold buildGraph. case_bool_decide.
  { intros [= <-]. simpl. by intros ?%elem_of_nil. }
  destruct (layer_map t g) as [L|]; [|done]. intros [= <-]. simpl.
  intros (issue & dep & Hi & Hd & Hs & Hto & Hfrom & Hty)%elem_of_build_edges.
  destruct (place_all_ok truncateRunesHelper (GraphModel.issueMap g) (t + 1) L)
    as [Hidx _].
  destruct (Hidx _ _ Hto) as (? & ? & _). destruct (Hidx _ _ Hfrom) as (? & ? & _).
  split; [|done]. by exists issue, dep.
Qed.

(** Every node of a built graph stands for an identifier of the node set. *)
Lemma buildGraph_nodes `{GoRuntime}
    (truncateRunesHelper : string → Z → string → string)
    (t : nat) (g g' : GraphModel.t) (node : graphNode.t) :
  buildGraph truncateRunesHelper t g = Some g' → node ∈ GraphModel.nodes g' →
  is_Some (GraphModel.issueMap g !! graphNode.id node).
Proof.
  unfold buildGraph. case_bool_decide.
  { intros [= <-]. simpl. by intros ?%elem_of_nil. }
  destruct (layer_map t g) as [L|]; [|done]. intros [= <-]. simpl.
  by apply (place_all_ok truncateRunesHelper (GraphModel.issueMap g) (t + 1) L).
Qed.

Lemma buildGraph_issueMap `{GoRuntime}
    (truncateRunesHelper : string → Z → string → string)
    (t : nat) (g g' : GraphModel.t) :
  buildGraph truncateRunesHelper t g = Some g' →
  GraphModel.issueMap g' = GraphModel.issueMap g
  ∧ GraphModel.issues g' = GraphModel.issues g.
Proof.
  unfold buildGraph. case_bool_decide; [by intros [= <-]|].
  destruct (layer_map t g) as [L|]; [|done]. by intros [= <-].
Qed.

(** *** The nodes of the built graph and their layers *)

Lemma group_by_layer_spec (entries : list (string * Z)) :
  let r := group_by_layer entries in
  (∀ k id, id ∈ r.1 !!! k ↔ (id, k) ∈ entries)
  ∧ 0 ≤ r.2 ∧ (∀ id k, (id, k) ∈ entries → k ≤ r.2).
Proof.
  unfold group_by_layer.
  assert (∀ acc : gmap Z (list string) * Z,
    let r := fold_left (λ '(layerGroups, maxLayer) '(id, layer),
               (<[layer := (layerGroups !!! layer) ++ [id]]> layerGroups,
                if maxLayer <? layer then layer else maxLayer)) entries acc in
    (∀ k id, id ∈ r.1 !!! k ↔ id ∈ acc.1 !!! k ∨ (id, k) ∈ entries)
    ∧ acc.2 ≤ r.2 ∧ (∀ id k, (id, k) ∈ entries → k ≤ r.2)) as Hgen.
  { induction entries as [|[id layer] entries IH]; intros [groups maxLayer]; simpl.
    - split_and!; [|done|by intros ?? ?%elem_of_nil].
      intros k id. split; [by left|]. by intros [?|?%elem_of_nil].
    - destruct (IH (<[layer := (groups !!! layer) ++ [id]]> groups,
                    if maxLayer <? layer then layer else maxLayer))
        as (Hin & Hmax & Hle). simpl in *. split_and!.
      + intros k id'. rewrite Hin, elem_of_cons.
        destruct (decide (layer = k)) as [->|Hne].
        * rewrite lookup_total_insert_eq, elem_of_app, list_elem_of_singleton.
          split; [intros [[?| ->]|?]|intros [?|[E|?]]]; auto.
          simplify_eq. auto.
        * rewrite lookup_total_insert_ne by done.
          split; [intros [?|?]|intros [?|[E|?]]]; auto. by simplify_eq.
      + destruct (Z.ltb_spec maxLayer layer); lia.
      + intros id' k [E|Hk]%elem_of_cons; [|by eapply Hle].
        simplify_eq. destruct (Z.ltb_spec maxLayer layer); lia. }
  destruct (Hgen (∅, 0)) as (Hin & Hmax & Hle). simpl in *. split_and!; [|done|done].
  intros k id. rewrite Hin, lookup_total_empty. split; [|by right].
  by intros [?%elem_of_nil|?].
Qed.

Section NodeLayers.
Context `{GoRuntime}.
Variable truncateRunesHelper : string → Z → string → string.
Variable M : gmap string Model.Issue.

Lemma place_node_nodes (layer : Z) (p : Placement) (i : nat) (id : string)
    (node : graphNode.t) :
  node ∈ p_nodes (place_node truncateRunesHelper M layer p i id) ↔
  node ∈ p_nodes p
  ∨ (is_Some (M !! id) ∧ graphNode.id node = id ∧ graphNode.layer node = layer
     ∧ p_index (place_node truncateRunesHelper M layer p i id) !! id
       = Some (Z.of_nat (length (p_nodes p)))
     ∧ node ∈ p_nodes (place_node truncateRunesHelper M layer p i id)).
Proof.
  unfold place_node. destruct (M !! id) as [issue|] eqn:Hid; simpl.
  - rewrite elem_of_app, list_elem_of_singleton. split.
    + intros [?| ->]; [by left|right]. simpl. rewrite lookup_insert_eq.
      split_and!; try done. by right.
    + intros [?|(_ & _ & _ & _ & ?)]; [by left|done].
  - split; [by left|]. by intros [?|([? ?] & _)].
Qed.

(** The nodes and indices already there stay. *)
Lemma place_ids_mono (layer : Z) (ids : list string) (i : nat) (p : Placement)
    (node : graphNode.t) :
  node ∈ p_nodes p → node ∈ p_nodes (place_ids truncateRunesHelper M layer ids i p).
Proof.
  revert i p. induction ids as [|id ids IH]; intros i p Hn; simpl; [done|].
  apply IH, place_node_nodes. by left.
Qed.

Lemma place_ids_nodes (layer : Z) (ids : list string) (i : nat) (p : Placement)
    (node : graphNode.t) :
  node ∈ p_nodes (place_ids truncateRunesHelper M layer ids i p) →
  node ∈ p_nodes p ∨ (graphNode.id node ∈ ids ∧ graphNode.layer node = layer).
Proof.
  revert i p. induction ids as [|id ids IH]; intros i p; simpl; [by left|].
  intros [Hn|[? ?]]%IH; [|right; split; [by right|done]].
  apply place_node_nodes in Hn as [?|(_ & <- & ? & _)]; [by left|right].
  split; [by left|done].
Qed.

Lemma place_ids_covers (layer : Z) (ids : list string) (i : nat) (p : Placement)
    (id : string) :
  id ∈ ids → is_Some (M !! id) →
  ∃ node, node ∈ p_nodes (place_ids truncateRunesHelper M layer ids i p)
          ∧ graphNode.id node = id ∧ graphNode.layer node = layer.
Proof.
  revert i p. induction ids as [|id' ids IH]; intros i p Hin Hid;
    [by apply elem_of_nil in Hin|].
  simpl. apply elem_of_cons in Hin as [->|Hin]; [|by apply IH].
  destruct Hid as [issue Hid].
  set (p' := place_node truncateRunesHelper M layer p i id').
  assert (∃ node, node ∈ p_nodes p' ∧ graphNode.id node = id'
                  ∧ graphNode.layer node = layer) as (node & Hn & ? & ?).
  { unfold p', place_node. rewrite Hid. simpl. eexists. split.
    - apply elem_of_app. right. by apply list_elem_of_singleton.
    - done. }
  exists node. split; [by apply place_ids_mono|done].
Qed.

(** The layers in which the nodes are placed: [ls], with the identifiers
    [groups !!! l] in layer [l]. *)
Lemma place_layers_nodes (groups : gmap Z (list string)) (ls : list Z)
    (p : Placement) (node : graphNode.t) :
  node ∈ p_nodes (fold_left (place_layer truncateRunesHelper M groups) ls p) →
  node ∈ p_nodes p
  ∨ (graphNode.layer node ∈ ls
     ∧ graphNode.id node ∈ groups !!! graphNode.layer node).
Proof.
  revert p. induction ls as [|l ls IH]; intros p; simpl; [by left|].
  intros [Hn|[? ?]]%IH; [|right; split; [by right|done]].
  unfold place_layer in Hn. apply place_ids_nodes in Hn as [?|[? <-]]; [by left|].
  right. split; [by left|done].
Qed.

Lemma place_layers_mono (groups : gmap Z (list string)) (ls : list Z)
    (p : Placement) (node : graphNode.t) :
  node ∈ p_nodes p →
  node ∈ p_nodes (fold_left (place_layer truncateRunesHelper M groups) ls p).
Proof.
  revert p. induction ls as [|l ls IH]; intros p Hn; simpl; [done|].
  apply IH. unfold place_layer. by apply place_ids_mono.
Qed.

Lemma place_layers_covers (groups : gmap Z (list string)) (ls : list Z)
    (p : Placement) (l : Z) (id : string) :
  l ∈ ls → id ∈ groups !!! l → is_Some (M !! id) →
  ∃ node, node ∈ p_nodes (fold_left (place_layer truncateRunesHelper M groups) ls p)
          ∧ graphNode.id node = id ∧ graphNode.layer node = l.
Proof.
  revert p. induction ls as [|l' ls IH]; intros p Hl Hid HM;
    [by apply elem_of_nil in Hl|].
  simpl. apply elem_of_cons in Hl as [->|Hl]; [|by apply IH].
  destruct (place_ids_covers l' (groups !!! l') 0
              {| p_nodes := p_nodes p;
                 p_layers := <[Z.to_nat l' := replicate (length (groups !!! l')) 0]>
                               (p_layers p);
                 p_index := p_index p |} id Hid HM) as (node & Hn & ? & ?).
  exists node. split; [|done]. by apply place_layers_mono.
Qed.

Lemma sorted_group (groups : gmap Z (list string)) (l : Z) (id : string) :
  id ∈ (sort_Strings <$> groups) !!! l ↔ id ∈ groups !!! l.
Proof.
  rewrite !lookup_total_alt, lookup_fmap.
  destruct (groups !! l) as [ids|]; simpl; [|done].
  unfold sort_Strings. by rewrite sort_slice_perm.
Qed.

(** An identifier keeps its index once it has one, and gets one when it
    is placed. *)
Lemma place_node_index (layer : Z) (p : Placement) (i : nat) (id id' : string) :
  is_Some (p_index p !! id') ∨ (id' = id ∧ is_Some (M !! id)) →
  is_Some (p_index (place_node truncateRunesHelper M layer p i id) !! id').
Proof.
  unfold place_node. intros [Hidx|[-> [issue Hid]]].
  - destruct (M !! id); [|done]. simpl. rewrite lookup_insert.
    case_decide; [by eexists|done].
  - rewrite Hid. simpl. rewrite lookup_insert_eq. by eexists.
Qed.

Lemma place_ids_index (layer : Z) (ids : list string) (i : nat) (p : Placement)
    (id : string) :
  is_Some (p_index p !! id) ∨ (id ∈ ids ∧ is_Some (M !! id)) →
  is_Some (p_index (place_ids truncateRunesHelper M layer ids i p) !! id).
Proof.
  revert i p. induction ids as [|id' ids IH]; intros i p; simpl.
  { intros [?|[?%elem_of_nil _]]; done. }
  intros [Hidx|[[->|Hin]%elem_of_cons HM]].
  - apply IH. left. apply place_node_index. by left.
  - apply IH. left. apply place_node_index. by right.
  - apply IH. by right.
Qed.

Lemma place_layers_index (groups : gmap Z (list string)) (ls : list Z)
    (p : Placement) (id : string) :
  is_Some (p_index p !! id)
  ∨ (∃ l, l ∈ ls ∧ id ∈ groups !!! l ∧ is_Some (M !! id)) →
  is_Some (p_index (fold_left (place_layer truncateRunesHelper M groups) ls p) !! id).
Proof.
  revert p. induction ls as [|l' ls IH]; intros p; simpl.
  { intros [?|(l & ?%elem_of_nil & _)]; done. }
  intros [Hidx|(l & [->|Hl]%elem_of_cons & Hid & HM)].
  - apply IH. left. unfold place_layer. apply place_ids_index. by left.
  - apply IH. left. unfold place_layer. apply place_ids_index. by right.
  - apply IH. right. by exists l.
Qed.

Lemma place_all_index (t : nat) (L : gmap string Z) (id : string) (l : Z) :
  L !! id = Some l → 0 ≤ l → is_Some (M !! id) →
  is_Some (p_index (place_all truncateRunesHelper t M L) !! id).
Proof.
  intros Hl H0 HM. unfold place_all.
  pose proof (group_by_layer_spec (map_range t L)) as (Hin & _ & Hmax).
  destruct (group_by_layer (map_range t L)) as [groups maxLayer]. simpl in *.
  assert ((id, l) ∈ map_range t L) as Hentry
    by (rewrite map_range_perm; by apply elem_of_map_to_list).
  apply place_layers_index. right. exists l. split_and!; [|by apply sorted_group, Hin|done].
  apply elem_of_seqZ. specialize (Hmax _ _ Hentry). lia.
Qed.

(** The nodes of the graph are the identifiers of the node set that have
    a layer, each once per layer entry and in that layer. *)
Lemma place_all_nodes (t : nat) (L : gmap string Z) (node : graphNode.t) :
  node ∈ p_nodes (place_all truncateRunesHelper t M L) →
  L !! graphNode.id node = Some (graphNode.layer node).
Proof.
  unfold place_all.
  pose proof (group_by_layer_spec (map_range t L)) as (Hin & _ & _).
  destruct (group_by_layer (map_range t L)) as [groups maxLayer]. simpl in *.
  intros [?%elem_of_nil|[_ Hid]]%place_layers_nodes; [done|].
  apply sorted_group, Hin in Hid. rewrite map_range_perm in Hid.
  by apply elem_of_map_to_list in Hid.
Qed.

Lemma place_all_covers (t : nat) (L : gmap string Z) (id : string) (l : Z) :
  L !! id = Some l → 0 ≤ l → is_Some (M !! id) →
  ∃ node, node ∈ p_nodes (place_all truncateRunesHelper t M L)
          ∧ graphNode.id node = id ∧ graphNode.layer node = l.
Proof.
  intros Hl H0 HM. unfold place_all.
  pose proof (group_by_layer_spec (map_range t L)) as (Hin & _ & Hmax).
  destruct (group_by_layer (map_range t L)) as [groups maxLayer]. simpl in *.
  assert ((id, l) ∈ map_range t L) as Hentry
    by (rewrite map_range_perm; by apply elem_of_map_to_list).
  apply place_layers_covers; [|by apply sorted_group, Hin|done].
  apply elem_of_seqZ. specialize (Hmax _ _ Hentry). lia.
Qed.

End NodeLayers.

(** In a built graph every node lies in the layer computed for its
    identifier, and every issue of the node set has a node. *)
Lemma buildGraph_node_layers `{GoRuntime}
    (truncateRunesHelper : string → Z → string → string)
    (t : nat) (g g' : GraphModel.t) (L : gmap string Z) :
  buildGraph truncateRunesHelper t g = Some g' → layer_map t g = Some L →
  (∀ node, node ∈ GraphModel.nodes g' →
     L !! graphNode.id node = Some (graphNode.layer node))
  ∧ (∀ issue, issue ∈ GraphModel.issues g →
       is_Some (GraphModel.issueMap g !! Model.ID issue) →
       ∃ node, node ∈ GraphModel.nodes g'
               ∧ graphNode.id node = Model.ID issue
               ∧ L !! Model.ID issue = Some (graphNode.layer node)).
Proof.
  intros Hg' HL. unfold buildGraph in Hg'. case_bool_decide as Hlen.
  { simplify_eq. simpl. apply length_zero_iff_nil in Hlen. rewrite Hlen.
    split; by intros ? ?%elem_of_nil. }
  rewrite HL in Hg'. simplify_eq. simpl. split.
  - intros node. apply place_all_nodes.
  - intros issue Hin HM.
    destruct (layer_map_spec t g) as (L' & HL' & Hmemo & Hall & _).
    rewrite HL in HL'. simplify_eq.
    destruct (Hall issue Hin) as [l Hl].
    destruct (place_all_covers truncateRunesHelper (GraphModel.issueMap g) (t + 1)
                L' (Model.ID issue) l Hl) as (node & Hn & Hid & Hlayer);
      [by eapply memo_ok_nonneg|done|].
    exists node. by rewrite Hlayer.
Qed.


(** *** C4 *)

(** C4.  [buildGraph] gives every issue a layer, and places every node of
    the graph in the layer of its identifier.  The layer of a node
    without prerequisites (structural dependencies in the node set) is
    [0]; the layer of a node that is on no dependency cycle is one more
    than the greatest layer among its prerequisites: each prerequisite
    lies at least one layer lower, and one of them exactly one layer
    lower.  On the chain A→B→C→D the layers are A=0, B=1, C=2, D=3, in
    whatever order the identifiers are visited. *)
Theorem layer_recurrence `{GoRuntime}
    (truncateRunesHelper : string → Z → string → string)
    (t : nat) (g : GraphModel.t) :
  (∃ L g', layer_map t g = Some L
     ∧ buildGraph truncateRunesHelper t g = Some g'
     ∧ (∀ node, node ∈ GraphModel.nodes g' →
          L !! graphNode.id node = Some (graphNode.layer node))
     ∧ ∀ issue, issue ∈ GraphModel.issues g →
         ∃ l, L !! Model.ID issue = Some l
           ∧ (prerequisites_in g (Model.ID issue) = [] → l = 0)
           ∧ (¬ cyclic g (Model.ID issue) →
                (∀ p, p ∈ prerequisites_in g (Model.ID issue) →
                   ∃ c, L !! p = Some c ∧ c + 1 ≤ l)
                ∧ (prerequisites_in g (Model.ID issue) ≠ [] →
                   ∃ p, p ∈ prerequisites_in g (Model.ID issue)
                        ∧ L !! p = Some (l - 1))))
  ∧ (∃ L, layer_map t chain = Some L
       ∧ L !! "A" = Some 0 ∧ L !! "B" = Some 1
       ∧ L !! "C" = Some 2 ∧ L !! "D" = Some 3).
Proof.
  split; [|apply chain_layers].
  destruct (layer_map_spec t g) as (L & HL & Hmemo & Hall & _).
  destruct (buildGraph_total truncateRunesHelper t g) as [g' Hg'].
  exists L, g'. split; [done|]. split; [done|].
  split; [by eapply buildGraph_node_layers|].
  intros issue Hin.
  destruct (Hall issue Hin) as [l Hl]. exists l. split; [done|].
  by apply memo_ok_recurrence.
Qed.

Lemma layer_recurrence_witness :
  (∃ L, @layer_map reference_runtime 0 chain = Some L
        ∧ L !! "A" = Some 0 ∧ L !! "B" = Some 1
        ∧ L !! "C" = Some 2 ∧ L !! "D" = Some 3)
  ∧ (graphNode.layer
       <$> (default [] (GraphModel.nodes
                          <$> @buildGraph reference_runtime identity_title 0 chain))
      = [0; 1; 2; 3]).
Proof.
  split; [|vm_compute; reflexivity].
  exact (proj2 (@layer_recurrence reference_runtime identity_title 0%nat chain)).
Defined.

(** *** C5 *)

(** The reading under which the edges of a cycle are ignored: the layer
    [l] of [n] is one more than the greatest layer among those
    prerequisites of [n] from which [n] cannot be reached back, and [0]
    when there is none. *)
Definition scored_ignoring_cycles (g : GraphModel.t) (L : gmap string Z)
    (n : string) (l : Z) : Prop :=
  let reaches := rtc (depends (adjacency g) (GraphModel.issueMap g)) in
  (∀ p, p ∈ prerequisites_in g n → ¬ reaches p n →
     ∃ c, L !! p = Some c ∧ c + 1 ≤ l)
  ∧ (l = 0 ∨ ∃ p, p ∈ prerequisites_in g n ∧ ¬ reaches p n ∧ L !! p = Some (l - 1)).

Lemma two_cycle_layers :
  @layer_map reference_runtime 0 two_cycle = Some (<["A" := 2]> (<["B" := 1]> ∅)).
Proof. vm_compute. reflexivity. Qed.

Lemma two_cycle_cyclic : cyclic two_cycle "A".
Proof.
  assert (prerequisites_in two_cycle "A" = ["B"]) as HA by (vm_compute; reflexivity).
  assert (prerequisites_in two_cycle "B" = ["A"]) as HB by (vm_compute; reflexivity).
  apply (tc_l _ _ "B"); [|apply tc_once].
  - unfold depends. fold (prerequisites_in two_cycle "A"). rewrite HA. by left.
  - unfold depends. fold (prerequisites_in two_cycle "B"). rewrite HB. by left.
Qed.

(** On the cycle A⇄B no node has a prerequisite outside the cycle, yet A
    is put on layer 2: the edges of the cycle are not ignored. *)
Lemma cyclic_edges_not_ignored :
  ¬ (∀ (R : GoRuntime) (t : nat) (g : GraphModel.t) (L : gmap string Z)
       (n : string) (l : Z),
       @layer_map R t g = Some L → cyclic g n → L !! n = Some l →
       scored_ignoring_cycles g L n l).
Proof.
  intros Hall.
  destruct (Hall reference_runtime 0%nat two_cycle _ "A" 2
              two_cycle_layers two_cycle_cyclic) as [_ [?|(p & Hp & Hnot & _)]];
    [done|done|].
  assert (prerequisites_in two_cycle "A" = ["B"]) as HA by (vm_compute; reflexivity).
  assert (prerequisites_in two_cycle "B" = ["A"]) as HB by (vm_compute; reflexivity).
  rewrite HA in Hp. apply list_elem_of_singleton in Hp as ->.
  apply Hnot, rtc_once. unfold depends.
  fold (prerequisites_in two_cycle "B"). rewrite HB. by left.
Qed.

(** C5, as the code has it.  The layer computation returns on every
    input, cyclic or not, and [buildGraph] with it, and gives every issue
    a layer [l ≥ 0]: one more than the maximum (from [-1]) of what its
    prerequisites contribute, where a prerequisite contributes its own
    layer or, only when the node is on a cycle, the value [0] of a
    prerequisite found in progress.  Such an edge is counted, not skipped:
    a node with a prerequisite has [l ≥ 1], and every prerequisite of a
    node that is on no cycle lies at least one layer lower. *)
Theorem layers_with_cycles `{GoRuntime}
    (truncateRunesHelper : string → Z → string → string)
    (t : nat) (g : GraphModel.t) :
  is_Some (buildGraph truncateRunesHelper t g)
  ∧ ∃ L, layer_map t g = Some L
      ∧ ∀ issue, issue ∈ GraphModel.issues g →
          ∃ l cs, L !! Model.ID issue = Some l
            ∧ Forall2 (contributes (adjacency g) (GraphModel.issueMap g) L
                         (Model.ID issue))
                (prerequisites_in g (Model.ID issue)) cs
            ∧ l = max_from (-1) cs + 1
            ∧ 0 ≤ l
            ∧ (prerequisites_in g (Model.ID issue) ≠ [] → 1 ≤ l)
            ∧ (∀ p, p ∈ prerequisites_in g (Model.ID issue) →
                 cyclic g (Model.ID issue) ∨ ∃ c, L !! p = Some c ∧ c + 1 ≤ l).
Proof.
  split; [apply buildGraph_total|].
  destruct (layer_map_spec t g) as (L & HL & Hmemo & Hall & _).
  exists L. split; [done|]. intros issue Hin.
  destruct (Hall issue Hin) as [l Hl].
  destruct (Hmemo _ _ Hl) as (cs & Hcs & El).
  exists l, cs. split_and!; try done; by eapply memo_ok_bounds.
Qed.

(** *** C6 *)

(** C6.  Only dependencies of kind "blocks" or "parent-child" take part
    in the graph: dropping every dependency of another kind from the
    issues leaves the adjacency list, the layers and the built graph
    (nodes, edges, layers) as they are, every entry of an adjacency list
    comes from a structural dependency, and every edge drawn has a
    structural kind. *)
Theorem nonstructural_ignored `{GoRuntime}
    (truncateRunesHelper : string → Z → string → string)
    (t : nat) (g : GraphModel.t) (issues : list Model.Issue)
    (insights : option Analysis.Insights) :
  let structural_only := erase structural <$> issues in
  build_adjacency structural_only = build_adjacency issues
  ∧ (∀ n, (build_adjacency issues).1 !!! n = listed_for n issues)
  ∧ layer_map t (initial_model structural_only insights)
    = layer_map t (initial_model issues insights)
  ∧ graph_of <$> NewGraphModel truncateRunesHelper t structural_only insights
    = graph_of <$> NewGraphModel truncateRunesHelper t issues insights
  ∧ graph_of <$> SetIssues truncateRunesHelper t g structural_only insights
    = graph_of <$> SetIssues truncateRunesHelper t g issues insights
  ∧ (∀ g' e, NewGraphModel truncateRunesHelper t issues insights = Some g' →
       e ∈ GraphModel.edges g' →
       graphEdge.depType e = "blocks" ∨ graphEdge.depType e = "parent-child").
Proof.
  intros structural_only. split_and!.
  - apply build_adjacency_structural.
  - apply build_adjacency_lookup.
  - apply initial_layer_map_erase, removable_structural.
  - apply NewGraphModel_erase, removable_structural.
  - apply SetIssues_erase, removable_structural.
  - intros g' e Hg' He.
    destruct (buildGraph_edges _ _ _ _ _ Hg' He) as [(issue & dep & _ & _ & Hs & -> & _) _].
    by apply structural_kind.
Qed.

(** *** C7 *)

(** [dep] points to an issue of the list. *)
Definition known (issues : list Model.Issue) (dep : Model.Dependency) : bool :=
  bool_decide (Model.DependsOnID dep ∈ Model.ID <$> issues).

Lemma removable_known (issues : list Model.Issue) :
  removable (index_issues issues) (known issues).
Proof.
  intros dep Hdep. right. apply bool_decide_eq_false in Hdep.
  apply eq_None_not_Some. by rewrite index_issues_present.
Qed.

(** C7.  A dependency whose target is not the identifier of an issue is
    dropped without an error: building the graph always succeeds;
    dropping such dependencies from the issues beforehand leaves the
    layers and the built graph as they are; the traversal follows
    prerequisites among the issues only; and every edge joins two nodes
    of the graph, which stand for issues of the list. *)
Theorem dangling_dropped `{GoRuntime}
    (truncateRunesHelper : string → Z → string → string)
    (t : nat) (g : GraphModel.t) (issues : list Model.Issue)
    (insights : option Analysis.Insights) :
  let scoped := erase (known issues) <$> issues in
  is_Some (NewGraphModel truncateRunesHelper t issues insights)
  ∧ is_Some (SetIssues truncateRunesHelper t g issues insights)
  ∧ layer_map t (initial_model scoped insights)
    = layer_map t (initial_model issues insights)
  ∧ graph_of <$> NewGraphModel truncateRunesHelper t scoped insights
    = graph_of <$> NewGraphModel truncateRunesHelper t issues insights
  ∧ graph_of <$> SetIssues truncateRunesHelper t g scoped insights
    = graph_of <$> SetIssues truncateRunesHelper t g issues insights
  ∧ (∀ n p, p ∈ prerequisites_in (initial_model issues insights) n →
       p ∈ Model.ID <$> issues)
  ∧ (∀ g' e, NewGraphModel truncateRunesHelper t issues insights = Some g' →
       e ∈ GraphModel.edges g' →
       ∃ a b, index (GraphModel.nodes g') (graphEdge.from e) = Some a
            ∧ index (GraphModel.nodes g') (graphEdge.to e) = Some b
            ∧ graphNode.id a ∈ Model.ID <$> issues
            ∧ graphNode.id b ∈ Model.ID <$> issues).
Proof.
  intros scoped. split_and!.
  - apply buildGraph_total.
  - apply buildGraph_total.
  - apply initial_layer_map_erase, removable_known.
  - apply NewGraphModel_erase, removable_known.
  - apply SetIssues_erase, removable_known.
  - intros n p Hp. unfold prerequisites_in, prerequisites in Hp.
    apply list_elem_of_filter in Hp as [Hp _]. simpl in Hp.
    by apply index_issues_present.
  - intros g' e Hg' He.
    destruct (buildGraph_edges _ _ _ _ _ Hg' He) as (_ & Hfrom & Hto).
    assert (∀ i, 0 ≤ i < Z.of_nat (length (GraphModel.nodes g')) →
              ∃ a, index (GraphModel.nodes g') i = Some a
                   ∧ graphNode.id a ∈ Model.ID <$> issues) as Hnode.
    { intros i Hi. unfold index. destruct (Z.ltb_spec i 0); [lia|].
      destruct (lookup_lt_is_Some_2 (GraphModel.nodes g') (Z.to_nat i)) as [a Ha]; [lia|].
      exists a. split; [done|]. apply index_issues_present.
      apply (buildGraph_nodes _ _ _ _ _ Hg'). by eapply list_elem_of_lookup_2. }
    destruct (Hnode _ Hfrom) as (a & ? & ?). destruct (Hnode _ Hto) as (b & ? & ?).
    by exists a, b.
Qed.

(** *** C8 *)

(** The edges one issue gives rise to, for the node indices [idx]: one
    for each of its structural dependencies whose two ends have an index,
    in the order listed. *)
Definition listed_edges (idx : gmap string Z) (issue : Model.Issue) : list graphEdge.t :=
  match idx !! Model.ID issue with
  | None => []
  | Some dependentIdx =>
      omap (λ dep,
        if structural dep
        then (λ dependencyIdx,
                {| graphEdge.from := dependencyIdx; graphEdge.to := dependentIdx;
                   graphEdge.depType := Model.Type_ dep |})
             <$> idx !! Model.DependsOnID dep
        else None) (Model.Dependencies issue)
  end.

Lemma edges_of_issue_listed (idx : gmap string Z) (issue : Model.Issue)
    (edges : list graphEdge.t) :
  edges_of_issue idx issue edges = edges ++ listed_edges idx issue.
Proof.
  unfold edges_of_issue, listed_edges.
  destruct (idx !! Model.ID issue) as [dependentIdx|]; [|by rewrite app_nil_r].
  revert edges. induction (Model.Dependencies issue) as [|dep deps IH]; intros edges;
    simpl; [by rewrite app_nil_r|].
  rewrite IH. destruct (structural dep); simpl; [|done].
  destruct (idx !! Model.DependsOnID dep); simpl; [|done].
  by rewrite <-app_assoc.
Qed.

Lemma build_edges_listed (idx : gmap string Z) (issues : list Model.Issue) :
  build_edges idx issues = flat_map (listed_edges idx) issues.
Proof.
  unfold build_edges.
  assert (∀ edges, fold_left (λ edges issue, edges_of_issue idx issue edges) issues edges
                   = edges ++ flat_map (listed_edges idx) issues) as Hgen.
  { induction issues as [|i issues IH]; intros edges; simpl; [by rewrite app_nil_r|].
    by rewrite IH, edges_of_issue_listed, <-app_assoc. }
  by rewrite Hgen.
Qed.

(** The neighbour B appears twice in the adjacency list of A, and the
    edge from B to A twice in the edge list. *)
Lemma duplicates_kept :
  adjacency (initial_model duplicated None) !!! "A" = ["B"; "B"]
  ∧ ¬ NoDup (adjacency (initial_model duplicated None) !!! "A")
  ∧ ∃ g, @NewGraphModel reference_runtime identity_title 0 duplicated None = Some g
         ∧ GraphModel.edges g
           = [ {| graphEdge.from := 0; graphEdge.to := 1; graphEdge.depType := "blocks" |};
               {| graphEdge.from := 0; graphEdge.to := 1; graphEdge.depType := "blocks" |} ]
         ∧ ¬ NoDup (GraphModel.edges g).
Proof.
  assert (adjacency (initial_model duplicated None) !!! "A" = ["B"; "B"]) as HA
    by (vm_compute; reflexivity).
  split; [done|]. split.
  { rewrite HA. intros Hnd. apply NoDup_cons in Hnd as [Hnin _]. apply Hnin. by left. }
  destruct (@NewGraphModel reference_runtime identity_title 0 duplicated None)
    as [g|] eqn:Hg; [|by vm_compute in Hg].
  exists g. split; [done|].
  assert (GraphModel.edges g
          = [ {| graphEdge.from := 0; graphEdge.to := 1; graphEdge.depType := "blocks" |};
              {| graphEdge.from := 0; graphEdge.to := 1; graphEdge.depType := "blocks" |} ])
    as HE by (vm_compute in Hg; by simplify_eq).
  split; [done|]. rewrite HE.
  intros Hnd. apply NoDup_cons in Hnd as [Hnin _]. apply Hnin. by left.
Qed.

(** C8, as the code has it.  The graph builder keeps, for each
    identifier, the list of the targets of its structural dependencies in
    the order listed, without removing duplicates, and keeps no list of
    incoming sources; the edge list has one edge for each listed
    structural dependency whose two ends are nodes, a duplicate
    dependency giving a duplicate edge. *)
Theorem no_deduplication `{GoRuntime}
    (truncateRunesHelper : string → Z → string → string)
    (t : nat) (g g' : GraphModel.t) :
  buildGraph truncateRunesHelper t g = Some g' →
  (∀ n, adjacency g !!! n = listed_for n (GraphModel.issues g))
  ∧ ∃ idx : gmap string Z,
      (∀ id i, idx !! id = Some i →
         ∃ node, index (GraphModel.nodes g') i = Some node ∧ graphNode.id node = id)
      ∧ (∀ issue, issue ∈ GraphModel.issues g →
           is_Some (GraphModel.issueMap g !! Model.ID issue) →
           is_Some (idx !! Model.ID issue))
      ∧ GraphModel.edges g' = flat_map (listed_edges idx) (GraphModel.issues g).
Proof.
  intros Hg'. split; [apply adjacency_lookup|].
  unfold buildGraph in Hg'. case_bool_decide as Hlen.
  { simplify_eq. exists ∅. apply length_zero_iff_nil in Hlen. rewrite Hlen.
    split_and!; [intros ??; by rewrite lookup_empty|by intros ? ?%elem_of_nil|done]. }
  destruct (layer_map_spec t g) as (L & HL & Hmemo & Hall & _).
  rewrite HL in Hg'. simplify_eq. simpl.
  set (p := place_all truncateRunesHelper (t + 1) (GraphModel.issueMap g) L).
  exists (p_index p). split_and!; [| |apply build_edges_listed].
  - intros id i Hi.
    destruct (place_all_ok truncateRunesHelper (GraphModel.issueMap g) (t + 1) L)
      as [Hidx _].
    destruct (Hidx id i Hi) as (_ & Hrange & node & Hnode & Hid).
    exists node. split; [|done]. unfold index.
    destruct (Z.ltb_spec i 0); [lia|done].
  - intros issue Hin HM. destruct (Hall issue Hin) as [l Hl].
    eapply place_all_index; [done|by eapply memo_ok_nonneg|done].
Qed.

Lemma no_deduplication_witness :
  ∃ g, @NewGraphModel reference_runtime identity_title 0 duplicated None = Some g
       ∧ (∀ n, adjacency (initial_model duplicated None) !!! n
               = listed_for n duplicated)
       ∧ length (GraphModel.edges g) = 2%nat.
Proof.
  destruct (@NewGraphModel reference_runtime identity_title 0 duplicated None)
    as [g|] eqn:Hg; [|by vm_compute in Hg].
  exists g. split; [done|].
  destruct (@no_deduplication reference_runtime identity_title 0%nat
              (initial_model duplicated None) g Hg) as [Hadj _].
  split; [exact Hadj|]. vm_compute in Hg. by simplify_eq.
Defined.

(** *** C10 *)

(** The selection is a valid node index whenever there are nodes. *)
Definition selection_ok (g : GraphModel.t) : Prop :=
  0 ≤ GraphModel.selectedNode g
  ∧ (GraphModel.nodes g ≠ [] →
     GraphModel.selectedNode g < Z.of_nat (length (GraphModel.nodes g))).

(** Every node stands for an issue of the node set. *)
Definition nodes_known (g : GraphModel.t) : Prop :=
  ∀ node, node ∈ GraphModel.nodes g →
    is_Some (GraphModel.issueMap g !! graphNode.id node).

(** The models a program can hold: built by [NewGraphModel], then updated
    by [SetIssues] and the navigation methods. *)
Inductive reachable `{GoRuntime}
    (truncateRunesHelper : string → Z → string → string) : GraphModel.t → Prop :=
  | reach_new t issues insights g :
      NewGraphModel truncateRunesHelper t issues insights = Some g →
      reachable truncateRunesHelper g
  | reach_set t g issues insights g' :
      reachable truncateRunesHelper g →
      SetIssues truncateRunesHelper t g issues insights = Some g' →
      reachable truncateRunesHelper g'
  | reach_up g g' :
      reachable truncateRunesHelper g → MoveUp g = Some g' →
      reachable truncateRunesHelper g'
  | reach_down g g' :
      reachable truncateRunesHelper g → MoveDown g = Some g' →
      reachable truncateRunesHelper g'
  | reach_left g :
      reachable truncateRunesHelper g → reachable truncateRunesHelper (MoveLeft g)
  | reach_right g :
      reachable truncateRunesHelper g → reachable truncateRunesHelper (MoveRight g).

Lemma scan_down_bound (nodes : list graphNode.t) (l : Z) (start : nat) (i : Z) :
  scan_down nodes l start = Some i →
  0 ≤ i < Z.of_nat start ∧ i < Z.of_nat (length nodes).
Proof.
  induction start as [|k IH]; simpl; [done|].
  destruct (nodes !! k) as [node|] eqn:Hk; [|done].
  case_bool_decide.
  - intros [= <-]. apply lookup_lt_Some in Hk. lia.
  - intros Hi. apply IH in Hi. lia.
Qed.

Lemma scan_up_bound (rest : list graphNode.t) (l : Z) (start : nat) (i : Z) :
  scan_up rest l start = Some i →
  Z.of_nat start ≤ i < Z.of_nat start + Z.of_nat (length rest).
Proof.
  revert start. induction rest as [|node rest IH]; intros start; simpl; [done|].
  case_bool_decide.
  - intros [= <-]. lia.
  - intros Hi. apply IH in Hi. lia.
Qed.

Lemma select_ok (g : GraphModel.t) (i : Z) :
  0 ≤ i < Z.of_nat (length (GraphModel.nodes g)) → selection_ok (select g i).
Proof. intros Hi. split; simpl; [lia|intros _; lia]. Qed.

Lemma index_in_bounds {A} (l : list A) (i : Z) :
  0 ≤ i < Z.of_nat (length l) → is_Some (index l i).
Proof.
  intros Hi. unfold index. destruct (Z.ltb_spec i 0); [lia|].
  apply lookup_lt_is_Some_2. lia.
Qed.

Lemma selection_index (g : GraphModel.t) :
  selection_ok g → GraphModel.nodes g ≠ [] →
  0 ≤ GraphModel.selectedNode g < Z.of_nat (length (GraphModel.nodes g)).
Proof. intros [H0 Hlt] Hne. split; [done|by apply Hlt]. Qed.

Lemma buildGraph_selection `{GoRuntime}
    (truncateRunesHelper : string → Z → string → string)
    (t : nat) (g g' : GraphModel.t) :
  0 ≤ GraphModel.selectedNode g →
  buildGraph truncateRunesHelper t g = Some g' → selection_ok g'.
Proof.
  intros H0. unfold buildGraph. case_bool_decide.
  { intros [= <-]. by split. }
  destruct (layer_map t g) as [L|]; [|done]. intros [= <-].
  unfold selection_ok. simpl.
  set (nodes := p_nodes (place_all truncateRunesHelper (t + 1) (GraphModel.issueMap g) L)).
  destruct (Z.leb_spec (Z.of_nat (length nodes)) (GraphModel.selectedNode g)).
  - split; [done|]. intros Hne. destruct nodes; [done|]. simpl. lia.
  - split; [done|]. intros _. lia.
Qed.

Lemma MoveUp_ok (g : GraphModel.t) :
  selection_ok g → ∃ g', MoveUp g = Some g' ∧ selection_ok g'
    ∧ GraphModel.nodes g' = GraphModel.nodes g
    ∧ GraphModel.issueMap g' = GraphModel.issueMap g.
Proof.
  intros Hg. unfold MoveUp. case_bool_decide as Hlen; [by exists g|].
  assert (GraphModel.nodes g ≠ []) as Hne by (by intros E; rewrite E in Hlen).
  pose proof (selection_index g Hg Hne) as Hsel.
  destruct (index_in_bounds _ _ Hsel) as [current ->].
  destruct (scan_down _ _ (Z.to_nat _)) as [i|] eqn:Hscan.
  { apply scan_down_bound in Hscan. eexists. split; [done|].
    split; [apply select_ok; lia|done]. }
  destruct (0 <? graphNode.layer current); [|by exists g].
  destruct (scan_down _ _ (length _)) as [i|] eqn:Hscan'; [|by exists g].
  apply scan_down_bound in Hscan'. eexists. split; [done|].
  split; [apply select_ok; lia|done].
Qed.

Lemma MoveDown_ok (g : GraphModel.t) :
  selection_ok g → ∃ g', MoveDown g = Some g' ∧ selection_ok g'
    ∧ GraphModel.nodes g' = GraphModel.nodes g
    ∧ GraphModel.issueMap g' = GraphModel.issueMap g.
Proof.
  intros Hg. unfold MoveDown. case_bool_decide as Hlen; [by exists g|].
  assert (GraphModel.nodes g ≠ []) as Hne by (by intros E; rewrite E in Hlen).
  pose proof (selection_index g Hg Hne) as Hsel.
  destruct (index_in_bounds _ _ Hsel) as [current ->].
  destruct (scan_up (drop _ _) _ _) as [i|] eqn:Hscan.
  { apply scan_up_bound in Hscan. rewrite length_drop in Hscan.
    eexists. split; [done|]. split; [apply select_ok; lia|done]. }
  destruct (scan_up _ _ 0) as [i|] eqn:Hscan'; [|by exists g].
  apply scan_up_bound in Hscan'. eexists. split; [done|].
  split; [apply select_ok; lia|done].
Qed.

Lemma MoveLeft_ok (g : GraphModel.t) : selection_ok g → selection_ok (MoveLeft g).
Proof.
  intros [H0 Hlt]. unfold MoveLeft. destruct (Z.ltb_spec 0 (GraphModel.selectedNode g)).
  - split; simpl; [lia|]. intros Hne. specialize (Hlt Hne). lia.
  - by split.
Qed.

Lemma MoveRight_ok (g : GraphModel.t) : selection_ok g → selection_ok (MoveRight g).
Proof.
  intros [H0 Hlt]. unfold MoveRight.
  destruct (Z.ltb_spec (GraphModel.selectedNode g)
              (Z.of_nat (length (GraphModel.nodes g)) - 1)).
  - split; simpl; [lia|]. intros _. lia.
  - by split.
Qed.

Lemma reachable_ok `{GoRuntime}
    (truncateRunesHelper : string → Z → string → string) (g : GraphModel.t) :
  reachable truncateRunesHelper g → selection_ok g ∧ nodes_known g.
Proof.
  induction 1 as [t issues insights g Hnew|t g issues insights g' _ [[H0 _] _] Hset
                 |g g' _ [Hsel Hknown] Hup|g g' _ [Hsel Hknown] Hdown
                 |g _ [Hsel Hknown]|g _ [Hsel Hknown]].
  - split; [by eapply buildGraph_selection; [|done]|].
    intros node Hnode. destruct (buildGraph_issueMap _ _ _ _ Hnew) as [-> _].
    by eapply buildGraph_nodes.
  - split; [by eapply buildGraph_selection; [|done]|].
    intros node Hnode. destruct (buildGraph_issueMap _ _ _ _ Hset) as [-> _].
    by eapply buildGraph_nodes.
  - destruct (MoveUp_ok g Hsel) as (g'' & Hg'' & Hsel' & Hn & Hm).
    rewrite Hup in Hg''. simplify_eq. split; [done|].
    unfold nodes_known. by rewrite Hn, Hm.
  - destruct (MoveDown_ok g Hsel) as (g'' & Hg'' & Hsel' & Hn & Hm).
    rewrite Hdown in Hg''. simplify_eq. split; [done|].
    unfold nodes_known. by rewrite Hn, Hm.
  - split; [by apply MoveLeft_ok|]. unfold MoveLeft.
    by destruct (0 <? GraphModel.selectedNode g).
  - split; [by apply MoveRight_ok|]. unfold MoveRight.
    by destruct (GraphModel.selectedNode g <? _).
Qed.

Lemma SelectedIssue_ok (g : GraphModel.t) :
  selection_ok g → nodes_known g →
  ∃ r, SelectedIssue g = Some r ∧ (r = None ↔ GraphModel.nodes g = []).
Proof.
  intros Hsel Hknown. unfold SelectedIssue.
  case_bool_decide as Hlen; simpl.
  { exists None. split; [done|]. split; [|done]. intros _.
    by apply length_zero_iff_nil. }
  assert (GraphModel.nodes g ≠ []) as Hne by (by intros E; rewrite E in Hlen).
  pose proof (selection_index g Hsel Hne) as Hi.
  destruct (Z.leb_spec (Z.of_nat (length (GraphModel.nodes g)))
              (GraphModel.selectedNode g)); [lia|].
  destruct (index_in_bounds _ _ Hi) as [node Hnode]. rewrite Hnode.
  destruct (Hknown node) as [issue Hissue].
  { unfold index in Hnode. destruct (_ <? 0); [done|].
    by eapply list_elem_of_lookup_2. }
  exists (Some issue). rewrite Hissue. split; [done|]. split; done.
Qed.

(** C10.  In every model built by [NewGraphModel] and updated by
    [SetIssues], [MoveUp], [MoveDown], [MoveLeft] and [MoveRight], the
    selection is never negative and, when there are nodes, below their
    number; the navigation methods do not run out of range; and
    [SelectedIssue] returns without a panic, [nil] exactly when there are
    no nodes. *)
Theorem selection_in_bounds `{GoRuntime}
    (truncateRunesHelper : string → Z → string → string) (g : GraphModel.t) :
  reachable truncateRunesHelper g →
  0 ≤ GraphModel.selectedNode g
  ∧ (GraphModel.nodes g ≠ [] →
     GraphModel.selectedNode g < Z.of_nat (length (GraphModel.nodes g)))
  ∧ is_Some (MoveUp g) ∧ is_Some (MoveDown g)
  ∧ ∃ r, SelectedIssue g = Some r ∧ (r = None ↔ GraphModel.nodes g = []).
Proof.
  intros Hg. destruct (reachable_ok _ g Hg) as [Hsel Hknown].
  destruct Hsel as [H0 Hlt]. split_and!; [done|done| | |].
  - destruct (MoveUp_ok g) as (g' & -> & _); done.
  - destruct (MoveDown_ok g) as (g' & -> & _); done.
  - by apply SelectedIssue_ok.
Qed.

(** The chain, built, with the selection moved right. *)
Lemma selection_in_bounds_witness :
  ∃ g, @reachable reference_runtime identity_title g
       ∧ GraphModel.selectedNode g = 1
       ∧ 0 ≤ GraphModel.selectedNode g
       ∧ is_Some (MoveDown g).
Proof.
  destruct (@NewGraphModel reference_runtime identity_title 0
              (GraphModel.issues chain) None) as [g|] eqn:Hg; [|by vm_compute in Hg].
  assert (@reachable reference_runtime identity_title (MoveRight g)) as Hreach
    by (apply reach_right; by eapply reach_new).
  exists (MoveRight g). split; [done|].
  split; [vm_compute in Hg; by simplify_eq|].
  destruct (@selection_in_bounds reference_runtime identity_title (MoveRight g) Hreach)
    as (H0 & _ & _ & Hdown & _).
  by split.
Defined.

End UIFacts.

(** ** More on the insights aggregator *)

Module AnalysisMore.
Import Go GoFacts Analysis AnalysisFacts.

(** X1.  [getTopItems] itself has no "no limit" case: with a limit of zero or
    less its loop does not run and the result is the empty slice, whatever
    the map holds.  (Only [GenerateInsights] replaces such a limit.) *)
Theorem getTopItems_nonpositive_limit `{GoRuntime} (t : nat)
    (m : gmap string float64) (limit : Z) :
  limit ≤ 0 → getTopItems t m limit = Slice [].
Proof.
  intros Hlimit. rewrite getTopItems_Slice.
  replace (Z.to_nat limit) with 0%nat by lia. by rewrite take_0.
Qed.

Lemma getTopItems_nonpositive_limit_witness :
  -3 ≤ 0 ∧ @getTopItems reference_runtime 0 tie_map (-3) = Slice [].
Proof.
  split; [lia|].
  apply (@getTopItems_nonpositive_limit reference_runtime 0%nat tie_map (-3)). lia.
Defined.

(** X2.  Whatever the values are, not-a-number included, the result lists
    entries of the map, no identifier twice, and never more than the
    limit. *)
Theorem getTopItems_entries `{GoRuntime} (t : nat) (m : gmap string float64)
    (limit : Z) :
  NoDup (ID <$> elems (getTopItems t m limit))
  ∧ (∀ it, it ∈ elems (getTopItems t m limit) → m !! ID it = Some (Value it))
  ∧ len (getTopItems t m limit) ≤ Z.max 0 limit
  ∧ len (getTopItems t m limit) ≤ Z.of_nat (size m).
Proof.
  unfold len. rewrite getTopItems_elems. split_and!.
  - rewrite <-list_fmap_compose.
    assert (ID ∘ to_item = kv.Key) as -> by done.
    rewrite fmap_take. eapply sublist_NoDup; [apply sorted_entries_keys|].
    apply sublist_take.
  - intros it. by apply ranked_elem_of.
  - rewrite ranked_length. lia.
  - rewrite ranked_length. lia.
Qed.

(** X3.  For a map of numbers, a shorter ranking is the beginning of a longer
    one, also when the two are computed by different runs. *)
Theorem getTopItems_prefix (R1 R2 : GoRuntime) (t1 t2 : nat)
    (m : gmap string float64) (n n' : Z) :
  no_NaN m → n ≤ n' →
  elems (@getTopItems R1 t1 m n) `prefix_of` elems (@getTopItems R2 t2 m n').
Proof.
  intros Hm Hn. rewrite !getTopItems_elems.
  rewrite (sorted_entries_unique R1 R2 t1 t2 m Hm).
  exists (to_item <$> drop (Z.to_nat n) (take (Z.to_nat n') (@sorted_entries R2 t2 m))).
  rewrite <-fmap_app. f_equal.
  rewrite <-(take_drop (Z.to_nat n) (take (Z.to_nat n') (@sorted_entries R2 t2 m))) at 1.
  f_equal. rewrite take_take. f_equal. lia.
Qed.

Lemma getTopItems_prefix_witness :
  no_NaN tie_map ∧ 1 ≤ 3
  ∧ elems (@getTopItems reference_runtime 0 tie_map 1)
    `prefix_of` elems (@getTopItems reversed_runtime 5 tie_map 3).
Proof.
  split; [exact tie_map_no_NaN|]. split; [lia|].
  apply (getTopItems_prefix reference_runtime reversed_runtime 0 5 tie_map 1 3);
    [exact tie_map_no_NaN|lia].
Defined.

(** X4.  With a limit of zero or less, [GenerateInsights] cuts every list at
    the size of the PageRank map: a list is complete only if its map is
    no larger than that one, and an empty PageRank map empties all five
    lists. *)
Theorem GenerateInsights_cut_at_PageRank `{GoRuntime} (t : nat)
    (s : GraphStats.t) (limit : Z) :
  limit ≤ 0 →
  Forall2 (λ m l, length (elems l) = (size (GraphStats.PageRank s) `min` size m)%nat)
    (ranked_metrics s) (ranked_lists (GenerateInsights t s limit))
  ∧ (GraphStats.PageRank s = ∅ →
     Forall (λ l, l = Slice []) (ranked_lists (GenerateInsights t s limit))).
Proof.
  intros Hlimit. unfold ranked_metrics, ranked_lists, GenerateInsights. simpl.
  rewrite (proj2 (Z.leb_le _ _) Hlimit). split.
  - repeat (apply Forall2_cons; split;
      [rewrite getTopItems_elems, ranked_length; lia|]).
    constructor.
  - intros ->. rewrite map_size_empty.
    repeat (apply Forall_cons; split;
      [rewrite getTopItems_Slice; by rewrite take_0|]).
    constructor.
Qed.

(** Statistics whose PageRank map is empty while the others are not. *)
Definition no_pagerank_stats : GraphStats.t :=
  {| GraphStats.PageRank := ∅;
     GraphStats.Betweenness := tie_map;
     GraphStats.CriticalPathScore := tie_map;
     GraphStats.Eigenvector := tie_map;
     GraphStats.Hubs := tie_map;
     GraphStats.Authorities := tie_map;
     GraphStats.Cycles := SliceNil;
     GraphStats.Density := f64_one |}.

Lemma GenerateInsights_cut_at_PageRank_witness :
  0 ≤ 0
  ∧ Forall (λ l, l = Slice [])
      (ranked_lists (@GenerateInsights reference_runtime 0 no_pagerank_stats 0)).
Proof.
  split; [lia|].
  by apply (@GenerateInsights_cut_at_PageRank reference_runtime 0%nat
              no_pagerank_stats 0).
Defined.

End AnalysisMore.

(** ** More on the graph view: the shape of the built graph *)

Module UIMore.
Import Go GoFacts UI UIFacts.

#[local] Set Warnings "-clear-no-such-hyp".

(** *** Groups of identifiers *)

(** The identifiers the entries put in layer [k], in the order of the
    entries. *)
Definition in_layer (k : Z) (entries : list (string * Z)) : list string :=
  (filter (λ e, e.2 = k) entries).*1.

Lemma group_by_layer_lookup (entries : list (string * Z)) (k : Z) :
  (group_by_layer entries).1 !! k
  = match in_layer k entries with [] => None | ids => Some ids end.
Proof.
  unfold group_by_layer, in_layer.
  assert (∀ acc : gmap Z (list string) * Z,
    (fold_left (λ '(layerGroups, maxLayer) '(id, layer),
       (<[layer := (layerGroups !!! layer) ++ [id]]> layerGroups,
        if maxLayer <? layer then layer else maxLayer)) entries acc).1 !! k
    = match acc.1 !! k, (filter (λ e, e.2 = k) entries).*1 with
      | None, [] => None
      | o, ids => Some (default [] o ++ ids)
      end) as Hgen.
  { induction entries as [|[id layer] entries IH]; intros [groups maxLayer]; simpl.
    - destruct (groups !! k); simpl; [by rewrite app_nil_r|done].
    - rewrite IH. simpl. destruct (decide (layer = k)) as [->|Hne].
      + rewrite filter_cons_True by done. rewrite lookup_insert_eq.
        rewrite lookup_total_alt. simpl.
        destruct (groups !! k); simpl; [by rewrite <-app_assoc|done].
      + rewrite filter_cons_False by done. by rewrite lookup_insert_ne. }
  rewrite Hgen. simpl. rewrite lookup_empty.
  by destruct ((filter (λ e, e.2 = k) entries).*1).
Qed.

Lemma group_by_layer_total (entries : list (string * Z)) (k : Z) :
  (group_by_layer entries).1 !!! k = in_layer k entries.
Proof.
  rewrite lookup_total_alt, group_by_layer_lookup.
  by destruct (in_layer k entries).
Qed.

Lemma in_layer_perm (k : Z) (e1 e2 : list (string * Z)) :
  e1 ≡ₚ e2 → in_layer k e1 ≡ₚ in_layer k e2.
Proof. intros He. unfold in_layer. by rewrite He. Qed.

Lemma in_layer_NoDup (k : Z) (entries : list (string * Z)) :
  NoDup entries.*1 → NoDup (in_layer k entries).
Proof.
  intros Hnd. unfold in_layer. eapply sublist_NoDup; [done|].
  apply fmap_sublist, sublist_filter.
Qed.

Lemma elem_of_in_layer (k : Z) (entries : list (string * Z)) (id : string) :
  id ∈ in_layer k entries ↔ (id, k) ∈ entries.
Proof.
  unfold in_layer. rewrite list_elem_of_fmap. split.
  - intros ([id' k'] & -> & [Hk Hin]%list_elem_of_filter). simpl in *. by subst.
  - intros Hin. exists (id, k). split; [done|]. by apply list_elem_of_filter.
Qed.

(** The greatest layer: zero, or the layer of an entry, and no entry lies
    higher. *)
Lemma group_by_layer_max (entries : list (string * Z)) :
  let maxLayer := (group_by_layer entries).2 in
  0 ≤ maxLayer
  ∧ (∀ id k, (id, k) ∈ entries → k ≤ maxLayer)
  ∧ (maxLayer = 0 ∨ ∃ id, (id, maxLayer) ∈ entries).
Proof.
  unfold group_by_layer.
  assert (∀ acc : gmap Z (list string) * Z,
    let r := (fold_left (λ '(layerGroups, maxLayer) '(id, layer),
       (<[layer := (layerGroups !!! layer) ++ [id]]> layerGroups,
        if maxLayer <? layer then layer else maxLayer)) entries acc).2 in
    acc.2 ≤ r ∧ (∀ id k, (id, k) ∈ entries → k ≤ r)
    ∧ (r = acc.2 ∨ ∃ id, (id, r) ∈ entries)) as Hgen.
  { induction entries as [|[id layer] entries IH]; intros [groups maxLayer]; simpl.
    - split_and!; [done|by intros ?? ?%elem_of_nil|by left].
    - destruct (IH (<[layer := (groups !!! layer) ++ [id]]> groups,
                    if maxLayer <? layer then layer else maxLayer))
        as (Hge & Hle & Hor). simpl in *.
      destruct (Z.ltb_spec maxLayer layer).
      + split_and!; [lia| |].
        * intros id' k [E|Hk]%elem_of_cons; [simplify_eq; lia|by eapply Hle].
        * destruct Hor as [->|[id' Hin]]; right; [exists id; by left|].
          exists id'. by right.
      + split_and!; [lia| |].
        * intros id' k [E|Hk]%elem_of_cons; [simplify_eq; lia|by eapply Hle].
        * destruct Hor as [->|[id' Hin]]; [by left|right]. exists id'. by right. }
  destruct (Hgen (∅, 0)) as (? & ? & ?). done.
Qed.

Lemma group_by_layer_max_perm (e1 e2 : list (string * Z)) :
  e1 ≡ₚ e2 → (group_by_layer e1).2 = (group_by_layer e2).2.
Proof.
  intros He.
  destruct (group_by_layer_max e1) as (H01 & Hle1 & Hor1).
  destruct (group_by_layer_max e2) as (H02 & Hle2 & Hor2).
  revert H01 Hle1 Hor1 H02 Hle2 Hor2.
  generalize (group_by_layer e1).2, (group_by_layer e2).2.
  intros m1 m2 H01 Hle1 Hor1 H02 Hle2 Hor2. apply Z.le_antisymm.
  - destruct Hor1 as [->|[id Hin]]; [done|]. rewrite He in Hin. by eapply Hle2.
  - destruct Hor2 as [->|[id Hin]]; [done|]. rewrite <-He in Hin. by eapply Hle1.
Qed.

(** *** Sorting identifiers *)

Lemma str_lt_consistent (l : list string) : less_consistent str_lt l.
Proof.
  split_and!.
  - intros x _. apply not_true_is_false. rewrite str_lt_spec.
    apply str_compare_lt_irrefl.
  - intros x y z _ _ _. rewrite !str_lt_spec. apply str_compare_lt_trans.
  - intros x y z _ _ _. rewrite <-!not_true_iff_false, !str_lt_spec.
    intros Hxy Hyz Hxz.
    destruct (str_trichotomy x y) as [?|[->|Hyx]]; [done|done|].
    apply Hyz. by eapply str_compare_lt_trans.
Qed.

Lemma sort_Strings_perm `{GoRuntime} (x : list string) : sort_Strings x ≡ₚ x.
Proof. apply sort_slice_perm. Qed.

(** [sort.Strings] has one possible result. *)
Lemma sort_Strings_unique (R1 R2 : GoRuntime) (x1 x2 : list string) :
  x1 ≡ₚ x2 → @sort_Strings R1 x1 = @sort_Strings R2 x2.
Proof.
  intros Hx. apply (StronglySorted_unique_strong (λ a b, str_lt b a = false)).
  - intros a b _ _ Hab Hba. apply not_true_iff_false in Hab, Hba.
    rewrite str_lt_spec in Hab, Hba.
    by destruct (str_trichotomy a b) as [?|[?|?]].
  - apply sort_slice_sorted, str_lt_consistent.
  - apply sort_slice_sorted, str_lt_consistent.
  - by rewrite !sort_Strings_perm.
Qed.

(** Distinct identifiers come out in strictly ascending order. *)
Lemma sort_Strings_ascending `{GoRuntime} (x : list string) :
  NoDup x → StronglySorted (λ a b, String.compare a b = Lt) (sort_Strings x).
Proof.
  intros Hnd. rewrite <-sort_Strings_perm in Hnd.
  pose proof (sort_slice_sorted _ str_lt x (str_lt_consistent x)) as Hs.
  unfold slice_sorted in Hs. fold (sort_Strings x) in Hs.
  induction Hs as [|a l Hs IH Ha]; [constructor|].
  apply NoDup_cons in Hnd as [Hnin Hnd]. constructor; [by apply IH|].
  rewrite Forall_forall in Ha. apply Forall_forall. intros b Hb.
  specialize (Ha b Hb). apply not_true_iff_false in Ha. rewrite str_lt_spec in Ha.
  destruct (str_trichotomy a b) as [?|[->|?]]; done.
Qed.

(** *** The placement does not depend on the runtime *)

Lemma place_all_groups `{GoRuntime}
    (truncateRunesHelper : string → Z → string → string) (t : nat)
    (M : gmap string Model.Issue) (L : gmap string Z) :
  place_all truncateRunesHelper t M L
  = fold_left
      (place_layer truncateRunesHelper M
         (sort_Strings <$> (group_by_layer (map_range t L)).1))
      (seqZ 0 ((group_by_layer (map_range t L)).2 + 1))
      {| p_nodes := [];
         p_layers := replicate (Z.to_nat ((group_by_layer (map_range t L)).2 + 1)) [];
         p_index := ∅ |}.
Proof. unfold place_all. by destruct (group_by_layer (map_range t L)). Qed.

Lemma sorted_groups_runtime (R1 R2 : GoRuntime) (t1 t2 : nat) (L : gmap string Z) :
  @sort_Strings R1 <$> (group_by_layer (@map_range R1 _ _ _ _ t1 L)).1
  = @sort_Strings R2 <$> (group_by_layer (@map_range R2 _ _ _ _ t2 L)).1.
Proof.
  apply map_eq. intros k. rewrite !lookup_fmap, !group_by_layer_lookup.
  assert (in_layer k (@map_range R1 _ _ _ _ t1 L)
          ≡ₚ in_layer k (@map_range R2 _ _ _ _ t2 L)) as Hperm
    by (apply in_layer_perm; by rewrite !map_range_perm).
  destruct (in_layer k (@map_range R1 _ _ _ _ t1 L)) as [|a x1] eqn:E1.
  { apply Permutation_nil in Hperm. by rewrite Hperm. }
  destruct (in_layer k (@map_range R2 _ _ _ _ t2 L)) as [|b x2] eqn:E2.
  { symmetry in Hperm. by apply Permutation_nil in Hperm. }
  simpl. f_equal. by apply sort_Strings_unique.
Qed.

(** Given the layers, the nodes, their positions and their indices are
    the same in every run. *)
Lemma place_all_runtime (R1 R2 : GoRuntime)
    (truncateRunesHelper : string → Z → string → string) (t1 t2 : nat)
    (M : gmap string Model.Issue) (L : gmap string Z) :
  @place_all R1 truncateRunesHelper t1 M L = @place_all R2 truncateRunesHelper t2 M L.
Proof.
  rewrite !place_all_groups.
  rewrite (sorted_groups_runtime R1 R2 t1 t2 L).
  rewrite (group_by_layer_max_perm (@map_range R1 _ _ _ _ t1 L)
             (@map_range R2 _ _ _ _ t2 L)) by (by rewrite !map_range_perm).
  done.
Qed.

(** *** The layers of a graph without cycles *)

Lemma Forall2_impl_elem {A B} (P Q : A → B → Prop) (l : list A) (k : list B) :
  Forall2 P l k → (∀ x y, x ∈ l → y ∈ k → P x y → Q x y) → Forall2 Q l k.
Proof.
  induction 1 as [|x y l k Hxy _ IH]; intros HPQ; constructor.
  - apply HPQ; [by left|by left|done].
  - apply IH. intros x' y' ??. apply HPQ; by right.
Qed.

Lemma Forall2_lookup_functional (L : gmap string Z) (ps : list string) (cs cs' : list Z) :
  Forall2 (λ p c, L !! p = Some c) ps cs →
  Forall2 (λ p c, L !! p = Some c) ps cs' → cs = cs'.
Proof.
  intros H1. revert cs'. induction H1 as [|p c ps cs Hp _ IH]; intros cs' H2.
  - by apply Forall2_nil_inv_l in H2.
  - apply Forall2_cons_inv_l in H2 as (c' & cs'' & Hp' & H2 & ->).
    f_equal; [congruence|by apply IH].
Qed.

(** Where nothing lies on a cycle, the recorded layers are determined by
    the identifiers that have one. *)
Lemma memo_ok_unique (d : gmap string (list string)) (M : gmap string Model.Issue)
    (L1 L2 : gmap string Z) :
  memo_ok d M L1 → memo_ok d M L2 → dom L1 = dom L2 →
  (∀ n, ¬ on_cycle d M n) → L1 = L2.
Proof.
  intros H1 H2 Hdom Hacyclic.
  assert (∀ (k : nat) n l1, L1 !! n = Some l1 → (Z.to_nat l1 < k)%nat →
            L2 !! n = Some l1) as Hind.
  { induction k as [|k IH]; intros n l1 Hn Hk; [lia|].
    destruct (H1 n l1 Hn) as (cs1 & Hcs1 & ->).
    assert (is_Some (L2 !! n)) as [l2 Hn2].
    { apply elem_of_dom. rewrite <-Hdom. apply elem_of_dom. by eexists. }
    destruct (H2 n l2 Hn2) as (cs2 & Hcs2 & ->).
    rewrite Hn2. assert (cs2 = cs1) as ->; [|done].
    apply (Forall2_lookup_functional L2 (prerequisites d M n)).
    - eapply Forall2_impl; [exact Hcs2|]. intros p c [?|[_ ?]]; [done|].
      by destruct (Hacyclic n).
    - eapply Forall2_impl_elem; [exact Hcs1|]. intros p c _ Hc [Hp|[_ ?]];
        [|by destruct (Hacyclic n)].
      apply IH; [done|].
      pose proof (memo_ok_nonneg _ _ _ _ _ H1 Hp).
      pose proof (max_from_ge (-1) cs1 c Hc). lia. }
  apply map_eq. intros n. destruct (L1 !! n) as [l1|] eqn:Hn.
  - symmetry. by eapply (Hind (S (Z.to_nat l1))); [|lia].
  - symmetry. apply not_elem_of_dom. rewrite <-Hdom. by apply not_elem_of_dom.
Qed.

(** The node set holds issues of the list only. *)
Definition coherent (g : GraphModel.t) : Prop :=
  dom (GraphModel.issueMap g) ⊆ list_to_set (Model.ID <$> GraphModel.issues g).

Definition acyclic (g : GraphModel.t) : Prop := ∀ n, ¬ cyclic g n.

Lemma layer_map_dom `{GoRuntime} (t : nat) (g : GraphModel.t) (L : gmap string Z) :
  coherent g → layer_map t g = Some L →
  dom L = list_to_set (Model.ID <$> GraphModel.issues g).
Proof.
  intros Hg HL. destruct (layer_map_spec t g) as (L' & HL' & _ & Hall & Hdom).
  rewrite HL in HL'. simplify_eq. apply set_eq. intros id. split.
  - intros Hid. apply Hdom in Hid. apply elem_of_union in Hid as [?|?]; [done|].
    by apply Hg.
  - intros (issue & -> & Hin)%elem_of_list_to_set%list_elem_of_fmap.
    by apply elem_of_dom, Hall.
Qed.

Lemma layer_map_runtime (R1 R2 : GoRuntime) (t1 t2 : nat) (g : GraphModel.t) :
  coherent g → acyclic g → @layer_map R1 t1 g = @layer_map R2 t2 g.
Proof.
  intros Hg Hacyclic.
  destruct (@layer_map_spec R1 t1 g) as (L1 & HL1 & Hm1 & _).
  destruct (@layer_map_spec R2 t2 g) as (L2 & HL2 & Hm2 & _).
  rewrite HL1, HL2. f_equal.
  apply (memo_ok_unique (adjacency g) (GraphModel.issueMap g)); [done|done| |done].
  by rewrite (@layer_map_dom R1 t1 g L1), (@layer_map_dom R2 t2 g L2).
Qed.

Lemma buildGraph_runtime (R1 R2 : GoRuntime)
    (truncateRunesHelper : string → Z → string → string)
    (t1 t2 : nat) (g : GraphModel.t) :
  coherent g → acyclic g →
  @buildGraph R1 truncateRunesHelper t1 g = @buildGraph R2 truncateRunesHelper t2 g.
Proof.
  intros Hg Hacyclic. unfold buildGraph. case_bool_decide; [done|].
  rewrite (layer_map_runtime R1 R2 t1 t2 g) by done.
  destruct (@layer_map R2 t2 g) as [L|]; [|done].
  by rewrite (place_all_runtime R1 R2 truncateRunesHelper (t1 + 1) (t2 + 1)).
Qed.

Lemma initial_model_coherent (issues : list Model.Issue)
    (insights : option Analysis.Insights) :
  coherent (initial_model issues insights).
Proof. unfold coherent. simpl. by rewrite index_issues_dom. Qed.

(** X5.  The built graph of issues without dependency cycles does not depend
    on the order in which maps are visited nor on the sorting algorithm:
    any two runs of [NewGraphModel] give the same nodes, positions, edges
    and selection. *)
Theorem NewGraphModel_deterministic (R1 R2 : GoRuntime)
    (truncateRunesHelper : string → Z → string → string)
    (t1 t2 : nat) (issues : list Model.Issue) (insights : option Analysis.Insights) :
  acyclic (initial_model issues insights) →
  @NewGraphModel R1 truncateRunesHelper t1 issues insights
  = @NewGraphModel R2 truncateRunesHelper t2 issues insights.
Proof.
  intros Hacyclic. unfold NewGraphModel.
  apply buildGraph_runtime; [apply initial_model_coherent|done].
Qed.

Lemma chain_acyclic : acyclic chain.
Proof.
  intros n Hn. pose proof Hn as (y & Hy & _)%tc_first.
  unfold depends, prerequisites in Hy. apply list_elem_of_filter in Hy as [_ Hy].
  fold (adjacency chain) in Hy. rewrite adjacency_lookup in Hy.
  unfold listed_for in Hy. simpl in Hy.
  repeat case_decide; simplify_eq; simpl in Hy;
    try (by apply elem_of_nil in Hy).
  - by apply chain_reach_B in Hn.
  - by apply chain_reach_C in Hn as [?|?].
  - by apply chain_reach_D in Hn as [?|[?|?]].
Qed.

Lemma NewGraphModel_deterministic_witness :
  acyclic chain
  ∧ @NewGraphModel reference_runtime identity_title 0 (GraphModel.issues chain) None
    = @NewGraphModel reversed_runtime identity_title 3 (GraphModel.issues chain) None.
Proof.
  split; [exact chain_acyclic|].
  exact (NewGraphModel_deterministic reference_runtime reversed_runtime
           identity_title 0 3 (GraphModel.issues chain) None chain_acyclic).
Defined.

(** *** The nodes, one by one *)

(** The node [buildGraph] makes for [issue] at place [i] of layer
    [layer]. *)
Definition new_node (truncateRunesHelper : string → Z → string → string)
    (issue : Model.Issue) (id : string) (layer : Z) (i : nat) : graphNode.t :=
  {| graphNode.id := id;
     graphNode.title := truncateRunesHelper (Model.Title issue) (nodeWidth - 4) "…";
     graphNode.x := Z.of_nat i * (nodeWidth + horizontalGap);
     graphNode.y := layer * (nodeHeight + verticalGap);
     graphNode.width := nodeWidth; graphNode.height := nodeHeight;
     graphNode.layer := layer;
     graphNode.status := Model.Status issue;
     graphNode.itype := Model.IssueType issue |}.

(** The nodes made for the identifiers [ids] of one layer, the first of
    them at place [i]. *)
Fixpoint placed (truncateRunesHelper : string → Z → string → string)
    (M : gmap string Model.Issue) (layer : Z) (ids : list string) (i : nat)
  : list graphNode.t :=
  match ids with
  | [] => []
  | id :: rest =>
      match M !! id with
      | Some issue => [new_node truncateRunesHelper issue id layer i]
      | None => []
      end ++ placed truncateRunesHelper M layer rest (S i)
  end.

Lemma StronglySorted_lookup_2 {A} (R : relation A) (l : list A) :
  (∀ i j x y, l !! i = Some x → l !! j = Some y → (i < j)%nat → R x y) →
  StronglySorted R l.
Proof.
  induction l as [|a l IH]; intros Hl; constructor.
  - apply IH. intros i j x y Hi Hj Hij. apply (Hl (S i) (S j)); [done|done|lia].
  - apply Forall_forall. intros y [j Hj]%list_elem_of_lookup.
    apply (Hl 0%nat (S j)); [done|done|lia].
Qed.

Lemma seqZ_ascending (m n : Z) : StronglySorted Z.lt (seqZ m n).
Proof.
  apply StronglySorted_lookup_2. intros i j x y Hi Hj Hij.
  apply lookup_seqZ in Hi as [-> _], Hj as [-> _]. lia.
Qed.

Lemma StronglySorted_bind {A B} (S : relation A) (R : relation B)
    (f : A → list B) (ls : list A) :
  StronglySorted S ls →
  (∀ l, l ∈ ls → StronglySorted R (f l)) →
  (∀ l1 l2 x y, S l1 l2 → x ∈ f l1 → y ∈ f l2 → R x y) →
  StronglySorted R (ls ≫= f).
Proof.
  intros Hls Hin Hacross. induction Hls as [|l ls Hls IH Hl]; [constructor|].
  rewrite bind_cons. apply StronglySorted_app_2.
  - intros x y Hx (l2 & Hy & Hl2)%list_elem_of_bind.
    rewrite Forall_forall in Hl. by eapply Hacross; [apply Hl| |].
  - apply Hin. by left.
  - apply IH. intros l' Hl'. apply Hin. by right.
Qed.

Lemma fmap_bind_list {A B C} (g : B → C) (f : A → list B) (l : list A) :
  g <$> (l ≫= f) = l ≫= λ x, g <$> f x.
Proof.
  induction l as [|a l IH]; [done|]. by rewrite !bind_cons, fmap_app, IH.
Qed.

Section Placed.
Context `{GoRuntime}.
Variable truncateRunesHelper : string → Z → string → string.
Variable M : gmap string Model.Issue.

Lemma place_ids_placed (layer : Z) (ids : list string) (i : nat) (p : Placement) :
  p_nodes (place_ids truncateRunesHelper M layer ids i p)
  = p_nodes p ++ placed truncateRunesHelper M layer ids i.
Proof.
  revert i p. induction ids as [|id ids IH]; intros i p; simpl.
  - by rewrite app_nil_r.
  - rewrite IH. unfold place_node. destruct (M !! id); simpl.
    + by rewrite <-app_assoc.
    + done.
Qed.

Lemma place_layers_placed (groups : gmap Z (list string)) (ls : list Z) (p : Placement) :
  p_nodes (fold_left (place_layer truncateRunesHelper M groups) ls p)
  = p_nodes p ++ (ls ≫= λ l, placed truncateRunesHelper M l (groups !!! l) 0).
Proof.
  revert p. induction ls as [|l ls IH]; intros p.
  - simpl. by rewrite app_nil_r.
  - rewrite bind_cons, app_assoc. cbn [fold_left]. rewrite IH. f_equal.
    unfold place_layer. by rewrite place_ids_placed.
Qed.

(** The identifiers of layer [l], sorted: the row of the graph. *)
Definition row (t : nat) (L : gmap string Z) (l : Z) : list string :=
  sort_Strings (in_layer l (map_range t L)).

Lemma place_all_placed (t : nat) (L : gmap string Z) :
  p_nodes (place_all truncateRunesHelper t M L)
  = seqZ 0 ((group_by_layer (map_range t L)).2 + 1)
      ≫= λ l, placed truncateRunesHelper M l (row t L l) 0.
Proof.
  rewrite place_all_groups, place_layers_placed. simpl.
  apply list_bind_ext; [|done]. intros l. f_equal.
  rewrite lookup_total_alt, lookup_fmap, group_by_layer_lookup. unfold row.
  destruct (in_layer l (map_range t L)) as [|a ids]; simpl; [|done].
  symmetry. apply Permutation_nil_r, sort_slice_perm.
Qed.

Lemma elem_of_row (t : nat) (L : gmap string Z) (l : Z) (id : string) :
  id ∈ row t L l ↔ L !! id = Some l.
Proof.
  unfold row. rewrite sort_Strings_perm, elem_of_in_layer, map_range_perm.
  apply elem_of_map_to_list.
Qed.

Lemma row_NoDup (t : nat) (L : gmap string Z) (l : Z) : NoDup (row t L l).
Proof.
  unfold row. rewrite sort_Strings_perm. apply in_layer_NoDup.
  rewrite map_range_perm. apply NoDup_fst_map_to_list.
Qed.

Lemma row_ascending (t : nat) (L : gmap string Z) (l : Z) :
  StronglySorted (λ a b, String.compare a b = Lt) (row t L l).
Proof.
  apply sort_Strings_ascending, in_layer_NoDup.
  rewrite map_range_perm. apply NoDup_fst_map_to_list.
Qed.

Lemma elem_of_placed (layer : Z) (ids : list string) (i : nat) (node : graphNode.t) :
  node ∈ placed truncateRunesHelper M layer ids i ↔
  ∃ j issue, ids !! j = Some (graphNode.id node)
             ∧ M !! graphNode.id node = Some issue
             ∧ node = new_node truncateRunesHelper issue (graphNode.id node)
                        layer (i + j).
Proof.
  revert i. induction ids as [|id ids IH]; intros i; simpl.
  { split; [by intros ?%elem_of_nil|by intros (j & ? & ? & _)]. }
  rewrite elem_of_app, IH. split.
  - intros [Hn|(j & issue & Hj & HM & Hn)].
    + destruct (M !! id) as [issue|] eqn:Hid; [|by apply elem_of_nil in Hn].
      apply list_elem_of_singleton in Hn as ->. exists 0%nat, issue. simpl.
      by rewrite Nat.add_0_r.
    + exists (S j), issue. split_and!; [done|done|].
      by replace (i + S j)%nat with (S i + j)%nat by lia.
  - intros ([|j] & issue & Hj & HM & Hn).
    + left. simpl in Hj. simplify_eq. rewrite HM. apply list_elem_of_singleton.
      rewrite Hn at 1. by rewrite Nat.add_0_r.
    + right. exists j, issue. split_and!; [done|done|].
      by replace (S i + j)%nat with (i + S j)%nat by lia.
Qed.

Lemma placed_ids (layer : Z) (ids : list string) (i : nat) :
  graphNode.id <$> placed truncateRunesHelper M layer ids i
  = filter (present M) ids.
Proof.
  revert i. induction ids as [|id ids IH]; intros i; simpl; [done|].
  rewrite fmap_app, IH. unfold present. destruct (M !! id) eqn:Hid.
  - by rewrite filter_cons_True by (by rewrite Hid).
  - by rewrite filter_cons_False by (rewrite Hid; by intros [? ?]).
Qed.

(** Each node of the placement is the node of an issue of the node set,
    at the place of its identifier in the row of its layer. *)
Lemma elem_of_place_all (t : nat) (L : gmap string Z) (node : graphNode.t) :
  node ∈ p_nodes (place_all truncateRunesHelper t M L) →
  ∃ (j : nat) issue,
    0 ≤ graphNode.layer node
    ∧ row t L (graphNode.layer node) !! j = Some (graphNode.id node)
    ∧ M !! graphNode.id node = Some issue
    ∧ node = new_node truncateRunesHelper issue (graphNode.id node)
               (graphNode.layer node) j.
Proof.
  rewrite place_all_placed.
  intros (l & (j & issue & Hj & HM & Hn)%elem_of_placed & Hl%elem_of_seqZ)%list_elem_of_bind.
  assert (graphNode.layer node = l) as -> by (by rewrite Hn).
  exists j, issue. split_and!; [lia|done|done|done].
Qed.

Lemma place_all_ids_NoDup (t : nat) (L : gmap string Z) :
  NoDup (graphNode.id <$> p_nodes (place_all truncateRunesHelper t M L)).
Proof.
  rewrite place_all_placed, fmap_bind_list.
  apply NoDup_bind.
  - intros l1 l2 id _ _. rewrite !placed_ids.
    intros [_ H1%elem_of_row]%list_elem_of_filter [_ H2%elem_of_row]%list_elem_of_filter.
    congruence.
  - intros l _. rewrite placed_ids. apply NoDup_filter, row_NoDup.
  - apply NoDup_seqZ.
Qed.

(** The order of the nodes: by layer, and within a layer by identifier. *)
Definition node_before (a b : graphNode.t) : Prop :=
  graphNode.layer a < graphNode.layer b
  ∨ (graphNode.layer a = graphNode.layer b
     ∧ String.compare (graphNode.id a) (graphNode.id b) = Lt).

Lemma placed_ascending (layer : Z) (ids : list string) (i : nat) :
  StronglySorted (λ a b, String.compare a b = Lt) ids →
  StronglySorted node_before (placed truncateRunesHelper M layer ids i).
Proof.
  intros Hs. revert i. induction Hs as [|id ids Hs IH Hid]; intros i; simpl;
    [constructor|].
  apply StronglySorted_app_2; [| |apply IH].
  - intros a b Ha (j & issue & Hj & _ & Hb)%elem_of_placed.
    destruct (M !! id); [|by apply elem_of_nil in Ha].
    apply list_elem_of_singleton in Ha as ->. right. rewrite Hb. simpl.
    split; [done|]. rewrite Forall_forall in Hid. apply Hid.
    by eapply list_elem_of_lookup_2.
  - destruct (M !! id); repeat constructor.
Qed.

Lemma place_all_ascending (t : nat) (L : gmap string Z) :
  StronglySorted node_before (p_nodes (place_all truncateRunesHelper t M L)).
Proof.
  rewrite place_all_placed. apply (StronglySorted_bind Z.lt).
  - apply seqZ_ascending.
  - intros l _. apply placed_ascending, row_ascending.
  - intros l1 l2 a b Hl (j1 & i1 & _ & _ & ->)%elem_of_placed
      (j2 & i2 & _ & _ & ->)%elem_of_placed. by left.
Qed.

End Placed.

(** *** What a built graph looks like *)

Lemma buildGraph_inv `{GoRuntime}
    (truncateRunesHelper : string → Z → string → string)
    (t : nat) (g g' : GraphModel.t) :
  buildGraph truncateRunesHelper t g = Some g' →
  (GraphModel.issues g = [] ∧ GraphModel.nodes g' = [] ∧ GraphModel.edges g' = [])
  ∨ ∃ L, layer_map t g = Some L
      ∧ memo_ok (adjacency g) (GraphModel.issueMap g) L
      ∧ (∀ issue, issue ∈ GraphModel.issues g → is_Some (L !! Model.ID issue))
      ∧ GraphModel.nodes g'
        = p_nodes (place_all truncateRunesHelper (t + 1) (GraphModel.issueMap g) L)
      ∧ GraphModel.edges g'
        = build_edges
            (p_index (place_all truncateRunesHelper (t + 1) (GraphModel.issueMap g) L))
            (GraphModel.issues g).
Proof.
  intros Hg. unfold buildGraph in Hg. case_bool_decide as Hlen.
  - left. simplify_eq. simpl. by apply length_zero_iff_nil in Hlen.
  - right. destruct (layer_map_spec t g) as (L & HL & Hmemo & Hall & _).
    rewrite HL in Hg. simplify_eq. by exists L.
Qed.




(** X7.  The nodes of a built graph are listed layer by layer from the top,
    and within a layer by ascending identifier. *)
Theorem buildGraph_nodes_ordered `{GoRuntime}
    (truncateRunesHelper : string → Z → string → string)
    (t : nat) (g : GraphModel.t) :
  ∃ g', buildGraph truncateRunesHelper t g = Some g'
        ∧ StronglySorted node_before (GraphModel.nodes g').
Proof.
  destruct (buildGraph_total truncateRunesHelper t g) as [g' Hg]. exists g'.
  split; [done|].
  destruct (buildGraph_inv _ _ _ _ Hg) as [(_ & -> & _)|(L & _ & _ & _ & -> & _)];
    [constructor|apply place_all_ascending].
Qed.

Lemma index_issues_snoc (issues : list Model.Issue) (issue : Model.Issue) :
  index_issues (issues ++ [issue]) = <[Model.ID issue := issue]> (index_issues issues).
Proof. unfold index_issues. by rewrite fold_left_app. Qed.

(** The issue an identifier stands for is the last one of the list that
    carries it. *)
Lemma index_issues_last (issues : list Model.Issue) (id : string) (issue : Model.Issue) :
  index_issues issues !! id = Some issue →
  ∃ pre post, issues = pre ++ issue :: post ∧ Model.ID issue = id
              ∧ id ∉ (Model.ID <$> post).
Proof.
  induction issues as [|i issues IH] using rev_ind; [done|].
  rewrite index_issues_snoc, lookup_insert. case_decide as Hid.
  - intros [= <-]. exists issues, []. split_and!; [done|done|]. apply not_elem_of_nil.
  - intros (pre & post & -> & Hi & Hpost)%IH.
    exists pre, (post ++ [i]). split_and!; [by rewrite <-app_assoc|done|].
    rewrite fmap_app, elem_of_app. intros [?|Hin]; [done|].
    apply list_elem_of_singleton in Hin. congruence.
Qed.

(** X8.  [NewGraphModel] makes one node for every identifier that occurs among
    the issues, however often it occurs: the identifiers of the nodes are
    those of the issues, each once, which is what [TotalCount] counts; and
    a node shows the title (cut to the box), the status and the type of
    the last issue that carries its identifier. *)
Theorem NewGraphModel_one_node_per_id `{GoRuntime}
    (truncateRunesHelper : string → Z → string → string)
    (t : nat) (issues : list Model.Issue) (insights : option Analysis.Insights) :
  ∃ g', NewGraphModel truncateRunesHelper t issues insights = Some g'
    ∧ NoDup (graphNode.id <$> GraphModel.nodes g')
    ∧ (∀ id, id ∈ graphNode.id <$> GraphModel.nodes g' ↔ id ∈ Model.ID <$> issues)
    ∧ Screen.TotalCount g' = Z.of_nat (length (remove_dups (Model.ID <$> issues)))
    ∧ ∀ node, node ∈ GraphModel.nodes g' →
        ∃ pre issue post,
          issues = pre ++ issue :: post
          ∧ Model.ID issue = graphNode.id node
          ∧ (graphNode.id node ∉ Model.ID <$> post)
          ∧ graphNode.title node
            = truncateRunesHelper (Model.Title issue) (nodeWidth - 4) "…"
          ∧ graphNode.status node = Model.Status issue
          ∧ graphNode.itype node = Model.IssueType issue.
Proof.
  unfold NewGraphModel.
  destruct (buildGraph_total truncateRunesHelper t (initial_model issues insights))
    as [g' Hg].
  exists g'. split; [done|].
  assert (NoDup (graphNode.id <$> GraphModel.nodes g')
          ∧ (∀ id, id ∈ graphNode.id <$> GraphModel.nodes g' ↔ id ∈ Model.ID <$> issues)
          ∧ ∀ node, node ∈ GraphModel.nodes g' →
              ∃ issue k, index_issues issues !! graphNode.id node = Some issue
                ∧ node = new_node truncateRunesHelper issue (graphNode.id node)
                           (graphNode.layer node) k) as (Hnodup & Hids & Hnodes).
  { destruct (buildGraph_inv _ _ _ _ Hg) as [(E & -> & _)|(L & _ & Hmemo & Hall & -> & _)];
      simpl in *.
    - rewrite E. split_and!; [constructor|done|by intros ? ?%elem_of_nil].
    - split_and!.
      + apply place_all_ids_NoDup.
      + intros id. split.
        * intros (node & -> & Hn)%list_elem_of_fmap.
          apply elem_of_place_all in Hn as (k & issue & _ & _ & HM & _).
          apply index_issues_present. by rewrite HM.
        * intros Hid. pose proof Hid as (issue & -> & Hin)%list_elem_of_fmap.
          destruct (Hall issue Hin) as [l Hl].
          destruct (place_all_covers truncateRunesHelper (index_issues issues) (t + 1)
                      L (Model.ID issue) l Hl) as (node & Hn & <- & _).
          { by eapply memo_ok_nonneg. }
          { by apply index_issues_present. }
          apply list_elem_of_fmap. by exists node.
      + intros node (k & issue & _ & _ & HM & Hn)%elem_of_place_all.
        by exists issue, k. }
  split_and!; [done|done| |].
  - unfold Screen.TotalCount. f_equal.
    rewrite <-(length_fmap graphNode.id). apply Permutation_length.
    apply NoDup_Permutation; [done|apply NoDup_remove_dups|].
    intros id. by rewrite Hids, elem_of_remove_dups.
  - intros node Hn. destruct (Hnodes node Hn) as (issue & k & HM & E).
    destruct (index_issues_last _ _ _ HM) as (pre & post & ? & ? & ?).
    exists pre, issue, post. by rewrite E.
Qed.

Lemma elem_of_listed_for (issues : list Model.Issue) (issue : Model.Issue)
    (dep : Model.Dependency) :
  issue ∈ issues → dep ∈ Model.Dependencies issue → structural dep = true →
  Model.DependsOnID dep ∈ listed_for (Model.ID issue) issues.
Proof.
  intros Hi Hd Hs. unfold listed_for. apply list_elem_of_In, in_flat_map.
  exists issue. split; [by apply list_elem_of_In|].
  rewrite decide_True by done. apply list_elem_of_In.
  unfold structural_targets. apply list_elem_of_fmap. exists dep.
  split; [done|]. by apply list_elem_of_filter.
Qed.

(** X9.  Every edge of a built graph leads from the node of a prerequisite to
    the node of the issue that lists it as a structural dependency; and
    unless that issue lies on a dependency cycle, the edge points
    downwards: the prerequisite sits in a higher row, a gap or more above
    the dependent. *)
Theorem buildGraph_edges_point_down `{GoRuntime}
    (truncateRunesHelper : string → Z → string → string)
    (t : nat) (g g' : GraphModel.t) (e : graphEdge.t) :
  buildGraph truncateRunesHelper t g = Some g' → e ∈ GraphModel.edges g' →
  ∃ a b issue dep,
    index (GraphModel.nodes g') (graphEdge.from e) = Some a
    ∧ index (GraphModel.nodes g') (graphEdge.to e) = Some b
    ∧ issue ∈ GraphModel.issues g ∧ dep ∈ Model.Dependencies issue
    ∧ structural dep = true ∧ graphEdge.depType e = Model.Type_ dep
    ∧ graphNode.id a = Model.DependsOnID dep ∧ graphNode.id b = Model.ID issue
    ∧ (¬ cyclic g (Model.ID issue) →
       graphNode.layer a < graphNode.layer b
       ∧ graphNode.y a + graphNode.height a + verticalGap ≤ graphNode.y b).
Proof.
  intros Hg He.
  destruct (buildGraph_inv _ _ _ _ Hg) as [(_ & _ & E)|(L & _ & Hmemo & _ & En & Ee)];
    [rewrite E in He; by apply elem_of_nil in He|].
  rewrite Ee in He. rewrite En.
  apply elem_of_build_edges in He as (issue & dep & Hi & Hd & Hs & Hto & Hfrom & Hty).
  destruct (place_all_ok truncateRunesHelper (GraphModel.issueMap g) (t + 1) L)
    as [Hidx _].
  destruct (Hidx _ _ Hto) as (_ & Hbt & b & Hb & Eb).
  destruct (Hidx _ _ Hfrom) as (HMa & Hbf & a & Ha & Ea).
  exists a, b, issue, dep.
  assert (∀ i, 0 ≤ i → index (p_nodes (place_all truncateRunesHelper (t + 1)
                                         (GraphModel.issueMap g) L)) i
                        = p_nodes (place_all truncateRunesHelper (t + 1)
                                     (GraphModel.issueMap g) L) !! Z.to_nat i) as Hindex.
  { intros i Hi0. unfold index. destruct (Z.ltb_spec i 0); [lia|done]. }
  rewrite !Hindex by lia. split_and!; try done.
  intros Hnc.
  pose proof (list_elem_of_lookup_2 _ _ _ Ha) as Hain.
  pose proof (list_elem_of_lookup_2 _ _ _ Hb) as Hbin.
  pose proof (place_all_nodes _ _ _ _ _ Hain) as HLa.
  pose proof (place_all_nodes _ _ _ _ _ Hbin) as HLb.
  rewrite Ea in HLa. rewrite Eb in HLb.
  destruct (memo_ok_recurrence _ _ _ _ _ Hmemo HLb) as [_ Hrec].
  destruct (Hrec Hnc) as [Hpre _].
  destruct (Hpre (Model.DependsOnID dep)) as (c & Hc & Hlt).
  { unfold prerequisites. apply list_elem_of_filter. split; [done|].
    fold (adjacency g). rewrite adjacency_lookup. by apply elem_of_listed_for. }
  rewrite HLa in Hc. simplify_eq.
  apply elem_of_place_all in Hain as (ka & ia & _ & _ & _ & Ena).
  apply elem_of_place_all in Hbin as (kb & ib & _ & _ & _ & Enb).
  split; [lia|]. rewrite Ena, Enb. simpl.
  unfold nodeHeight, verticalGap. lia.
Qed.

Lemma buildGraph_edges_point_down_witness :
  ∃ g' e a b,
    @buildGraph reference_runtime identity_title 0 chain = Some g'
    ∧ e ∈ GraphModel.edges g'
    ∧ index (GraphModel.nodes g') (graphEdge.from e) = Some a
    ∧ index (GraphModel.nodes g') (graphEdge.to e) = Some b
    ∧ graphNode.id a = "A" ∧ graphNode.id b = "B".
Proof.
  destruct (@buildGraph reference_runtime identity_title 0 chain) as [g'|] eqn:Hg;
    [|by vm_compute in Hg].
  assert ({| graphEdge.from := 0; graphEdge.to := 1; graphEdge.depType := "blocks" |}
          ∈ GraphModel.edges g') as He.
  { vm_compute in Hg. simplify_eq. simpl. by left. }
  destruct (@buildGraph_edges_point_down reference_runtime identity_title 0 chain g' _
              Hg He) as (a & b & issue & dep & Ha & Hb & _).
  exists g', {| graphEdge.from := 0; graphEdge.to := 1; graphEdge.depType := "blocks" |},
    a, b.
  split_and!; [done|exact He|exact Ha|exact Hb| |].
  - vm_compute in Hg. simplify_eq. vm_compute in Ha. by simplify_eq.
  - vm_compute in Hg. simplify_eq. vm_compute in Hb. by simplify_eq.
Defined.

(** *** Moving up and down in a built graph *)

Lemma StronglySorted_lookup_1 {A} (R : relation A) (l : list A) (i j : nat) (x y : A) :
  StronglySorted R l → l !! i = Some x → l !! j = Some y → (i < j)%nat → R x y.
Proof.
  intros Hl. revert i j. induction Hl as [|a l Hl IH Ha]; intros i j Hi Hj Hij.
  { by rewrite lookup_nil in Hi. }
  destruct j as [|j]; [lia|]. destruct i as [|i].
  - simpl in Hi, Hj. simplify_eq. rewrite Forall_forall in Ha. apply Ha.
    by eapply list_elem_of_lookup_2.
  - simpl in Hi, Hj. apply (IH i j); [done|done|lia].
Qed.

Lemma scan_down_Some (nodes : list graphNode.t) (l : Z) (start k : nat)
    (a : graphNode.t) :
  (k < start)%nat → (start ≤ length nodes)%nat →
  nodes !! k = Some a → graphNode.layer a = l →
  (∀ i b, (k < i < start)%nat → nodes !! i = Some b → graphNode.layer b ≠ l) →
  scan_down nodes l start = Some (Z.of_nat k).
Proof.
  intros Hk Hlen Ha Hl. induction start as [|s IH]; intros Hother; [lia|].
  simpl. destruct (decide (k = s)) as [->|Hks].
  - rewrite Ha. by rewrite bool_decide_eq_true_2.
  - destruct (lookup_lt_is_Some_2 nodes s) as [b Hb]; [lia|]. rewrite Hb.
    rewrite bool_decide_eq_false_2 by (apply (Hother s); [lia|done]).
    apply IH; [lia|lia|]. intros i c Hi. apply Hother. lia.
Qed.

Lemma scan_down_None (nodes : list graphNode.t) (l : Z) (start : nat) :
  (start ≤ length nodes)%nat →
  (∀ i b, (i < start)%nat → nodes !! i = Some b → graphNode.layer b ≠ l) →
  scan_down nodes l start = None.
Proof.
  induction start as [|s IH]; intros Hlen Hother; [done|]. simpl.
  destruct (lookup_lt_is_Some_2 nodes s) as [b Hb]; [lia|]. rewrite Hb.
  rewrite bool_decide_eq_false_2 by (apply (Hother s); [lia|done]).
  apply IH; [lia|]. intros i c Hi. apply Hother. lia.
Qed.

Lemma scan_up_Some (rest : list graphNode.t) (l : Z) (start k : nat)
    (a : graphNode.t) :
  rest !! k = Some a → graphNode.layer a = l →
  (∀ i b, (i < k)%nat → rest !! i = Some b → graphNode.layer b ≠ l) →
  scan_up rest l start = Some (Z.of_nat (start + k)).
Proof.
  revert start k. induction rest as [|b rest IH]; intros start k Ha Hl Hother.
  { by rewrite lookup_nil in Ha. }
  simpl. destruct k as [|k].
  - simpl in Ha. simplify_eq. rewrite bool_decide_eq_true_2 by done.
    by rewrite Nat.add_0_r.
  - rewrite bool_decide_eq_false_2 by (apply (Hother 0%nat); [lia|done]).
    rewrite (IH (S start) k); [f_equal; lia|done|done|].
    intros i c Hi. apply (Hother (S i)). lia.
Qed.

Lemma scan_up_None (rest : list graphNode.t) (l : Z) (start : nat) :
  (∀ b, b ∈ rest → graphNode.layer b ≠ l) → scan_up rest l start = None.
Proof.
  revert start. induction rest as [|b rest IH]; intros start Hother; [done|].
  simpl. rewrite bool_decide_eq_false_2 by (apply Hother; by left).
  apply IH. intros c Hc. apply Hother. by right.
Qed.

(** The nodes are listed by layer, no layer is negative, and below every
    layer from the second on lies a node of the layer before. *)
Definition layered (nodes : list graphNode.t) : Prop :=
  StronglySorted (λ a b, graphNode.layer a ≤ graphNode.layer b) nodes
  ∧ (∀ a, a ∈ nodes → 0 ≤ graphNode.layer a)
  ∧ (∀ a, a ∈ nodes → 2 ≤ graphNode.layer a →
       ∃ b, b ∈ nodes ∧ graphNode.layer b = graphNode.layer a - 1).

Lemma StronglySorted_impl {A} (R S : relation A) (l : list A) :
  (∀ x y, R x y → S x y) → StronglySorted R l → StronglySorted S l.
Proof.
  intros HRS. induction 1 as [|a l _ IH Ha]; constructor; [done|].
  eapply Forall_impl; [done|]. intros y. apply HRS.
Qed.

Lemma buildGraph_layered `{GoRuntime}
    (truncateRunesHelper : string → Z → string → string)
    (t : nat) (g g' : GraphModel.t) :
  buildGraph truncateRunesHelper t g = Some g' → layered (GraphModel.nodes g').
Proof.
  intros Hg.
  destruct (buildGraph_inv _ _ _ _ Hg) as [(_ & -> & _)|(L & _ & Hmemo & _ & -> & _)].
  { split_and!; [constructor|by intros ? ?%elem_of_nil|by intros ? ?%elem_of_nil]. }
  split_and!.
  - eapply StronglySorted_impl; [|apply place_all_ascending].
    intros a b [?|[? _]]; lia.
  - by intros a (_ & _ & ? & _)%elem_of_place_all.
  - intros a Ha Hl. pose proof (place_all_nodes _ _ _ _ _ Ha) as HLa.
    destruct (Hmemo _ _ HLa) as (cs & Hcs & El).
    destruct (max_from_in (-1) cs) as [E|Hin]; [lia|].
    destruct (Forall2_elem_r _ _ _ _ Hcs Hin) as (p & Hp & [Hc|[E _]]); [|lia].
    unfold prerequisites in Hp. apply list_elem_of_filter in Hp as [HM _].
    destruct (place_all_covers truncateRunesHelper (GraphModel.issueMap g) (t + 1)
                L p _ Hc) as (b & Hb & _ & Eb); [lia|done|].
    exists b. split; [done|]. lia.
Qed.

Lemma reachable_layered `{GoRuntime}
    (truncateRunesHelper : string → Z → string → string) (g : GraphModel.t) :
  reachable truncateRunesHelper g → selection_ok g ∧ layered (GraphModel.nodes g).
Proof.
  induction 1 as [t issues insights g Hnew|t g issues insights g' _ [[H0 _] _] Hset
                 |g g' _ [Hsel Hl] Hup|g g' _ [Hsel Hl] Hdown
                 |g _ [Hsel Hl]|g _ [Hsel Hl]].
  - split; [by eapply buildGraph_selection; [|done]|by eapply buildGraph_layered].
  - split; [by eapply buildGraph_selection; [|done]|by eapply buildGraph_layered].
  - destruct (MoveUp_ok g Hsel) as (g'' & E & ? & En & _). rewrite E in Hup.
    simplify_eq. by rewrite En.
  - destruct (MoveDown_ok g Hsel) as (g'' & E & ? & En & _). rewrite E in Hdown.
    simplify_eq. by rewrite En.
  - split; [by apply MoveLeft_ok|]. unfold MoveLeft. by destruct (_ <? _).
  - split; [by apply MoveRight_ok|]. unfold MoveRight. by destruct (_ <? _).
Qed.

Lemma layered_up_is_left (g : GraphModel.t) :
  layered (GraphModel.nodes g) →
  0 ≤ GraphModel.selectedNode g < Z.of_nat (length (GraphModel.nodes g)) →
  MoveUp g = Some (MoveLeft g).
Proof.
  intros (Hsorted & Hnonneg & Hdense) Hsel.
  pose proof (λ i j x y, StronglySorted_lookup_1 _ _ i j x y Hsorted) as Hle.
  unfold MoveUp, MoveLeft.
  rewrite bool_decide_eq_false_2 by (intros E; rewrite E in Hsel; simpl in Hsel; lia).
  unfold index. destruct (Z.ltb_spec (GraphModel.selectedNode g) 0); [lia|].
  destruct (lookup_lt_is_Some_2 (GraphModel.nodes g)
              (Z.to_nat (GraphModel.selectedNode g))) as [current Hcur]; [lia|].
  rewrite Hcur.
  destruct (Z.to_nat (GraphModel.selectedNode g)) as [|m] eqn:En.
  - destruct (Z.ltb_spec 0 (GraphModel.selectedNode g)); [lia|]. simpl.
    destruct (0 <? graphNode.layer current); [|done].
    rewrite scan_down_None; [done|done|].
    intros i b _ Hb. destruct i as [|i]; [simplify_eq; lia|].
    assert (graphNode.layer current ≤ graphNode.layer b)
      by (apply (Hle 0%nat (S i)); [done|done|lia]).
    lia.
  - destruct (Z.ltb_spec 0 (GraphModel.selectedNode g)); [|lia].
    destruct (lookup_lt_is_Some_2 (GraphModel.nodes g) m) as [prev Hprev].
    { apply lookup_lt_Some in Hcur. lia. }
    assert (graphNode.layer prev ≤ graphNode.layer current) as Hpc
      by (apply (Hle m (S m)); [done|done|lia]).
    assert (Z.of_nat m = GraphModel.selectedNode g - 1) as Em by lia.
    destruct (decide (graphNode.layer prev = graphNode.layer current)) as [E|Hne].
    + cbn [scan_down]. rewrite Hprev, bool_decide_eq_true_2 by done. by rewrite Em.
    + rewrite scan_down_None.
      2:{ apply lookup_lt_Some in Hcur. lia. }
      2:{ intros i b Hi Hb. destruct (decide (i = m)) as [->|]; [by simplify_eq|].
          assert (graphNode.layer b ≤ graphNode.layer prev)
            by (apply (Hle i m); [done|done|lia]).
          lia. }
      assert (0 ≤ graphNode.layer prev)
        by (by eapply Hnonneg, list_elem_of_lookup_2).
      destruct (Z.ltb_spec 0 (graphNode.layer current)); [|lia].
      rewrite (scan_down_Some _ _ _ m prev); [by rewrite Em| |done|done| |].
      * apply lookup_lt_Some in Hcur. lia.
      * destruct (decide (2 ≤ graphNode.layer current)) as [Htwo|]; [|lia].
        destruct (Hdense current) as (b & [i Hb]%list_elem_of_lookup & Eb);
          [by eapply list_elem_of_lookup_2|done|].
        destruct (decide (i ≤ m)%nat) as [Him|Him].
        -- assert (graphNode.layer b ≤ graphNode.layer prev); [|lia].
           destruct (decide (i = m)) as [->|]; [by simplify_eq|].
           apply (Hle i m); [done|done|lia].
        -- assert (graphNode.layer current ≤ graphNode.layer b); [|lia].
           destruct (decide (i = S m)) as [->|]; [by simplify_eq|].
           apply (Hle (S m) i); [done|done|lia].
      * intros i b Hi Hb.
        assert (graphNode.layer current ≤ graphNode.layer b); [|lia].
        destruct (decide (i = S m)) as [->|]; [by simplify_eq|].
        apply (Hle (S m) i); [done|done|lia].
Qed.

Lemma layered_down_is_right (g : GraphModel.t) :
  layered (GraphModel.nodes g) →
  0 ≤ GraphModel.selectedNode g < Z.of_nat (length (GraphModel.nodes g)) →
  MoveDown g = Some (MoveRight g).
Proof.
  intros (Hsorted & Hnonneg & Hdense) Hsel.
  pose proof (λ i j x y, StronglySorted_lookup_1 _ _ i j x y Hsorted) as Hle.
  unfold MoveDown, MoveRight.
  rewrite bool_decide_eq_false_2 by (intros E; rewrite E in Hsel; simpl in Hsel; lia).
  unfold index. destruct (Z.ltb_spec (GraphModel.selectedNode g) 0); [lia|].
  set (n := Z.to_nat (GraphModel.selectedNode g)).
  assert (Z.of_nat n = GraphModel.selectedNode g) as En by (unfold n; lia).
  destruct (lookup_lt_is_Some_2 (GraphModel.nodes g) n) as [current Hcur]; [lia|].
  rewrite Hcur.
  assert (∀ i b, (i ≤ n)%nat → GraphModel.nodes g !! i = Some b →
                 graphNode.layer b ≤ graphNode.layer current) as Hbefore.
  { intros i b Hi Hb. destruct (decide (i = n)) as [->|]; [by simplify_eq|].
    apply (Hle i n); [done|done|lia]. }
  destruct (Z.ltb_spec (GraphModel.selectedNode g)
              (Z.of_nat (length (GraphModel.nodes g)) - 1)) as [Hlast|Hlast].
  - destruct (lookup_lt_is_Some_2 (GraphModel.nodes g) (S n)) as [next Hnext]; [lia|].
    assert (∀ i b, (S n ≤ i)%nat → GraphModel.nodes g !! i = Some b →
                   graphNode.layer next ≤ graphNode.layer b) as Hafter.
    { intros i b Hi Hb. destruct (decide (i = S n)) as [->|]; [by simplify_eq|].
      apply (Hle (S n) i); [done|done|lia]. }
    assert (graphNode.layer current ≤ graphNode.layer next) as Hcn
      by (apply (Hle n (S n)); [done|done|lia]).
    destruct (decide (graphNode.layer next = graphNode.layer current)) as [E|Hne].
    + rewrite (scan_up_Some _ _ _ 0%nat next); [|by rewrite lookup_drop, Nat.add_0_r|done|lia].
      do 2 f_equal. lia.
    + rewrite scan_up_None.
      2:{ intros b [i Hb]%list_elem_of_lookup. rewrite lookup_drop in Hb.
          assert (graphNode.layer next ≤ graphNode.layer b)
            by (apply (Hafter (S n + i)%nat); [lia|done]).
          lia. }
      rewrite (scan_up_Some _ _ _ (S n) next); [do 2 f_equal; lia|done| |].
      * destruct (decide (2 ≤ graphNode.layer next)) as [Htwo|].
        2:{ assert (0 ≤ graphNode.layer current)
              by (by eapply Hnonneg, list_elem_of_lookup_2).
            lia. }
        destruct (Hdense next) as (b & [i Hb]%list_elem_of_lookup & Eb);
          [by eapply list_elem_of_lookup_2|done|].
        destruct (decide (i ≤ n)%nat) as [Hin|Hin].
        -- pose proof (Hbefore i b Hin Hb). lia.
        -- assert (graphNode.layer next ≤ graphNode.layer b); [|lia].
           apply (Hafter i); [lia|done].
      * intros i b Hi Hb. assert (graphNode.layer b ≤ graphNode.layer current); [|lia].
        apply (Hbefore i); [lia|done].
  - rewrite drop_ge by lia. simpl.
    rewrite scan_up_None; [done|].
    intros b [i Hb]%list_elem_of_lookup.
    assert (graphNode.layer b ≤ graphNode.layer current); [|lia].
    apply (Hbefore i); [|done]. apply lookup_lt_Some in Hb. lia.
Qed.

(** X10.  On the graphs the program builds, moving up is moving left and moving
    down is moving right: the nodes are listed layer by layer without a
    gap between the layers, so the node that [MoveUp] looks for, the
    nearest earlier one of the same layer or else the last one of the
    layer above, is the node just before the selection, and the one that
    [MoveDown] looks for is the node just after it. *)
Theorem up_is_left_down_is_right `{GoRuntime}
    (truncateRunesHelper : string → Z → string → string) (g : GraphModel.t) :
  reachable truncateRunesHelper g → GraphModel.nodes g ≠ [] →
  MoveUp g = Some (MoveLeft g) ∧ MoveDown g = Some (MoveRight g).
Proof.
  intros Hg Hne. destruct (reachable_layered _ g Hg) as [Hsel Hl].
  pose proof (selection_index g Hsel Hne).
  split; [by apply layered_up_is_left|by apply layered_down_is_right].
Qed.

Lemma up_is_left_down_is_right_witness :
  ∃ g, @reachable reference_runtime identity_title g
       ∧ GraphModel.nodes g ≠ []
       ∧ MoveUp g = Some (MoveLeft g)
       ∧ GraphModel.selectedNode (MoveLeft g) = 0.
Proof.
  destruct (@NewGraphModel reference_runtime identity_title 0
              (GraphModel.issues chain) None) as [g|] eqn:Hg; [|by vm_compute in Hg].
  assert (@reachable reference_runtime identity_title (MoveRight g)) as Hreach
    by (apply reach_right; by eapply reach_new).
  assert (GraphModel.nodes (MoveRight g) ≠ []) as Hne
    by (vm_compute in Hg; by simplify_eq).
  exists (MoveRight g). split_and!; [done|done| |].
  - by destruct (@up_is_left_down_is_right reference_runtime identity_title
                   (MoveRight g) Hreach Hne).
  - vm_compute in Hg. by simplify_eq.
Defined.

End UIMore.

(** ** Facts about the agent instructions blurb *)

Module AgentsFacts.
Import Agents.

(** *** Prefixes and first instances *)

Lemma HasPrefix_spec (s p : list ascii) : HasPrefix s p = true ↔ ∃ k, s = p ++ k.
Proof.
  revert s. induction p as [|x p IH]; intros s.
  { destruct s; simpl; (split; [by eexists|done]). }
  destruct s as [|c s]; simpl; [split; [done|by intros [k ?]]|].
  rewrite andb_true_iff, Ascii.eqb_eq, IH. split.
  - intros [-> [k ->]]. by exists k.
  - intros [k E]. simplify_eq. split; [done|by exists k].
Qed.

Lemma HasPrefix_length (s p : list ascii) :
  HasPrefix s p = true → (length p ≤ length s)%nat.
Proof. intros [k ->]%HasPrefix_spec. rewrite length_app. lia. Qed.

Lemma HasPrefix_app (s p k : list ascii) :
  HasPrefix s p = true → HasPrefix (s ++ k) p = true.
Proof.
  intros [k' ->]%HasPrefix_spec. apply HasPrefix_spec. exists (k' ++ k).
  by rewrite <-app_assoc.
Qed.

(** A pattern without a line feed does not reach across one. *)
Lemma HasPrefix_LF (a b p : list ascii) :
  Forall (λ c, c ≠ LF) p → HasPrefix (a ++ LF :: b) p = HasPrefix a p.
Proof.
  intros Hp. revert a. induction Hp as [|x p Hx _ IH]; intros a; [by destruct a|].
  destruct a as [|c a].
  - change (Ascii.eqb LF x && HasPrefix b p = false).
    destruct (Ascii.eqb_spec LF x) as [E|_]; [by rewrite E in Hx|done].
  - simpl. by rewrite IH.
Qed.

Lemma index_from_range (s p : list ascii) (i : Z) :
  index_from s p i = -1
  ∨ (i ≤ index_from s p i ∧ index_from s p i + len p ≤ i + len s
     ∧ HasPrefix (drop (Z.to_nat (index_from s p i - i)) s) p = true).
Proof.
  revert i. induction s as [|c s IH]; intros i; cbn [index_from].
  - destruct (HasPrefix [] p) eqn:E; [|by left]. right.
    apply HasPrefix_length in E. unfold len. rewrite Z.sub_diag. simpl in *.
    split_and!; [lia|lia|]. destruct p; [done|simpl in E; lia].
  - destruct (HasPrefix (c :: s) p) eqn:E.
    + right. rewrite Z.sub_diag. pose proof (HasPrefix_length _ _ E).
      unfold len. split_and!; [lia|lia|done].
    + destruct (IH (i + 1)) as [->|(H1 & H2 & H3)]; [by left|right].
      unfold len in *. simpl. split_and!; [lia|lia|].
      replace (Z.to_nat (index_from s p (i + 1) - i))
        with (S (Z.to_nat (index_from s p (i + 1) - (i + 1)))) by lia.
      done.
Qed.

Lemma index_from_shift (s p : list ascii) (i : Z) :
  index_from s p i
  = if index_from s p 0 =? -1 then -1 else index_from s p 0 + i.
Proof.
  revert i. induction s as [|c s IH]; intros i; cbn [index_from].
  - by destruct (HasPrefix [] p).
  - destruct (HasPrefix (c :: s) p); [done|].
    rewrite (IH (i + 1)), (IH (0 + 1)).
    destruct (index_from_range s p 0) as [->|(H0 & _)]; [done|].
    destruct (Z.eqb_spec (index_from s p 0) (-1)); [lia|].
    destruct (Z.eqb_spec (index_from s p 0 + (0 + 1)) (-1)); lia.
Qed.

Lemma Index_range (s p : list ascii) :
  Index s p = -1
  ∨ (0 ≤ Index s p ∧ Index s p + len p ≤ len s
     ∧ HasPrefix (drop (Z.to_nat (Index s p)) s) p = true).
Proof.
  unfold Index. destruct (index_from_range s p 0) as [?|(? & ? & Hp)]; [by left|right].
  rewrite Z.sub_0_r in Hp. split_and!; [done|lia|done].
Qed.

Lemma Contains_false (s p : list ascii) : Contains s p = false ↔ Index s p = -1.
Proof.
  unfold Contains. destruct (Index_range s p) as [E|(? & _)].
  - rewrite E. by split.
  - split; [intros ?%Z.leb_gt; lia|lia].
Qed.

Lemma Index_cons (c : ascii) (s p : list ascii) :
  Index (c :: s) p
  = if HasPrefix (c :: s) p then 0
    else if Index s p =? -1 then -1 else Index s p + 1.
Proof.
  unfold Index. cbn [index_from]. destruct (HasPrefix (c :: s) p); [done|].
  apply index_from_shift.
Qed.

Lemma Index_nil (p : list ascii) : Index [] p = if HasPrefix [] p then 0 else -1.
Proof. done. Qed.

(** The first instance of a pattern without a line feed in two pieces
    joined by a line feed: the one in the first piece or else the one in
    the second. *)
Lemma Index_LF (a b p : list ascii) :
  p ≠ [] → Forall (λ c, c ≠ LF) p →
  Index (a ++ LF :: b) p
  = if Index a p =? -1
    then (if Index b p =? -1 then -1 else len a + 1 + Index b p)
    else Index a p.
Proof.
  intros Hne Hp. induction a as [|c a IH].
  - rewrite app_nil_l, Index_cons, Index_nil.
    change (LF :: b) with ([] ++ LF :: b). rewrite (HasPrefix_LF [] b p Hp).
    destruct p as [|x p]; [done|]. cbn [HasPrefix]. cbn [Z.eqb].
    destruct (Index b (x :: p) =? -1); [done|]. unfold len. simpl. lia.
  - rewrite <-app_comm_cons, !Index_cons, IH.
    change (c :: a ++ LF :: b) with ((c :: a) ++ LF :: b).
    rewrite (HasPrefix_LF (c :: a) b p Hp).
    destruct (HasPrefix (c :: a) p); [done|].
    destruct (Z.eqb_spec (Index a p) (-1)) as [Ea|Ea].
    + rewrite Z.eqb_refl. destruct (Z.eqb_spec (Index b p) (-1)) as [Eb|Eb]; [done|].
      destruct (Index_range b p) as [?|(Hb & _)]; [done|].
      destruct (Z.eqb_spec (len a + 1 + Index b p) (-1)).
      { unfold len in *. lia. }
      unfold len. simpl length. lia.
    + destruct (Index_range a p) as [?|(H0 & _)]; [done|].
      rewrite ?(proj2 (Z.eqb_neq _ _) Ea).
      destruct (Z.eqb_spec (Index a p + 1) (-1)); [lia|done].
Qed.

Lemma Contains_LF (a b p : list ascii) :
  p ≠ [] → Forall (λ c, c ≠ LF) p →
  Contains (a ++ LF :: b) p = Contains a p || Contains b p.
Proof.
  intros Hne Hp. unfold Contains. rewrite Index_LF by done.
  destruct (Index_range a p) as [->|(Ha & _)]; simpl.
  - destruct (Index_range b p) as [->|(Hb & _)]; [done|].
    destruct (Z.eqb_spec (Index b p) (-1)); [lia|].
    unfold len. destruct (Z.leb_spec 0 (Index b p)); [|lia].
    apply Z.leb_le. lia.
  - destruct (Z.eqb_spec (Index a p) (-1)); [lia|].
    destruct (Z.leb_spec 0 (Index a p)); [done|lia].
Qed.

Lemma Contains_true (s p : list ascii) : Contains s p = true ↔ Index s p ≠ -1.
Proof.
  rewrite <-Contains_false. destruct (Contains s p); split; done.
Qed.

Lemma Contains_suffix (a b p : list ascii) :
  Contains b p = true → Contains (a ++ b) p = true.
Proof.
  rewrite !Contains_true. intros Hb. induction a as [|c a IH]; [done|].
  rewrite <-app_comm_cons, Index_cons. destruct (HasPrefix _ p); [done|].
  destruct (Index_range (a ++ b) p) as [?|(? & _)]; [done|].
  destruct (Z.eqb_spec (Index (a ++ b) p) (-1)); lia.
Qed.

Lemma Contains_suffix_LF (a b p : list ascii) :
  Contains b p = true → Contains (a ++ LF :: b) p = true.
Proof.
  intros Hb. replace (a ++ LF :: b) with ((a ++ [LF]) ++ b) by (by rewrite <-app_assoc).
  by apply Contains_suffix.
Qed.

(** *** Leftmost matches *)

Lemma leftmost_here {A} (here : list ascii → option A) (s : list ascii) (i : Z) (r : A) :
  here s = Some r → leftmost here s i = Some (i, r).
Proof. intros E. destruct s; simpl; by rewrite E. Qed.

Lemma leftmost_range {A} (here : list ascii → option A) (s : list ascii)
    (i j : Z) (r : A) :
  leftmost here s i = Some (j, r) →
  i ≤ j ≤ i + len s ∧ here (drop (Z.to_nat (j - i)) s) = Some r.
Proof.
  revert i. induction s as [|c s IH]; intros i; simpl.
  - destruct (here []) eqn:E; [|done]. intros [= <- <-]. unfold len. simpl.
    rewrite Z.sub_diag. split; [lia|done].
  - destruct (here (c :: s)) eqn:E.
    + intros [= <- <-]. unfold len. rewrite Z.sub_diag. split; [lia|done].
    + intros [H1 H2]%IH. unfold len in *. simpl length. split; [lia|].
      replace (Z.to_nat (j - i)) with (S (Z.to_nat (j - (i + 1)))) by lia. done.
Qed.

Lemma leftmost_line_range {A} (here : list ascii → option A) (s : list ascii)
    (line_start : bool) (i j : Z) (r : A) :
  leftmost_line here s line_start i = Some (j, r) →
  i ≤ j ≤ i + len s ∧ here (drop (Z.to_nat (j - i)) s) = Some r.
Proof.
  revert line_start i. induction s as [|c s IH]; intros line_start i; simpl.
  - destruct line_start; [|done]. destruct (here []) eqn:E; [|done].
    intros [= <- <-]. unfold len. simpl. rewrite Z.sub_diag. split; [lia|done].
  - destruct (if line_start then here (c :: s) else None) eqn:E.
    + intros [= <- <-]. unfold len. rewrite Z.sub_diag.
      destruct line_start; [|done]. split; [lia|done].
    + intros [H1 H2]%IH. unfold len in *. simpl length. split; [lia|].
      replace (Z.to_nat (j - i)) with (S (Z.to_nat (j - (i + 1)))) by lia. done.
Qed.

Lemma leftmost_line_index {A} (here : list ascii → option A) (s : list ascii)
    (line_start : bool) (i j : Z) :
  is_Some (leftmost_line here s line_start i) →
  is_Some (leftmost_line here s line_start j).
Proof.
  revert line_start i j. induction s as [|c s IH]; intros f i j; simpl.
  - by destruct (if f then here [] else None).
  - destruct (if f then here (c :: s) else None); [done|]. apply IH.
Qed.

Lemma leftmost_line_flag {A} (here : list ascii → option A) (s : list ascii)
    (line_start : bool) (i : Z) :
  is_Some (leftmost_line here s false i) →
  is_Some (leftmost_line here s line_start i).
Proof.
  destruct s as [|c s]; simpl; [by intros [? ?]|].
  by destruct (if line_start then here (c :: s) else None).
Qed.

(** A match at a line start inside the second of two pieces is a match
    in the whole. *)
Lemma leftmost_line_suffix {A} (here : list ascii → option A) (a b : list ascii)
    (line_start : bool) (i j : Z) :
  is_Some (leftmost_line here b false j) →
  is_Some (leftmost_line here (a ++ b) line_start i).
Proof.
  intros Hb. revert line_start i. induction a as [|c a IH]; intros line_start i.
  - by apply leftmost_line_flag, (leftmost_line_index _ _ _ j).
  - rewrite <-app_comm_cons. simpl.
    destruct (if line_start then here (c :: a ++ b) else None); [done|]. apply IH.
Qed.

(** *** The blurb and the patterns *)

Definition opening : list ascii := bytes "<!-- bv-agent-instructions-v".

Definition phrase : list ascii := bytes "bv already computes the hard parts".

Lemma no_LF_check (p : list ascii) :
  forallb (λ c, negb (Ascii.eqb c LF)) p = true → Forall (λ c, c ≠ LF) p.
Proof.
  intros Hp. apply Forall_forall. intros c Hc E.
  rewrite forallb_forall in Hp. specialize (Hp c (proj1 (list_elem_of_In _ _) Hc)).
  subst c. by rewrite Ascii.eqb_refl in Hp.
Qed.

Lemma opening_no_LF : Forall (λ c, c ≠ LF) opening.
Proof. by apply no_LF_check. Qed.

Lemma closing_no_LF : Forall (λ c, c ≠ LF) BlurbEndMarker.
Proof. by apply no_LF_check. Qed.

Lemma blurb_opening : Index (AgentBlurb ++ [LF]) opening = 0.
Proof. vm_compute. reflexivity. Qed.

Lemma blurb_closing :
  Index (AgentBlurb ++ [LF]) BlurbEndMarker = len AgentBlurb - len BlurbEndMarker.
Proof. vm_compute. reflexivity. Qed.

Lemma blurb_length : len BlurbEndMarker ≤ len AgentBlurb.
Proof. by vm_compute. Qed.

Lemma blurb_version : version_here (AgentBlurb ++ [LF]) = Some (bytes "2").
Proof. vm_compute. reflexivity. Qed.

Lemma blurb_heading :
  leftmost_line legacy_start_here (AgentBlurb ++ [LF]) false 0 = Some (330, tt).
Proof. vm_compute. reflexivity. Qed.

(** The blurb carries three of the four marks of the legacy blurb, and
    not the fourth. *)
Lemma blurb_marks :
  Contains (AgentBlurb ++ [LF]) (bytes "### Using bv as an AI sidecar") = true
  ∧ Contains (AgentBlurb ++ [LF]) (bytes "--robot-insights") = true
  ∧ Contains (AgentBlurb ++ [LF]) (bytes "--robot-plan") = true
  ∧ Contains (AgentBlurb ++ [LF]) phrase = false.
Proof. split_and!; vm_compute; reflexivity. Qed.

(** *** Content with the blurb appended *)

Lemma AppendBlurb_shape (content : list ascii) :
  ∃ c1, (c1 = content ∨ c1 = content ++ [LF])
        ∧ AppendBlurb content = c1 ++ LF :: (AgentBlurb ++ [LF]).
Proof.
  unfold AppendBlurb. destruct (negb (HasSuffix content [LF]));
    [exists (content ++ [LF])|exists content]; (split; [auto|]);
    by rewrite <-!app_assoc.
Qed.

Lemma Contains_line (content c1 p : list ascii) :
  p ≠ [] → Forall (λ c, c ≠ LF) p →
  c1 = content ∨ c1 = content ++ [LF] → Contains c1 p = Contains content p.
Proof.
  intros Hne Hp [->| ->]; [done|]. rewrite Contains_LF by done.
  destruct p as [|x p]; [done|]. by rewrite orb_false_r.
Qed.

Lemma ContainsBlurb_AppendBlurb (content : list ascii) :
  ContainsBlurb (AppendBlurb content) = true.
Proof.
  destruct (AppendBlurb_shape content) as (c1 & _ & ->).
  unfold ContainsBlurb. apply Contains_suffix_LF, Contains_true.
  fold opening. by rewrite blurb_opening.
Qed.

Lemma version_here_LF (a b : list ascii) :
  version_here (a ++ LF :: b) = None ∨ HasPrefix a opening = true.
Proof.
  unfold version_here. fold opening.
  rewrite (HasPrefix_LF a b opening opening_no_LF).
  destruct (HasPrefix a opening); [by right|by left].
Qed.

(** Where the first piece holds no opening marker, the first version
    marker is the first one of the second piece. *)
Lemma leftmost_version_LF (a b : list ascii) (i : Z) :
  Index a opening = -1 →
  leftmost version_here (a ++ LF :: b) i = leftmost version_here b (i + len a + 1).
Proof.
  revert i. induction a as [|c a IH]; intros i Ha.
  - rewrite app_nil_l. cbn [leftmost].
    destruct (version_here_LF [] b) as [E|?]; [|done].
    change ([] ++ LF :: b) with (LF :: b) in E. rewrite E.
    unfold len. simpl. f_equal. lia.
  - rewrite Index_cons in Ha. destruct (HasPrefix (c :: a) opening) eqn:Hc; [done|].
    destruct (Z.eqb_spec (Index a opening) (-1)) as [Ea|Ea].
    2:{ destruct (Index_range a opening) as [?|(? & _)]; [done|lia]. }
    rewrite <-app_comm_cons. cbn [leftmost].
    destruct (version_here_LF (c :: a) b) as [E|E]; [|by rewrite Hc in E].
    rewrite <-app_comm_cons in E. rewrite E, IH by done.
    f_equal. unfold len. simpl length. lia.
Qed.

Lemma GetBlurbVersion_AppendBlurb (content : list ascii) :
  ContainsBlurb content = false → GetBlurbVersion (AppendBlurb content) = BlurbVersion.
Proof.
  intros Hc. destruct (AppendBlurb_shape content) as (c1 & Hc1 & ->).
  assert (Index c1 opening = -1) as Hfree.
  { apply Contains_false. by rewrite (Contains_line content c1 opening)
      by (done || apply opening_no_LF). }
  unfold GetBlurbVersion. rewrite leftmost_version_LF by done.
  by rewrite (leftmost_here _ _ _ _ blurb_version).
Qed.

(** Whether content with the blurb appended counts as holding the legacy
    blurb depends on one thing only: whether the content holds the
    phrase that the new blurb lacks. *)
Lemma ContainsLegacyBlurb_AppendBlurb (content : list ascii) :
  ContainsLegacyBlurb (AppendBlurb content) = Contains content phrase.
Proof.
  destruct (AppendBlurb_shape content) as (c1 & Hc1 & ->).
  pose proof blurb_heading as Hh. pose proof blurb_marks as Hm.
  revert Hh Hm. generalize (AgentBlurb ++ [LF]). intros B Hh Hm.
  unfold ContainsLegacyBlurb.
  destruct (leftmost_line_suffix legacy_start_here (c1 ++ [LF]) B true 0 0) as [r Hr];
    [by rewrite Hh|].
  rewrite <-app_assoc in Hr. change ([LF] ++ B) with (LF :: B) in Hr. rewrite Hr.
  destruct Hm as (H1 & H2 & H3 & H4).
  unfold LegacyBlurbPatterns. cbn [fold_left length].
  rewrite (Contains_suffix_LF c1 B _ H1), (Contains_suffix_LF c1 B _ H2),
    (Contains_suffix_LF c1 B _ H3).
  assert (Contains (c1 ++ LF :: B) phrase = Contains content phrase) as E.
  { rewrite Contains_LF, H4, orb_false_r; [|done|by apply no_LF_check].
    apply Contains_line; [done|by apply no_LF_check|done]. }
  fold phrase. rewrite E.
  by destruct (Contains content phrase).
Qed.

(** *** Line breaks at the end *)

Lemma trailing_line_breaks (content : list ascii) :
  ∃ kept breaks, content = kept ++ breaks
    ∧ Forall (λ c, is_line_break c = true) breaks
    ∧ (∀ c, last kept = Some c → is_line_break c = false).
Proof.
  induction content as [|x content IH] using rev_ind.
  { exists [], []. by split_and!. }
  destruct (is_line_break x) eqn:Hx.
  - destruct IH as (kept & breaks & -> & Hb & Hlast).
    exists kept, (breaks ++ [x]). split_and!; [by rewrite <-app_assoc| |done].
    apply Forall_app. split; [done|]. by constructor.
  - exists (content ++ [x]), []. split_and!; [by rewrite app_nil_r|done|].
    intros c. rewrite last_snoc. by intros [= <-].
Qed.

Lemma step_back_spec (kept breaks rest : list ascii) :
  Forall (λ c, is_line_break c = true) breaks →
  (∀ c, last kept = Some c → is_line_break c = false) →
  step_back (kept ++ breaks ++ rest) (length (kept ++ breaks)) = Some (len kept).
Proof.
  intros Hb Hlast. revert rest.
  induction breaks as [|x breaks IH] using rev_ind; intros rest.
  - rewrite app_nil_r. simpl. destruct kept as [|c kept _] using rev_ind; [done|].
    rewrite length_app, Nat.add_1_r. cbn [step_back].
    rewrite <-app_assoc, lookup_app_r, Nat.sub_diag by done. simpl.
    rewrite (Hlast c) by apply last_snoc. unfold len.
    rewrite length_app, Nat.add_1_r. done.
  - apply Forall_app in Hb as [Hb Hx]. apply Forall_inv in Hx.
    replace (length (kept ++ breaks ++ [x])) with (S (length (kept ++ breaks)))
      by (rewrite !length_app; simpl; lia).
    replace (kept ++ (breaks ++ [x]) ++ rest) with ((kept ++ breaks) ++ x :: rest)
      by (by rewrite <-!app_assoc).
    cbn [step_back]. rewrite lookup_app_r, Nat.sub_diag by done. simpl. rewrite Hx.
    rewrite <-app_assoc. by apply IH.
Qed.

Lemma remove_appended (B c1 kept breaks : list ascii) :
  Index (B ++ [LF]) opening = 0 →
  Index (B ++ [LF]) BlurbEndMarker = len B - len BlurbEndMarker →
  len BlurbEndMarker ≤ len B →
  Index c1 opening = -1 → Index c1 BlurbEndMarker = -1 →
  c1 ++ [LF] = kept ++ breaks →
  Forall (λ c, is_line_break c = true) breaks →
  (∀ c, last kept = Some c → is_line_break c = false) →
  RemoveBlurb (c1 ++ LF :: (B ++ [LF])) = Some kept.
Proof.
  intros HO HC HL Hfree1 Hfree2 Hc1 Hb Hlast.
  assert (0 ≤ len c1) as Hc0 by (unfold len; lia).
  assert (Index (c1 ++ LF :: B ++ [LF]) opening = len c1 + 1) as Es.
  { rewrite (Index_LF c1 (B ++ [LF]) opening) by (done || apply opening_no_LF).
    rewrite Hfree1, HO. change (-1 =? -1) with true. change (0 =? -1) with false.
    cbv iota. lia. }
  assert (Index (c1 ++ LF :: B ++ [LF]) BlurbEndMarker
          = len c1 + 1 + (len B - len BlurbEndMarker)) as Ee.
  { rewrite (Index_LF c1 (B ++ [LF]) BlurbEndMarker) by (done || apply closing_no_LF).
    rewrite Hfree2, HC. change (-1 =? -1) with true. cbv iota.
    by rewrite (proj2 (Z.eqb_neq _ _)) by lia. }
  unfold RemoveBlurb. fold opening. rewrite Es, Ee.
  rewrite (proj2 (Z.eqb_neq (len c1 + 1) (-1))) by lia.
  rewrite (proj2 (Z.eqb_neq (len c1 + 1 + (len B - len BlurbEndMarker)) (-1))) by lia.
  replace (len c1 + 1 + (len B - len BlurbEndMarker) + len BlurbEndMarker)
    with (len c1 + 1 + len B) by lia.
  unfold forward_over_line_breaks.
  destruct (Z.ltb_spec (len c1 + 1 + len B) 0); [unfold len in *; lia|].
  replace (c1 ++ LF :: B ++ [LF]) with ((c1 ++ LF :: B) ++ [LF])
    by (by rewrite <-app_assoc).
  rewrite drop_app_length'
    by (rewrite length_app; unfold len; simpl; lia).
  cbn [skip_line_breaks mbind option_bind].
  change (is_line_break LF) with true. cbv iota.
  unfold back_over_line_breaks.
  destruct (Z.ltb_spec (len c1 + 1) 0); [unfold len in *; lia|].
  replace ((c1 ++ LF :: B) ++ [LF]) with (kept ++ breaks ++ B ++ [LF]).
  2:{ rewrite (app_assoc kept), <-Hc1, <-!app_assoc. done. }
  replace (Z.to_nat (len c1 + 1)) with (length (kept ++ breaks)).
  2:{ rewrite <-Hc1, length_app. unfold len. simpl. lia. }
  rewrite step_back_spec by done. cbn [mbind option_bind].
  unfold slice_to, slice_from.
  assert (len (kept ++ breaks ++ B ++ [LF]) = len c1 + 1 + len B + 1) as Hlen.
  { rewrite (app_assoc kept), <-Hc1. unfold len. rewrite !length_app. simpl. lia. }
  rewrite Hlen.
  assert (len kept ≤ len c1 + 1) as Hk.
  { apply (f_equal length) in Hc1. rewrite !length_app in Hc1. unfold len.
    simpl in Hc1. lia. }
  assert (0 ≤ len kept) by (unfold len; lia). assert (0 ≤ len B) by (unfold len; lia).
  destruct (Z.leb_spec 0 (len kept)); [|lia].
  destruct (Z.leb_spec (len kept) (len c1 + 1 + len B + 1)); [|lia].
  destruct (Z.leb_spec 0 (len c1 + 1 + len B + 1)); [|lia].
  rewrite Z.leb_refl. simpl.
  unfold len at 1. rewrite Nat2Z.id, take_app_length.
  rewrite <-Hlen. unfold len. rewrite Nat2Z.id, drop_all. by rewrite app_nil_r.
Qed.

Lemma RemoveBlurb_of_AppendBlurb (content : list ascii) :
  ContainsBlurb content = false → Contains content BlurbEndMarker = false →
  ∃ kept breaks, content = kept ++ breaks
    ∧ Forall (λ c, is_line_break c = true) breaks
    ∧ (∀ c, last kept = Some c → is_line_break c = false)
    ∧ RemoveBlurb (AppendBlurb content) = Some kept.
Proof.
  intros Hopen Hclose.
  destruct (AppendBlurb_shape content) as (c1 & Hc1 & ->).
  destruct (trailing_line_breaks content) as (kept & breaks & E & Hb & Hlast).
  exists kept, breaks. split_and!; [done|done|done|].
  assert (∃ more, c1 ++ [LF] = kept ++ more
                  ∧ Forall (λ c, is_line_break c = true) more) as (more & Em & Hm).
  { destruct Hc1 as [->| ->]; rewrite E, <-!app_assoc; eexists; (split; [done|]);
      rewrite ?Forall_app; repeat split; by repeat constructor. }
  apply (remove_appended AgentBlurb c1 kept more);
    [apply blurb_opening|apply blurb_closing|apply blurb_length| | |done|done|done].
  - apply Contains_false.
    by rewrite (Contains_line content c1 opening) by (done || apply opening_no_LF).
  - apply Contains_false.
    by rewrite (Contains_line content c1 BlurbEndMarker)
      by (done || apply closing_no_LF).
Qed.

(** *** The removals return *)

Lemma skip_line_breaks_range (rest : list ascii) (e : Z) :
  e ≤ skip_line_breaks rest e ≤ e + len rest.
Proof.
  revert e. induction rest as [|c rest IH]; intros e; unfold len in *; simpl; [lia|].
  destruct (is_line_break c); [|lia]. specialize (IH (e + 1)). lia.
Qed.

(** The forward loop stops at the first byte that is no line break. *)
Lemma skip_line_breaks_stops (rest : list ascii) (e : Z) (k : nat) (c : ascii) :
  rest !! k = Some c → is_line_break c = false →
  skip_line_breaks rest e ≤ e + Z.of_nat k.
Proof.
  revert e k. induction rest as [|x rest IH]; intros e k Hk Hc; [done|].
  simpl. destruct k as [|k]; simpl in Hk.
  - simplify_eq. rewrite Hc. lia.
  - destruct (is_line_break x); [|lia]. specialize (IH (e + 1) k Hk Hc). lia.
Qed.

Lemma step_back_range (content : list ascii) (n : nat) :
  (n ≤ length content)%nat →
  ∃ v, step_back content n = Some v ∧ 0 ≤ v ≤ Z.of_nat n.
Proof.
  induction n as [|n IH]; intros Hn; simpl; [exists 0; split; [done|lia]|].
  destruct (lookup_lt_is_Some_2 content n) as [c Hc]; [lia|]. rewrite Hc.
  destruct (is_line_break c).
  - destruct IH as (v & -> & ?); [lia|]. exists v. split; [done|lia].
  - eexists. split; [done|lia].
Qed.

(** The backward loop stops after the last byte that is no line break. *)
Lemma step_back_stops (content : list ascii) (n k : nat) (c : ascii) :
  (k < n)%nat → (n ≤ length content)%nat →
  content !! k = Some c → is_line_break c = false →
  ∃ v, step_back content n = Some v ∧ Z.of_nat k + 1 ≤ v ≤ Z.of_nat n.
Proof.
  intros Hk Hn Hc Hb. induction n as [|n IH]; [lia|]. simpl.
  destruct (lookup_lt_is_Some_2 content n) as [x Hx]; [lia|]. rewrite Hx.
  destruct (decide (k = n)) as [->|Hkn].
  - simplify_eq. rewrite Hb. eexists. split; [done|lia].
  - destruct (is_line_break x).
    + destruct IH as (v & -> & ?); [lia|lia|]. exists v. split; [done|lia].
    + eexists. split; [done|lia].
Qed.

Lemma forward_total (content : list ascii) (e : Z) :
  0 ≤ e ≤ len content →
  ∃ e', forward_over_line_breaks content e = Some e' ∧ e ≤ e' ≤ len content.
Proof.
  intros He. unfold forward_over_line_breaks.
  destruct (Z.ltb_spec e 0); [lia|]. eexists. split; [done|].
  pose proof (skip_line_breaks_range (drop (Z.to_nat e) content) e) as Hr.
  unfold len in *. rewrite length_drop in Hr. lia.
Qed.

Lemma back_total (content : list ascii) (s : Z) :
  0 ≤ s ≤ len content →
  ∃ s', back_over_line_breaks content s = Some s' ∧ 0 ≤ s' ≤ s.
Proof.
  intros Hs. unfold back_over_line_breaks. destruct (Z.ltb_spec s 0); [lia|].
  destruct (step_back_range content (Z.to_nat s)) as (v & -> & ?);
    [unfold len in *; lia|].
  exists v. split; [done|lia].
Qed.

Lemma slice_to_total (content : list ascii) (j : Z) :
  0 ≤ j ≤ len content → slice_to content j = Some (take (Z.to_nat j) content).
Proof.
  intros Hj. unfold slice_to.
  destruct (Z.leb_spec 0 j); [|lia]. by destruct (Z.leb_spec j (len content)); [|lia].
Qed.

Lemma slice_from_total (content : list ascii) (i : Z) :
  0 ≤ i ≤ len content → slice_from content i = Some (drop (Z.to_nat i) content).
Proof.
  intros Hi. unfold slice_from.
  destruct (Z.leb_spec 0 i); [|lia]. by destruct (Z.leb_spec i (len content)); [|lia].
Qed.

(** What is left when the bytes from [a] up to [b] are cut out. *)
Lemma cut_out (content : list ascii) (a b : nat) :
  (a ≤ b ≤ length content)%nat →
  content = take a content ++ take (b - a) (drop a content) ++ drop b content.
Proof.
  intros Hab. rewrite <-(take_drop a content) at 1. f_equal.
  rewrite <-(take_drop (b - a) (drop a content)) at 1. f_equal.
  rewrite drop_drop. f_equal. lia.
Qed.

Lemma RemoveBlurb_total (content : list ascii) : is_Some (RemoveBlurb content).
Proof.
  unfold RemoveBlurb.
  destruct (Index_range content (bytes "<!-- bv-agent-instructions-v"))
    as [->|(Hs0 & Hs1 & _)]; [done|].
  destruct (Z.eqb_spec (Index content (bytes "<!-- bv-agent-instructions-v")) (-1));
    [done|].
  destruct (Index_range content BlurbEndMarker) as [->|(He0 & He1 & _)]; [done|].
  destruct (Z.eqb_spec (Index content BlurbEndMarker) (-1)); [done|].
  assert (0 ≤ len BlurbEndMarker) by (unfold len; lia).
  assert (0 ≤ len (bytes "<!-- bv-agent-instructions-v")) by (unfold len; lia).
  destruct (forward_total content (Index content BlurbEndMarker + len BlurbEndMarker))
    as (e' & -> & ?); [lia|].
  destruct (back_total content (Index content (bytes "<!-- bv-agent-instructions-v")))
    as (s' & -> & ?); [lia|].
  cbn [mbind option_bind]. rewrite slice_to_total by lia. cbn [mbind option_bind].
  rewrite slice_from_total by lia. done.
Qed.

Lemma run_length (p : ascii → bool) (s : list ascii) : (run p s ≤ length s)%nat.
Proof. induction s as [|c s IH]; simpl; [lia|]. destruct (p c); simpl; lia. Qed.

Lemma legacy_start_here_length (s : list ascii) (r : unit) :
  legacy_start_here s = Some r → (27 ≤ length s)%nat.
Proof.
  unfold legacy_start_here, hashes_then. cbn [fold_right]. intros Hr.
  assert (∀ k, HasPrefix (drop (run is_space (drop k s)) (drop k s))
                 (bytes "Using bv as an AI sidecar") = true →
               (k + 25 ≤ length s)%nat ∨ (length s < k)%nat) as Hk.
  { intros k Hp%HasPrefix_length. rewrite !length_drop in Hp.
    change (length (bytes "Using bv as an AI sidecar")) with 25%nat in Hp. lia. }
  destruct (HasPrefix s (replicate 3 "#"%char)) eqn:H3.
  - apply HasPrefix_length in H3. simpl in H3.
    destruct (HasPrefix (drop (run is_space (drop 3 s)) (drop 3 s)) _) eqn:E.
    + destruct (Hk 3%nat E); lia.
    + destruct (HasPrefix s (replicate 2 "#"%char)) eqn:H2; [|done].
      destruct (HasPrefix (drop (run is_space (drop 2 s)) (drop 2 s)) _) eqn:E2; [|done].
      destruct (Hk 2%nat E2); lia.
  - destruct (HasPrefix s (replicate 2 "#"%char)) eqn:H2; [|done].
    apply HasPrefix_length in H2. simpl in H2.
    destruct (HasPrefix (drop (run is_space (drop 2 s)) (drop 2 s)) _) eqn:E2; [|done].
    destruct (Hk 2%nat E2); lia.
Qed.

Lemma legacy_end_here_length (s : list ascii) (n : nat) :
  legacy_end_here s = Some n → (34 ≤ n ≤ length s)%nat.
Proof.
  unfold legacy_end_here.
  destruct (HasPrefix s (bytes "bv already computes the hard parts")) eqn:Hp; [|done].
  apply HasPrefix_length in Hp.
  change (length (bytes "bv already computes the hard parts")) with 34%nat in *.
  set (e1 := (34 + run (λ c, negb (is_LF c)) (drop 34 s))%nat).
  assert (34 ≤ e1 ≤ length s)%nat as He1.
  { pose proof (run_length (λ c, negb (is_LF c)) (drop 34 s)) as Hr.
    rewrite length_drop in Hr. unfold e1. lia. }
  set (feeds := run is_LF (drop e1 s)).
  assert (e1 + feeds ≤ length s)%nat as Hf.
  { pose proof (run_length is_LF (drop e1 s)) as Hr. rewrite length_drop in Hr.
    unfold feeds. lia. }
  set (e2 := if HasPrefix (drop (e1 + feeds) s) (bytes "```")
             then (e1 + feeds + 3)%nat else e1).
  assert (34 ≤ e2 ≤ length s)%nat as He2.
  { unfold e2. destruct (HasPrefix (drop (e1 + feeds) s) (bytes "```")) eqn:E; [|lia].
    apply HasPrefix_length in E. rewrite length_drop in E. simpl in E. lia. }
  intros [= <-]. pose proof (run_length is_LF (drop e2 s)) as Hr.
  rewrite length_drop in Hr. lia.
Qed.

Lemma legacy_cut (content : list ascii) (s e : Z) :
  0 ≤ s → s + 1 ≤ e ≤ len content →
  ∃ head cut tail, content = head ++ cut ++ tail
    ∧ (endIdx ← forward_over_line_breaks content e;
       startIdx ← back_over_line_breaks content s;
       let startIdx := if 0 <? startIdx then startIdx + 1 else startIdx in
       head ← slice_to content startIdx;
       tail ← slice_from content endIdx;
       Some (head ++ tail)) = Some (head ++ tail).
Proof.
  intros Hs He.
  destruct (forward_total content e) as (e' & -> & He'); [lia|].
  destruct (back_total content s) as (s' & -> & Hs'); [lia|].
  cbn [mbind option_bind].
  set (s'' := if 0 <? s' then s' + 1 else s').
  assert (0 ≤ s'' ≤ s + 1) as Hs'' by (unfold s''; destruct (0 <? s'); lia).
  rewrite slice_to_total by lia. cbn [mbind option_bind].
  rewrite slice_from_total by lia. cbn [mbind option_bind].
  eexists _, _, _. split; [|done].
  apply cut_out. unfold len in *. lia.
Qed.

(** [RemoveLegacyBlurb] returns for every content, and what it returns
    is the content with one stretch of bytes cut out. *)
Lemma RemoveLegacyBlurb_cut (content : list ascii) :
  ∃ head cut tail, content = head ++ cut ++ tail
                   ∧ RemoveLegacyBlurb content = Some (head ++ tail).
Proof.
  unfold RemoveLegacyBlurb.
  destruct (negb (ContainsLegacyBlurb content)).
  { exists content, [], []. by rewrite !app_nil_r. }
  destruct (leftmost_line legacy_start_here content true 0) as [[s u]|] eqn:Hs.
  2:{ exists content, [], []. by rewrite !app_nil_r. }
  apply leftmost_line_range in Hs as [Hs0 Hs1]. rewrite Z.sub_0_r in Hs1.
  apply legacy_start_here_length in Hs1. rewrite length_drop in Hs1.
  assert (0 ≤ s ∧ s + 27 ≤ len content) as [H0 H27] by (unfold len in *; lia).
  rewrite (slice_from_total content s) by lia. cbn [mbind option_bind].
  destruct (leftmost legacy_end_here (drop (Z.to_nat s) content) 0)
    as [[i n]|] eqn:Hend.
  - apply leftmost_range in Hend as [Hi Hn]. rewrite Z.sub_0_r in Hn.
    apply legacy_end_here_length in Hn. rewrite !length_drop in Hn.
    unfold len in Hi. rewrite length_drop in Hi.
    cbn [mbind option_bind]. apply legacy_cut; [done|unfold len in *; lia].
  - rewrite (slice_from_total content (s + 10)) by lia. cbn [mbind option_bind].
    destruct (leftmost_line next_section_here (drop (Z.to_nat (s + 10)) content) true 0)
      as [[i v]|] eqn:Hnext.
    + apply leftmost_line_range in Hnext as [Hi _]. unfold len in Hi.
      rewrite length_drop in Hi.
      cbn [mbind option_bind]. apply legacy_cut; [done|unfold len in *; lia].
    + cbn [mbind option_bind]. apply legacy_cut; [done|lia].
Qed.

Lemma skip_line_breaks_spec (breaks rest : list ascii) (e : Z) :
  Forall (λ c, is_line_break c = true) breaks →
  (∀ c, head rest = Some c → is_line_break c = false) →
  skip_line_breaks (breaks ++ rest) e = e + len breaks.
Proof.
  intros Hb Hrest. revert e. induction Hb as [|x breaks Hx _ IH]; intros e.
  - unfold len. simpl. rewrite Z.add_0_r. destruct rest as [|c rest]; [done|].
    simpl. by rewrite (Hrest c).
  - simpl. rewrite Hx, IH. unfold len. simpl length. lia.
Qed.

(** The blurb, with the line breaks around it, cut out of the content. *)
Lemma RemoveBlurb_cut (kept breaks blurb breaks' rest : list ascii) :
  Index (kept ++ breaks ++ blurb ++ breaks' ++ rest)
    (bytes "<!-- bv-agent-instructions-v") = len (kept ++ breaks) →
  Index (kept ++ breaks ++ blurb ++ breaks' ++ rest) BlurbEndMarker
  = len (kept ++ breaks ++ blurb) - len BlurbEndMarker →
  len BlurbEndMarker ≤ len blurb →
  Forall (λ c, is_line_break c = true) breaks →
  Forall (λ c, is_line_break c = true) breaks' →
  (∀ c, last kept = Some c → is_line_break c = false) →
  (∀ c, head rest = Some c → is_line_break c = false) →
  RemoveBlurb (kept ++ breaks ++ blurb ++ breaks' ++ rest) = Some (kept ++ rest).
Proof.
  intros Hs He Hl Hb Hb' Hlast Hhead. unfold RemoveBlurb. rewrite Hs, He.
  assert (len (kept ++ breaks ++ blurb) = len (kept ++ breaks) + len blurb) as Elen.
  { unfold len. rewrite (app_assoc kept), !length_app. lia. }
  assert (0 ≤ len (kept ++ breaks)) by (unfold len; lia).
  rewrite (proj2 (Z.eqb_neq (len (kept ++ breaks)) (-1))) by lia.
  rewrite (proj2 (Z.eqb_neq (len (kept ++ breaks ++ blurb) - len BlurbEndMarker) (-1)))
    by lia.
  replace (len (kept ++ breaks ++ blurb) - len BlurbEndMarker + len BlurbEndMarker)
    with (len (kept ++ breaks ++ blurb)) by lia.
  assert (0 ≤ len blurb) by (unfold len; lia).
  assert (drop (Z.to_nat (len (kept ++ breaks ++ blurb)))
            (kept ++ breaks ++ blurb ++ breaks' ++ rest) = breaks' ++ rest) as Edrop.
  { replace (kept ++ breaks ++ blurb ++ breaks' ++ rest)
      with ((kept ++ breaks ++ blurb) ++ breaks' ++ rest) by (by rewrite <-!app_assoc).
    apply drop_app_length'. unfold len. by rewrite Nat2Z.id. }
  assert (take (Z.to_nat (len kept)) (kept ++ breaks ++ blurb ++ breaks' ++ rest) = kept)
    as Etake by (unfold len; by rewrite Nat2Z.id, take_app_length).
  assert (drop (Z.to_nat (len (kept ++ breaks ++ blurb) + len breaks'))
            (kept ++ breaks ++ blurb ++ breaks' ++ rest) = rest) as Erest.
  { replace (kept ++ breaks ++ blurb ++ breaks' ++ rest)
      with (((kept ++ breaks ++ blurb) ++ breaks') ++ rest) by (by rewrite <-!app_assoc).
    apply drop_app_length'. unfold len. rewrite !length_app. lia. }
  assert (len (kept ++ breaks ++ blurb ++ breaks' ++ rest)
          = len (kept ++ breaks ++ blurb) + len breaks' + len rest) as Eall.
  { replace (kept ++ breaks ++ blurb ++ breaks' ++ rest)
      with (((kept ++ breaks ++ blurb) ++ breaks') ++ rest) by (by rewrite <-!app_assoc).
    unfold len. rewrite !length_app. lia. }
  assert (len kept ≤ len (kept ++ breaks))
    by (unfold len; rewrite length_app; lia).
  assert (0 ≤ len kept ∧ 0 ≤ len breaks' ∧ 0 ≤ len rest) by (unfold len; lia).
  unfold forward_over_line_breaks, back_over_line_breaks.
  rewrite (proj2 (Z.ltb_ge (len (kept ++ breaks ++ blurb)) 0)) by lia.
  cbn [mbind option_bind].
  rewrite (proj2 (Z.ltb_ge (len (kept ++ breaks)) 0)) by lia.
  rewrite Edrop, skip_line_breaks_spec by done.
  replace (Z.to_nat (len (kept ++ breaks))) with (length (kept ++ breaks))
    by (unfold len; lia).
  rewrite step_back_spec by done.
  cbn [mbind option_bind].
  rewrite slice_to_total by lia. cbn [mbind option_bind].
  rewrite slice_from_total by lia. cbn [mbind option_bind].
  by rewrite Etake, Erest.
Qed.

(** *** Where the end marker comes first *)

Lemma RemoveBlurb_longer (content : list ascii) (i : Z) (c : ascii) :
  0 ≤ Index content BlurbEndMarker →
  Index content BlurbEndMarker + len BlurbEndMarker ≤ i
    < Index content (bytes "<!-- bv-agent-instructions-v") →
  byte_at content i = Some c → is_line_break c = false →
  ∃ r, RemoveBlurb content = Some r ∧ (length content < length r)%nat.
Proof.
  intros He0 Hi Hc Hb. unfold RemoveBlurb.
  assert (0 ≤ len BlurbEndMarker) by (unfold len; lia).
  assert (0 ≤ len (bytes "<!-- bv-agent-instructions-v")) by (unfold len; lia).
  destruct (Index_range content (bytes "<!-- bv-agent-instructions-v"))
    as [E|(Hs0 & Hs1 & _)]; [lia|].
  rewrite (proj2 (Z.eqb_neq _ _)) by lia.
  rewrite (proj2 (Z.eqb_neq (Index content BlurbEndMarker) _)) by lia.
  unfold byte_at in Hc. destruct (Z.ltb_spec i 0); [done|].
  unfold forward_over_line_breaks, back_over_line_breaks.
  rewrite (proj2 (Z.ltb_ge _ _)) by lia. cbn [mbind option_bind].
  rewrite (proj2 (Z.ltb_ge _ _)) by lia.
  set (e := Index content BlurbEndMarker + len BlurbEndMarker) in *.
  set (s := Index content (bytes "<!-- bv-agent-instructions-v")) in *.
  pose proof (skip_line_breaks_range (drop (Z.to_nat e) content) e) as Hr.
  unfold len in Hr. rewrite length_drop in Hr.
  pose proof (skip_line_breaks_stops (drop (Z.to_nat e) content) e
                (Z.to_nat i - Z.to_nat e) c) as Hstop.
  rewrite lookup_drop in Hstop.
  replace (Z.to_nat e + (Z.to_nat i - Z.to_nat e))%nat with (Z.to_nat i) in Hstop by lia.
  specialize (Hstop Hc Hb).
  destruct (step_back_stops content (Z.to_nat s) (Z.to_nat i) c) as (v & -> & Hv);
    [lia|unfold len in *; lia|done|done|].
  cbn [mbind option_bind].
  rewrite slice_to_total by (unfold len in *; lia). cbn [mbind option_bind].
  rewrite slice_from_total by (unfold len in *; lia). cbn [mbind option_bind].
  eexists. split; [done|].
  rewrite length_app, length_take, length_drop. unfold len in *. lia.
Qed.

(** *** The properties *)

(** X11.  Content that held no blurb holds the current one once [AppendBlurb]
    has run: [ContainsBlurb] finds it and [GetBlurbVersion] reads
    [BlurbVersion] from it. *)
Theorem AppendBlurb_is_current (content : list ascii) :
  ContainsBlurb content = false →
  ContainsBlurb (AppendBlurb content) = true
  ∧ GetBlurbVersion (AppendBlurb content) = BlurbVersion.
Proof.
  intros Hc. split; [apply ContainsBlurb_AppendBlurb|by apply GetBlurbVersion_AppendBlurb].
Qed.

Lemma AppendBlurb_is_current_witness :
  ContainsBlurb (bytes "# Notes") = false
  ∧ GetBlurbVersion (AppendBlurb (bytes "# Notes")) = BlurbVersion.
Proof.
  split; [reflexivity|]. by apply (AppendBlurb_is_current (bytes "# Notes")).
Defined.

(** X12.  The blurb that [AppendBlurb] writes carries the heading and three of
    the four marks by which [ContainsLegacyBlurb] knows the legacy
    blurb.  So content with the blurb appended counts as legacy, and
    [NeedsUpdate] asks for an update of the blurb just written, exactly
    when the content itself holds the fourth mark, the phrase "bv already
    computes the hard parts". *)
Theorem NeedsUpdate_AppendBlurb (content : list ascii) :
  ContainsBlurb content = false →
  ContainsLegacyBlurb (AppendBlurb content)
  = Contains content (bytes "bv already computes the hard parts")
  ∧ NeedsUpdate (AppendBlurb content)
    = Contains content (bytes "bv already computes the hard parts").
Proof.
  intros Hc. pose proof (ContainsLegacyBlurb_AppendBlurb content) as Hl.
  split; [done|]. unfold NeedsUpdate. rewrite Hl. fold phrase.
  destruct (Contains content phrase); [done|].
  by rewrite ContainsBlurb_AppendBlurb, GetBlurbVersion_AppendBlurb.
Qed.

Lemma NeedsUpdate_AppendBlurb_witness :
  ContainsBlurb (bytes "bv already computes the hard parts") = false
  ∧ NeedsUpdate (AppendBlurb (bytes "bv already computes the hard parts")) = true.
Proof.
  split; [reflexivity|].
  by destruct (NeedsUpdate_AppendBlurb (bytes "bv already computes the hard parts"))
    as [_ ->].
Defined.

(** X13.  [RemoveBlurb] undoes [AppendBlurb] on content that holds neither
    marker, up to the line breaks at the end of the content: what comes
    back is the content without its trailing line feeds and carriage
    returns. *)
Theorem RemoveBlurb_AppendBlurb (content : list ascii) :
  ContainsBlurb content = false → Contains content BlurbEndMarker = false →
  ∃ kept breaks, content = kept ++ breaks
    ∧ Forall (λ c, is_line_break c = true) breaks
    ∧ (∀ c, last kept = Some c → is_line_break c = false)
    ∧ RemoveBlurb (AppendBlurb content) = Some kept.
Proof. apply RemoveBlurb_of_AppendBlurb. Qed.

Lemma RemoveBlurb_AppendBlurb_witness :
  ∃ kept breaks, bytes "# Notes" ++ [LF; LF] = kept ++ breaks
    ∧ Forall (λ c, is_line_break c = true) breaks
    ∧ (∀ c, last kept = Some c → is_line_break c = false)
    ∧ RemoveBlurb (AppendBlurb (bytes "# Notes" ++ [LF; LF])) = Some kept.
Proof. by apply (RemoveBlurb_AppendBlurb (bytes "# Notes" ++ [LF; LF])). Defined.

(** X14.  Updating content that is up to date (no marker and no legacy phrase
    of its own, then the blurb appended) writes the same blurb again,
    after the content without its trailing line breaks. *)
Theorem UpdateBlurb_AppendBlurb (content : list ascii) :
  ContainsBlurb content = false → Contains content BlurbEndMarker = false →
  Contains content (bytes "bv already computes the hard parts") = false →
  ∃ kept breaks, content = kept ++ breaks
    ∧ Forall (λ c, is_line_break c = true) breaks
    ∧ (∀ c, last kept = Some c → is_line_break c = false)
    ∧ UpdateBlurb (AppendBlurb content) = Some (AppendBlurb kept).
Proof.
  intros Hopen Hclose Hphrase.
  destruct (RemoveBlurb_of_AppendBlurb content Hopen Hclose)
    as (kept & breaks & E & Hb & Hlast & Hr).
  exists kept, breaks. split_and!; [done|done|done|].
  unfold UpdateBlurb, RemoveLegacyBlurb.
  rewrite ContainsLegacyBlurb_AppendBlurb. fold phrase in Hphrase. rewrite Hphrase.
  cbn [negb mbind option_bind]. by rewrite Hr.
Qed.

Lemma UpdateBlurb_AppendBlurb_witness :
  ∃ kept breaks, bytes "# Notes" = kept ++ breaks
    ∧ Forall (λ c, is_line_break c = true) breaks
    ∧ (∀ c, last kept = Some c → is_line_break c = false)
    ∧ UpdateBlurb (AppendBlurb (bytes "# Notes")) = Some (AppendBlurb kept).
Proof. by apply (UpdateBlurb_AppendBlurb (bytes "# Notes")). Defined.

(** X15.  No content makes the removals fail: the offsets at which
    [RemoveBlurb], [RemoveLegacyBlurb] and [UpdateBlurb] read and cut the
    content lie inside it.  What [RemoveLegacyBlurb] returns is the
    content with one stretch cut out, and what [UpdateBlurb] returns ends
    with the blurb. *)
Theorem removals_return (content : list ascii) :
  is_Some (RemoveBlurb content)
  ∧ (∃ head cut tail, content = head ++ cut ++ tail
                      ∧ RemoveLegacyBlurb content = Some (head ++ tail))
  ∧ ∃ rest, UpdateBlurb content = Some (AppendBlurb rest).
Proof.
  split_and!; [apply RemoveBlurb_total|apply RemoveLegacyBlurb_cut|].
  unfold UpdateBlurb.
  destruct (RemoveLegacyBlurb_cut content) as (head & cut & tail & _ & ->).
  cbn [mbind option_bind].
  destruct (RemoveBlurb_total (head ++ tail)) as [rest ->]. by exists rest.
Qed.

(** X23.  What [RemoveBlurb] removes: when the first opening marker stands
    before the first end marker, everything from the one to the end of
    the other goes, with all line breaks directly before and directly
    after.  With the content split into what is kept, line breaks, the
    blurb from marker to marker, line breaks and the rest, the result is
    what is kept followed at once by the rest. *)
Theorem RemoveBlurb_cuts_blurb (kept breaks blurb breaks' rest : list ascii) :
  Index (kept ++ breaks ++ blurb ++ breaks' ++ rest)
    (bytes "<!-- bv-agent-instructions-v") = len (kept ++ breaks) →
  Index (kept ++ breaks ++ blurb ++ breaks' ++ rest) BlurbEndMarker
  = len (kept ++ breaks ++ blurb) - len BlurbEndMarker →
  len BlurbEndMarker ≤ len blurb →
  Forall (λ c, is_line_break c = true) breaks →
  Forall (λ c, is_line_break c = true) breaks' →
  (∀ c, last kept = Some c → is_line_break c = false) →
  (∀ c, head rest = Some c → is_line_break c = false) →
  RemoveBlurb (kept ++ breaks ++ blurb ++ breaks' ++ rest) = Some (kept ++ rest).
Proof. apply RemoveBlurb_cut. Qed.

Lemma RemoveBlurb_cuts_blurb_witness :
  RemoveBlurb (bytes "intro" ++ [LF; LF]
               ++ (BlurbStartMarker ++ bytes "text" ++ BlurbEndMarker)
               ++ [CR; LF] ++ bytes "outro")
  = Some (bytes "intro" ++ bytes "outro").
Proof.
  apply (RemoveBlurb_cuts_blurb (bytes "intro") [LF; LF]
           (BlurbStartMarker ++ bytes "text" ++ BlurbEndMarker) [CR; LF]
           (bytes "outro"));
    [by vm_compute|by vm_compute|by vm_compute
    |by repeat constructor|by repeat constructor
    |by intros c [= <-]|by intros c [= <-]].
Defined.

(** X16.  [RemoveBlurb] cuts from the first opening marker to the first end
    marker, wherever they stand.  Where the first end marker comes
    first, with something other than line breaks between it and the
    opening marker, nothing is removed: the result is longer than the
    content, the bytes between the two markers standing in it twice. *)
Theorem RemoveBlurb_end_marker_first (content : list ascii) (i : Z) (c : ascii) :
  0 ≤ Index content BlurbEndMarker →
  Index content BlurbEndMarker + len BlurbEndMarker ≤ i
    < Index content (bytes "<!-- bv-agent-instructions-v") →
  byte_at content i = Some c → is_line_break c = false →
  ∃ r, RemoveBlurb content = Some r ∧ (length content < length r)%nat.
Proof. apply RemoveBlurb_longer. Qed.

Lemma RemoveBlurb_end_marker_first_witness :
  ∃ r, RemoveBlurb (BlurbEndMarker ++ bytes "x" ++ BlurbStartMarker) = Some r
       ∧ (length (BlurbEndMarker ++ bytes "x" ++ BlurbStartMarker) < length r)%nat.
Proof.
  apply (RemoveBlurb_end_marker_first _ 34 "x"%char);
    [by vm_compute|split; by vm_compute|reflexivity|reflexivity].
Defined.

End AgentsFacts.

(** ** Facts about scrolling and the canvas *)

Module ScreenFacts.
Import Go UI Screen.

(** *** Scrolling *)

Lemma int_wrap_id (z : Z) : - 2 ^ 63 ≤ z < 2 ^ 63 → int_wrap z = z.
Proof.
  intros Hz. unfold int_wrap. rewrite Z.mod_small; lia.
Qed.

Lemma scrolled_id (g : GraphModel.t) :
  scrolled g (GraphModel.scrollX g) (GraphModel.scrollY g) = g.
Proof. by destruct g. Qed.

(** *** The canvas *)

Section CanvasFacts.
Context {Style : Type}.
Variable noStyle : Style.

(** The buffers have the size the canvas records. *)
Definition well_formed (c : canvas.t Style) : Prop :=
  0 ≤ canvas.height c
  ∧ length (canvas.cells c) = Z.to_nat (canvas.height c)
  ∧ length (canvas.colors c) = Z.to_nat (canvas.height c)
  ∧ Forall (λ row, Z.of_nat (length row) = canvas.width c) (canvas.cells c)
  ∧ Forall (λ row, Z.of_nat (length row) = canvas.width c) (canvas.colors c).


Lemma inside_spec (c : canvas.t Style) (x y : Z) :
  inside c x y = true ↔ 0 ≤ x < canvas.width c ∧ 0 ≤ y < canvas.height c.
Proof.
  unfold inside. rewrite !andb_true_iff, !Z.leb_le, !Z.ltb_lt. lia.
Qed.

Lemma well_formed_row (c : canvas.t Style) (x y : Z) :
  well_formed c → inside c x y = true →
  ∃ row styles r st,
    canvas.cells c !! Z.to_nat y = Some row ∧ row !! Z.to_nat x = Some r
    ∧ canvas.colors c !! Z.to_nat y = Some styles ∧ styles !! Z.to_nat x = Some st
    ∧ Z.of_nat (length row) = canvas.width c
    ∧ Z.of_nat (length styles) = canvas.width c.
Proof.
  intros (H0 & Hcells & Hcolors & Hrows & Hstyles) [Hx Hy]%inside_spec.
  destruct (lookup_lt_is_Some_2 (canvas.cells c) (Z.to_nat y)) as [row Hrow]; [lia|].
  destruct (lookup_lt_is_Some_2 (canvas.colors c) (Z.to_nat y)) as [styles Hst]; [lia|].
  rewrite Forall_forall in Hrows. rewrite Forall_forall in Hstyles.
  pose proof (Hrows row (list_elem_of_lookup_2 _ _ _ Hrow)) as Hlr.
  pose proof (Hstyles styles (list_elem_of_lookup_2 _ _ _ Hst)) as Hls.
  destruct (lookup_lt_is_Some_2 row (Z.to_nat x)) as [r Hr]; [lia|].
  destruct (lookup_lt_is_Some_2 styles (Z.to_nat x)) as [st Hs]; [lia|].
  by exists row, styles, r, st.
Qed.


(** Writing one cell: on a well-formed canvas [set] returns; it leaves
    the size alone, and afterwards [get] reads the rune written at the
    place written, if that lies on the canvas, and what it read before
    everywhere else. *)
Lemma set_spec (c : canvas.t Style) (x y : Z) (r : rune) (style : Style) :
  well_formed c →
  ∃ c', set c x y r style = Some c'
    ∧ well_formed c'
    ∧ canvas.width c' = canvas.width c ∧ canvas.height c' = canvas.height c
    ∧ ∀ x' y', get c' x' y'
               = if inside c x y && (x' =? x) && (y' =? y) then Some r
                 else get c x' y'.
Proof.
  intros Hc. unfold set. destruct (inside c x y) eqn:Hin.
  2:{ exists c. by split_and!. }
  destruct (well_formed_row c x y Hc Hin)
    as (row & styles & r0 & st0 & Hrow & Hr0 & Hst & Hst0 & Hlr & Hls).
  rewrite Hrow. simpl. rewrite Hr0. simpl. rewrite Hst. simpl. rewrite Hst0. simpl.
  eexists. split; [done|].
  destruct Hc as (H0 & Hcells & Hcolors & Hrows & Hstyles).
  apply inside_spec in Hin as [Hx Hy].
  split_and!; [split_and!|done|done|]; simpl.
  - done.
  - by rewrite length_insert.
  - by rewrite length_insert.
  - apply Forall_insert; [done|]. by rewrite length_insert.
  - apply Forall_insert; [done|]. by rewrite length_insert.
  - intros x' y'. unfold get, inside. simpl.
    destruct ((0 <=? x') && (x' <? canvas.width c) && (0 <=? y')
              && (y' <? canvas.height c)) eqn:Hin'.
    2:{ destruct (Z.eqb_spec x' x) as [->|]; [|done].
        destruct (Z.eqb_spec y' y) as [->|]; [|done].
        apply andb_false_iff in Hin' as [Hin'|Hin'];
          [apply andb_false_iff in Hin' as [Hin'|Hin'];
           [apply andb_false_iff in Hin' as [Hin'|Hin']|]|];
          first [apply Z.leb_gt in Hin'|apply Z.ltb_ge in Hin']; lia. }
    apply andb_true_iff in Hin' as [[[Hx0 Hx1]%andb_true_iff Hy0]%andb_true_iff Hy1].
    apply Z.leb_le in Hx0, Hy0. apply Z.ltb_lt in Hx1, Hy1.
    destruct (Z.eqb_spec y' y) as [->|Hyy].
    + rewrite list_lookup_insert_eq by lia. simpl.
      destruct (Z.eqb_spec x' x) as [->|Hxx]; simpl.
      * rewrite list_lookup_insert_eq by lia. done.
      * rewrite list_lookup_insert_ne by lia. by rewrite Hrow.
    + rewrite list_lookup_insert_ne by lia. by rewrite andb_false_r.
Qed.






(** *** Strings on the canvas *)

Lemma drawString_from_spec (c : canvas.t Style) (x y i : Z) (s : list rune)
    (style : Style) :
  well_formed c →
  ∃ c', drawString_from c x y i s style = Some c'
    ∧ well_formed c'
    ∧ canvas.width c' = canvas.width c ∧ canvas.height c' = canvas.height c
    ∧ ∀ x' y', get c' x' y'
               = match (if (y' =? y) && (x + i <=? x') && inside c x' y'
                        then s !! Z.to_nat (x' - (x + i)) else None) with
                 | Some r => Some r
                 | None => get c x' y'
                 end.
Proof.
  revert c i. induction s as [|r s IH]; intros c i Hc; simpl.
  { exists c. split_and!; [done|done|done|done|]. intros x' y'.
    by destruct (_ && _ && _). }
  destruct (set_spec c (x + i) y r style Hc) as (c1 & -> & Hc1 & Hw1 & Hh1 & Hg1).
  simpl. destruct (IH c1 (i + 1) Hc1) as (c2 & -> & Hc2 & Hw2 & Hh2 & Hg2).
  exists c2. split_and!; [done|done|congruence|congruence|].
  intros x' y'. rewrite Hg2, Hg1.
  assert (inside c1 x' y' = inside c x' y') as -> by (unfold inside; by rewrite Hw1, Hh1).
  destruct (Z.eqb_spec y' y) as [->|]; simpl; [|by rewrite andb_false_r].
  destruct (inside c x' y) eqn:Hin; rewrite ?andb_false_r, ?andb_true_r.
  2:{ destruct (Z.eqb_spec x' (x + i)) as [->|]; [|by rewrite andb_false_r].
      by rewrite Hin. }
  destruct (Z.leb_spec (x + (i + 1)) x'), (Z.leb_spec (x + i) x'); try lia.
  - replace (Z.to_nat (x' - (x + i))) with (S (Z.to_nat (x' - (x + (i + 1))))) by lia.
    simpl. destruct (s !! _); [done|].
    destruct (Z.eqb_spec x' (x + i)); [lia|by rewrite andb_false_r].
  - assert (x' = x + i) as -> by lia. rewrite Z.sub_diag. simpl.
    by rewrite Hin, Z.eqb_refl.
  - destruct (Z.eqb_spec x' (x + i)); [lia|by rewrite andb_false_r].
Qed.

(** *** Edges on the canvas *)









(** *** The size of the canvas *)



(** *** The properties *)


(** X18.  What is written is read back.  On a canvas whose buffers have the
    recorded size [set] does not fail and keeps them so; it changes the
    cell at [(x, y)] when that lies on the canvas and nothing otherwise:
    afterwards [get] reads the rune written at [(x, y)] and what it read
    before at every other place. *)
Theorem canvas_set_get (c : canvas.t Style) (x y : Z) (r : rune) (style : Style) :
  well_formed c →
  ∃ c', set c x y r style = Some c'
    ∧ well_formed c'
    ∧ canvas.width c' = canvas.width c ∧ canvas.height c' = canvas.height c
    ∧ ∀ x' y', get c' x' y'
               = if inside c x y && (x' =? x) && (y' =? y) then Some r
                 else get c x' y'.
Proof. apply set_spec. Qed.

(** X19.  [drawString] puts the runes of the string side by side from [(x, y)]
    to the right, and cuts off what falls outside the canvas: afterwards
    [get] reads the [k]-th rune at [(x + k, y)] where that lies on the
    canvas, and what it read before at every other place.  It does not
    fail. *)
Theorem drawString_writes (c : canvas.t Style) (x y : Z) (s : list rune)
    (style : Style) :
  well_formed c →
  ∃ c', drawString c x y s style = Some c'
    ∧ well_formed c'
    ∧ canvas.width c' = canvas.width c ∧ canvas.height c' = canvas.height c
    ∧ ∀ x' y', get c' x' y'
               = match (if (y' =? y) && (x <=? x') && inside c x' y'
                        then s !! Z.to_nat (x' - x) else None) with
                 | Some r => Some r
                 | None => get c x' y'
                 end.
Proof.
  intros Hc. unfold drawString.
  destruct (drawString_from_spec c x y 0 s style Hc) as (c' & -> & Hc' & Hw & Hh & Hg).
  exists c'. split_and!; [done|done|done|done|].
  intros x' y'. rewrite Hg. by rewrite Z.add_0_r.
Qed.



End CanvasFacts.

(** A canvas of three by two cells, without styles. *)
Definition small_canvas : canvas.t unit :=
  {| canvas.cells := replicate 2 (replicate 3 space);
     canvas.colors := replicate 2 (replicate 3 tt);
     canvas.width := 3;
     canvas.height := 2 |}.

Lemma small_canvas_well_formed : well_formed small_canvas.
Proof. split_and!; simpl; [lia|done|done|by repeat constructor|by repeat constructor]. Qed.

Lemma canvas_set_get_witness :
  well_formed small_canvas
  ∧ ∃ c', set small_canvas 1 1 arrow_down tt = Some c'
          ∧ get c' 1 1 = Some arrow_down.
Proof.
  split; [exact small_canvas_well_formed|].
  destruct (canvas_set_get small_canvas 1 1 arrow_down tt small_canvas_well_formed)
    as (c' & E & _ & _ & _ & Hg).
  exists c'. split; [done|]. by rewrite Hg.
Defined.

Lemma drawString_writes_witness :
  well_formed small_canvas
  ∧ ∃ c', drawString small_canvas 2 0 [horizontal; vertical] tt = Some c'
          ∧ get c' 2 0 = Some horizontal ∧ get c' 0 1 = Some space.
Proof.
  split; [exact small_canvas_well_formed|].
  destruct (drawString_writes small_canvas 2 0 [horizontal; vertical] tt
              small_canvas_well_formed) as (c' & E & _ & _ & _ & Hg).
  exists c'. split; [done|]. by rewrite !Hg.
Defined.



(** X22.  [PageUp] undoes [PageDown] and [ScrollLeft] undoes [ScrollRight], as
    long as the offset is not negative and ten more still fit an [int]. *)
Theorem scroll_there_and_back (g : GraphModel.t) :
  0 ≤ GraphModel.scrollX g < 2 ^ 63 - 10 →
  0 ≤ GraphModel.scrollY g < 2 ^ 63 - 10 →
  PageUp (PageDown g) = g ∧ ScrollLeft (ScrollRight g) = g.
Proof.
  intros Hx Hy. unfold PageUp, PageDown, ScrollLeft, ScrollRight. simpl.
  rewrite !int_wrap_id by (rewrite ?int_wrap_id; lia).
  destruct (Z.ltb_spec (GraphModel.scrollY g + 10 - 10) 0); [lia|].
  destruct (Z.ltb_spec (GraphModel.scrollX g + 10 - 10) 0); [lia|].
  replace (GraphModel.scrollY g + 10 - 10) with (GraphModel.scrollY g) by lia.
  replace (GraphModel.scrollX g + 10 - 10) with (GraphModel.scrollX g) by lia.
  by destruct g.
Qed.

Lemma scroll_there_and_back_witness :
  PageUp (PageDown UIFacts.chain) = UIFacts.chain
  ∧ ScrollLeft (ScrollRight UIFacts.chain) = UIFacts.chain.
Proof. apply scroll_there_and_back; simpl; lia. Defined.

End ScreenFacts.
